(** * TileIR: kernel launch frame, torch conversion wrapper, the flash-attention
    example and its software-pipelined schedule.

    The development follows the repository's files:
    - [tilelang/language/kernel.py]  ->  [Module KernelLang]
    - [tilelang/utils/profiler.py]   ->  [Module Profiler]
    - [examples/mha_pipeline.py]     ->  [Module Flashattn]
    - the pipeline scheduler behind [T.Pipelined] -> [Module Pipeline]. *)

From Stdlib Require Import String DecimalString ZArith Bool Lia Arith PeanoNat
  List FinFun.
Import ListNotations.

Set Implicit Arguments.
Set Warnings "-register-all".

(* ===================================================================== *)
(** ** Python runtime fragments shared by the modules below *)
(* ===================================================================== *)

Module Py.

(** The exceptions the modelled code can raise. *)
Inductive Exn : Type :=
| ValueError (msg : string)
| IndexError
| AttributeError (attr : string).

(** A computation that performs foreign calls of type [C] (logged in order)
    and then either raises or returns. *)
Definition M (C A : Type) : Type := list C -> list C * (Exn + A).

Definition ret {C A} (a : A) : M C A := fun log => (log, inr a).
Definition raise {C A} (e : Exn) : M C A := fun log => (log, inl e).
Definition call {C} (c : C) : M C unit := fun log => (log ++ [c], inr tt).
Definition bind {C A B} (m : M C A) (k : A -> M C B) : M C B :=
  fun log =>
    match m log with
    | (log', inl e) => (log', inl e)
    | (log', inr a) => k a log'
    end.

Declare Scope py_scope.
Delimit Scope py_scope with py.
Notation "x <- m ;; k" := (bind m (fun x => k))
  (at level 61, m at next level, right associativity) : py_scope.
Notation "m ;;; k" := (bind m (fun _ => k))
  (at level 61, right associativity) : py_scope.

(** [str(n)] for a non-negative int. *)
Definition str (n : nat) : string := NilEmpty.string_of_uint (Nat.to_uint n).

(** [run m] starts from the empty call log. *)
Definition run {C A} (m : M C A) : list C * (Exn + A) := m [].

(** [l[i]] with Python's negative indices. *)
Definition getitem {A} (l : list A) (i : Z) : Exn + A :=
  let n := Z.of_nat (length l) in
  let j := if (i <? 0)%Z then (i + n)%Z else i in
  if ((0 <=? j) && (j <? n))%Z
  then match nth_error l (Z.to_nat j) with
       | Some a => inr a
       | None => inl IndexError
       end
  else inl IndexError.

(** [l[0:-k]] for a literal [k > 0]: everything but the last [k] items,
    the empty list when [l] has at most [k] items. *)
Definition slice_to_neg {A} (l : list A) (k : nat) : list A :=
  firstn (length l - k) l.

(** [[x] * n] for a possibly negative [n]. *)
Definition list_repeat_z {A} (x : A) (n : Z) : list A :=
  repeat x (Z.to_nat n).

(** Sequencing a list of fallible reads, left to right. *)
Fixpoint traverse {A B} (f : A -> Exn + B) (l : list A) : Exn + list B :=
  match l with
  | [] => inr []
  | a :: l' =>
      match f a with
      | inl e => inl e
      | inr b =>
          match traverse f l' with
          | inl e => inl e
          | inr bs => inr (b :: bs)
          end
      end
  end.

End Py.

(* ===================================================================== *)
(** ** tilelang/language/kernel.py *)
(* ===================================================================== *)

Module KernelLang.
Import Py.
Local Open Scope py_scope.

(** The values a caller can pass as [threads]. [bool] is a subclass of
    [int] in Python, so [isinstance(True, int)] holds. *)
Inductive PyVal : Type :=
| PyInt (n : Z)
| PyBool (b : bool)
| PyFloat (mantissa exponent : Z)
| PyStr (s : string)
| PyNone
| PyList (items : list PyVal)
| PyTuple (items : list PyVal).

Definition isinstance_int (v : PyVal) : bool :=
  match v with PyInt _ | PyBool _ => true | _ => false end.

(** A [tir.Var], identified by its name hint. *)
Record Var : Type := mkVar { name_hint : string }.
Record IterVar : Type := mkIterVar { var : Var; thread_tag : string }.

(** The members of [KernelLaunchFrame.frames]: launch-thread frames carry
    an [iter_var]; the root block frame does not. *)
Inductive Frame : Type :=
| LaunchThreadFrame (iter_var : IterVar)
| BlockFrame (name : string).

(** [frame.iter_var.var] *)
Definition frame_iter_var_var (f : Frame) : Exn + Var :=
  match f with
  | LaunchThreadFrame iv => inr (var iv)
  | BlockFrame _ => inl (AttributeError "iter_var")
  end.

(** Foreign calls made by this file. *)
Inductive Call : Type :=
| KernelLaunch (blocks : list PyVal) (threads : list PyVal)
               (attrs : list (string * string))
| FrameEnter (frames : list Frame).

(** What [with T.Kernel(...) as x] binds. *)
Inductive Entered : Type :=
| OneVar (v : Var)
| VarList (vs : list Var).

Definition lift {A} (r : Exn + A) : M Call A :=
  match r with inl e => raise e | inr a => ret a end.

(** [KernelLaunchFrame.__enter__] *)
Definition KernelLaunchFrame_enter (frames : list Frame) : M Call Entered :=
  call (FrameEnter frames) ;;;
  if length frames =? 5
  then f0 <- lift (getitem frames 0) ;;
       v <- lift (frame_iter_var_var f0) ;;
       ret (OneVar v)
  else vs <- lift (traverse frame_iter_var_var (slice_to_neg frames 4)) ;;
       ret (VarList vs).

(** The handle returned by [_ffi_api.KernelLaunch]; the frame object is
    built by the backend from exactly these arguments. *)
Record LaunchRequest : Type := mkLaunch {
  lr_blocks : list PyVal;
  lr_threads : list PyVal;
  lr_attrs : list (string * string)
}.

(** The normalisation of [threads] at the head of [Kernel]. *)
Definition normalize_threads (threads : PyVal) : Exn + list PyVal :=
  if isinstance_int threads then inr [threads; PyInt 1; PyInt 1]
  else match threads with
       | PyList l =>
           inr (l ++ list_repeat_z (PyInt 1) (3 - Z.of_nat (length l)))
       | PyTuple l =>
           inr (l ++ list_repeat_z (PyInt 1) (3 - Z.of_nat (length l)))
       | _ => inl (ValueError
                     "threads must be an integer or a list of integers")
       end.

(** [Kernel(blocks..., threads=..., prelude=...)] *)
Definition Kernel (blocks : list PyVal) (threads : PyVal)
                  (prelude : option string) : M Call LaunchRequest :=
  let attrs : list (string * string) := [] in
  threads' <- lift (normalize_threads threads) ;;
  let attrs := match prelude with
               | Some p => ("pragma_import_c"%string, p) :: attrs
               | None => attrs
               end in
  call (KernelLaunch blocks threads' attrs) ;;;
  ret (mkLaunch blocks threads' attrs).

(** The frame stack the source documents for a launch:
    [BlockIdx.x, BlockIdx.y, BlockIdx.z, ThreadIdx.x, ThreadIdx.y,
     ThreadIdx.z, Root Block], with one BlockIdx frame per grid extent. *)
Definition launch_frames (grid : list IterVar) (tx ty tz : IterVar)
                         (root : string) : list Frame :=
  map LaunchThreadFrame grid ++
  [LaunchThreadFrame tx; LaunchThreadFrame ty; LaunchThreadFrame tz;
   BlockFrame root].

(** The attribute dictionary [Kernel] passes on. *)
Definition attrs_of (prelude : option string) : list (string * string) :=
  match prelude with
  | Some p => [("pragma_import_c"%string, p)]
  | None => []
  end.

(** A successful [Kernel] call: one [KernelLaunch] with these threads. *)
Definition launched (blocks threads : list PyVal) (prelude : option string)
  : list Call * (Exn + LaunchRequest) :=
  ([KernelLaunch blocks threads (attrs_of prelude)],
   inr (mkLaunch blocks threads (attrs_of prelude))).

End KernelLang.

(* ===================================================================== *)
(** ** tilelang/utils/profiler.py: [ConvertTorch] *)
(* ===================================================================== *)

Module Profiler.
Import Py.
Local Open Scope py_scope.

(** [tvm.relay.TensorType]: what [params[i].dtype] and [params[i].shape]
    read. *)
Record TensorType : Type := mkTensorType {
  dtype : string;
  shape : list Z
}.

(** Torch tensors are heap objects. A tensor handed in by the caller is
    [Given]; the [serial]-th tensor created by [torch.empty] during the call
    is [Allocated]. Its contents are uninitialised and do not appear. *)
Inductive Tensor : Type :=
| Given (id : nat)
| Allocated (serial : nat) (ty : TensorType) (device : nat).

(** Foreign calls made by the wrapper, in the order they happen. Torch's
    own failures (no CUDA device, a dtype torch does not know) are outside
    the model. *)
Inductive Call : Type :=
| CurrentDevice
| TorchEmpty (ty : TensorType) (device : nat)
| TorchFunc (args : list Tensor).

Definition is_alloc (c : Call) : bool :=
  match c with TorchEmpty _ _ => true | _ => false end.

(** [torch.cuda.current_device()]; the process has one current device. *)
Definition current_device (dev : nat) : M Call nat :=
  call CurrentDevice ;;; ret dev.

(** [torch.empty( *shape, dtype=dtype, device=device)]: a new object. *)
Definition torch_empty (ty : TensorType) (device : nat) : M Call Tensor :=
  fun log =>
    (log ++ [TorchEmpty ty device],
     inr (Allocated (length (filter is_alloc log)) ty device)).

Definition lift {A} (r : Exn + A) : M Call A :=
  match r with inl e => raise e | inr a => ret a end.

(** What the wrapper returns: one tensor, or a list of tensors. *)
Inductive Returned : Type :=
| One (t : Tensor)
| Many (ts : list Tensor).

Section ConvertTorch.

(** The fields set by [ConvertTorch.__init__]. *)
Variable params : list TensorType.
Variable result_idx : list Z.

(** [i in self.result_idx] *)
Definition in_result_idx (i : nat) : bool :=
  existsb (Z.eqb (Z.of_nat i)) result_idx.

(** The body of [for i in range(len(self.params))], run over the
    remaining indices with the loop-carried [ins_idx] and [args]. *)
Fixpoint fill_args (device : nat) (ins : list Tensor) (idxs : list nat)
         (ins_idx : nat) (args : list Tensor) : M Call (list Tensor) :=
  match idxs with
  | [] => ret args
  | i :: rest =>
      if in_result_idx i
      then ty <- lift (getitem params (Z.of_nat i)) ;;
           tensor <- torch_empty ty device ;;
           fill_args device ins rest ins_idx (args ++ [tensor])
      else tensor <- lift (getitem ins (Z.of_nat ins_idx)) ;;
           fill_args device ins rest (ins_idx + 1) (args ++ [tensor])
  end.

(** The closure [func] built by [_convert_torch_func]; [dev] is the
    device torch reports as current. *)
Definition func (dev : nat) (ins : list Tensor) : M Call Returned :=
  if negb (length ins + length result_idx =? length params)
  then raise (ValueError
                ("Expected " ++ str (length params) ++ " inputs, got "
                 ++ str (length ins + length result_idx) ++ " with "
                 ++ str (length ins) ++ " inputs and "
                 ++ str (length result_idx) ++ " outputs")%string)
  else
    device <- current_device dev ;;
    args <- fill_args device ins (seq 0 (length params)) 0 [] ;;
    call (TorchFunc args) ;;;
    if length result_idx =? 1
    then r0 <- lift (getitem result_idx 0) ;;
         t <- lift (getitem args r0) ;;
         ret (One t)
    else ts <- lift (traverse (getitem args) result_idx) ;;
         ret (Many ts).

End ConvertTorch.

(** How often the compiled kernel was invoked in a call log. *)
Definition kernel_calls (log : list Call) : nat :=
  length (filter (fun c => match c with TorchFunc _ => true | _ => false end)
                 log).

Section ConvertTorchSpec.

Variable params : list TensorType.
Variable result_idx : list Z.
Variable dev : nat.

Abbreviation is_out := (in_result_idx result_idx).

Definition no_type : TensorType := mkTensorType "" [].

(** [self.params[i]] for an index in range. *)
Definition param (i : nat) : TensorType := nth i params no_type.

(** The tensors the loop appends for the indices [idxs], given the inputs
    not yet consumed and the number of tensors allocated so far. *)
Fixpoint place (idxs : list nat) (ins : list Tensor) (serial : nat)
  : list Tensor :=
  match idxs with
  | [] => []
  | i :: rest =>
      if is_out i
      then Allocated serial (param i) dev :: place rest ins (S serial)
      else match ins with
           | a :: ins' => a :: place rest ins' serial
           | [] => []
           end
  end.

Definition allocs_of (idxs : list nat) : list Call :=
  map (fun i => TorchEmpty (param i) dev) (filter is_out idxs).

Definition inputs_needed (idxs : list nat) : nat :=
  length (filter (fun i => negb (is_out i)) idxs).

(** The hypothesis under which the loop succeeds: [result_idx] names each
    output parameter once, by its non-negative position. *)
Definition valid_result_idx : Prop :=
  NoDup result_idx /\
  Forall (fun r => (0 <= r < Z.of_nat (length params))%Z) result_idx.

(** The serial of the tensor allocated at result position [r]. *)
Definition serial_of (r : Z) : nat :=
  length (filter is_out (seq 0 (Z.to_nat r))).

(** The argument vector built for inputs [ins]. *)
Definition args_for (ins : list Tensor) : list Tensor :=
  place (seq 0 (length params)) ins 0.

End ConvertTorchSpec.

End Profiler.

(* ===================================================================== *)
(** ** examples/mha_pipeline.py *)
(* ===================================================================== *)

Module Flashattn.

(** [T.ceildiv(a, b)]: TVM's [floordiv(a + b - 1, b)]. *)
Definition ceildiv (a b : Z) : Z := ((a + b - 1) / b)%Z.

(** The trip count of the pipelined loop in [main], for the launch-grid
    coordinate [bx]. *)
Definition loop_range (seq_len block_M block_N : Z) (is_casual : bool)
           (bx : Z) : Z :=
  if is_casual
  then Z.min (ceildiv seq_len block_N) (ceildiv ((bx + 1) * block_M) block_N)
  else ceildiv seq_len block_N.

(** The grid extent of [bx]: [T.ceildiv(seq_len, block_M)]. *)
Definition grid_x (seq_len block_M : Z) : Z := ceildiv seq_len block_M.

(** The arguments of [T.Pipelined] in [main]; [-1] entries of [order] and
    [stage] leave the placement of the copy to the scheduler. *)
Definition num_stages : nat := 2.
Definition order_hint : list Z := [-1; 0; 3; 1; -1; 2]%Z.
Definition stage_hint : list Z := [-1; 0; 0; 1; -1; 1]%Z.
Definition sync_hint : list (nat * nat) := [(0, 13); (1, 9)].
Definition group_hint : list (list nat) :=
  [[0]; [1; 2]; [3; 4; 5; 6; 7; 8; 9; 10]; [11]; [12]; [13]].

(** The stage hint of the [k]-th group; [-1] gives no hint. *)
Definition stage_of_group (k : nat) : option Z :=
  match nth k stage_hint (-1)%Z with
  | (-1)%Z => None
  | z => Some z
  end.

(** The instructions named in the schedule comment at the head of the
    file. *)
Inductive Instr : Type := loadk | gemm0 | gemm1 | softmax | loadv.

Definition range (n : Z) : list Z := map Z.of_nat (seq 0 (Z.to_nat n)).

(** The schedule comment, for a trip count [loop_range]. *)
Definition prologue : list (Instr * Z) :=
  [(loadk, 0); (gemm0, 0); (loadk, 1); (softmax, 0); (loadv, 0)]%Z.

Definition steady (i : Z) : list (Instr * Z) :=
  [(gemm0, i + 1); (gemm1, i + 0); (loadk, i + 2); (softmax, i + 1);
   (loadv, i + 1)]%Z.

Definition steady_trips (loop_range : Z) : list Z := range (loop_range - 2).

Definition epilogue (loop_range : Z) : list (Instr * Z) :=
  [(gemm0, loop_range - 1); (gemm1, loop_range - 2);
   (softmax, loop_range - 1); (loadv, loop_range - 1);
   (gemm1, loop_range - 1)]%Z.

Definition schedule (loop_range : Z) : list (Instr * Z) :=
  prologue ++ flat_map steady (steady_trips loop_range) ++ epilogue loop_range.






Definition float16 (shape : list Z) : Profiler.TensorType :=
  Profiler.mkTensorType "float16" shape.

(** The example's profiler: four parameters [Q, K, V, Output] with
    [result_idx = [3]]. *)
Definition mha_params : list Profiler.TensorType :=
  let s := [1; 4096; 32; 128]%Z in [float16 s; float16 s; float16 s; float16 s].

End Flashattn.


(* ===================================================================== *)
(** ** The pipeline scheduler behind [T.Pipelined] *)
(* ===================================================================== *)

Module Pipeline.

(** *** Data model *)

Inductive Lane : Type := SyncCompute | AsyncCopy | AsyncMatrix.

Definition lane_eqb (a b : Lane) : bool :=
  match a, b with
  | SyncCompute, SyncCompute | AsyncCopy, AsyncCopy
  | AsyncMatrix, AsyncMatrix => true
  | _, _ => false
  end.

Inductive BufKind : Type := Persistent | Rotating.

(** The buffer registry: the rotating buffers are listed, every other
    buffer is iteration-local (persistent). *)
Definition Registry : Type := list (string * BufKind).

Definition assoc {A} (k : string) (l : list (string * A)) : option A :=
  option_map snd (find (fun p => String.eqb (fst p) k) l).

Definition rotating (reg : Registry) (buf : string) : bool :=
  match assoc buf reg with
  | Some Rotating => true
  | _ => false
  end.

(** A region of a named buffer: the index range [[rg_lo, rg_hi)]. *)
Record Region : Type := mkRegion {
  rg_buf : string;
  rg_lo : Z;
  rg_hi : Z
}.

Record Stage : Type := mkStage {
  st_id : string;
  st_reads : list Region;
  st_writes : list Region;
  st_lane : Lane;
  st_offset : option Z
}.

(** A dependency edge between declaration positions; [e_carried] marks
    the loop-carried self-conflict on a persistent buffer. *)
Record Edge : Type := mkEdge {
  e_src : nat;
  e_dst : nat;
  e_buf : string;
  e_carried : bool
}.

Inductive SchedulingError : Type :=
| CyclicDependencyError (stuck : list nat)
| InvalidHintOrderError (violated : list Edge)
| BarrierBudgetExceededError (classes : list (nat * nat)).

(** The optional hints of the surface DSL. *)
Record Hints : Type := mkHints {
  h_order : option (list string);
  h_stage : list (string * Z);
  h_sync : option (list (string * string));
  h_group : list (list string)
}.


Record Config : Type := mkConfig {
  depth : nat;
  max_barriers : nat
}.

(** *** Stage Graph Builder *)

Definition overlap (r1 r2 : Region) : bool :=
  String.eqb (rg_buf r1) (rg_buf r2)
  && (rg_lo r1 <? rg_hi r2)%Z && (rg_lo r2 <? rg_hi r1)%Z.

Definition hits (r : Region) (rs : list Region) : list string :=
  map (fun _ => rg_buf r) (filter (overlap r) rs).

(** The buffers on which an access of [a] conflicts with an access of [b]:
    the ranges overlap and at least one of the two is a write. *)
Definition conflicts (a b : Stage) : list string :=
  flat_map (fun w => hits w (st_reads b ++ st_writes b)) (st_writes a)
  ++ flat_map (fun r => hits r (st_writes b)) (st_reads a).

Fixpoint pair_edges (i : nat) (a : Stage) (rest : list Stage) (j : nat)
  : list Edge :=
  match rest with
  | [] => []
  | b :: rest' =>
      map (fun buf => mkEdge i j buf false) (conflicts a b)
      ++ pair_edges i a rest' (S j)
  end.

Fixpoint forward_edges (i : nat) (stages : list Stage) : list Edge :=
  match stages with
  | [] => []
  | a :: rest => pair_edges i a rest (S i) ++ forward_edges (S i) rest
  end.

Fixpoint self_edges (reg : Registry) (i : nat) (stages : list Stage)
  : list Edge :=
  match stages with
  | [] => []
  | a :: rest =>
      map (fun buf => mkEdge i i buf true)
          (filter (fun buf => negb (rotating reg buf)) (conflicts a a))
      ++ self_edges reg (S i) rest
  end.

(** Modelled from the spec: the Stage Graph Builder (section 4.1), which is
    not among the source files. For every pair of stages in declaration
    order it declares an edge per conflicting buffer; a self-conflict on a
    persistent buffer gives a loop-carried edge. *)
Definition build_graph (reg : Registry) (stages : list Stage) : list Edge :=
  forward_edges 0 stages ++ self_edges reg 0 stages.

(** Stages without declared reads or writes: permitted, reported as
    warnings. *)
Definition warnings (stages : list Stage) : list string :=
  map st_id
      (filter (fun s => match st_reads s, st_writes s with
                        | [], [] => true
                        | _, _ => false
                        end) stages).

(** *** Schedule Planner *)

Definition declared_offset (h : Hints) (s : Stage) : option Z :=
  match assoc (st_id s) (h_stage h) with
  | Some z => Some z
  | None => st_offset s
  end.

Definition first_consumer (edges : list Edge) (i : nat) : option nat :=
  option_map e_dst
    (find (fun e => (e_src e =? i) && negb (e_carried e)) edges).

(** The offset of the stage at declaration position [i]: the declared or
    hinted one; otherwise a copy stage goes one ahead of its first
    consumer and every other stage stays at 0. *)
Definition offset_of (h : Hints) (stages : list Stage) (edges : list Edge)
           (i : nat) : Z :=
  match nth_error stages i with
  | None => 0%Z
  | Some s =>
      match declared_offset h s with
      | Some z => z
      | None =>
          match st_lane s with
          | AsyncCopy =>
              let consumer :=
                match first_consumer edges i with
                | Some j =>
                    match nth_error stages j with
                    | Some c => match declared_offset h c with
                                | Some z => z
                                | None => 0%Z
                                end
                    | None => 0%Z
                    end
                | None => 0%Z
                end in
              (consumer - 1)%Z
          | _ => 0%Z
          end
      end
  end.

(** The iteration distance of an edge: the difference of the offsets, and 1
    for a loop-carried self edge. *)
Definition delta (off : nat -> Z) (e : Edge) : Z :=
  if e_carried e then 1%Z else (off (e_dst e) - off (e_src e))%Z.

Definition mem (i : nat) (l : list nat) : bool := existsb (Nat.eqb i) l.

Definition intra (off : nat -> Z) (e : Edge) : bool :=
  negb (e_carried e) && (delta off e =? 0)%Z.

(** A stage is ready when it is not yet emitted and every producer it
    depends on within the iteration is. *)
Definition ready (off : nat -> Z) (edges : list Edge) (done : list nat)
           (i : nat) : bool :=
  negb (mem i done)
  && forallb (fun e => implb (intra off e && (e_dst e =? i))
                             (mem (e_src e) done)) edges.

(** Tie-break: the first ready stage in declaration order. *)
Definition pick (off : nat -> Z) (edges : list Edge) (n : nat)
           (done : list nat) : option nat :=
  find (ready off edges done) (seq 0 n).

Fixpoint topo (off : nat -> Z) (edges : list Edge) (n fuel : nat)
         (done : list nat) : list nat :=
  match fuel with
  | 0 => []
  | S fuel' =>
      match pick off edges n done with
      | None => []
      | Some i => i :: topo off edges n fuel' (i :: done)
      end
  end.

Fixpoint index_of (id : string) (stages : list Stage) : option nat :=
  match stages with
  | [] => None
  | s :: rest =>
      if String.eqb (st_id s) id then Some 0
      else option_map S (index_of id rest)
  end.

Fixpoint resolve (stages : list Stage) (ids : list string)
  : option (list nat) :=
  match ids with
  | [] => Some []
  | id :: rest =>
      match index_of id stages, resolve stages rest with
      | Some i, Some others => Some (i :: others)
      | _, _ => None
      end
  end.

Definition is_permutation (n : nat) (order : list nat) : bool :=
  (length order =? n) && forallb (fun i => mem i order) (seq 0 n).

(** [i] occurs in [order] and [j] occurs after it. *)
Fixpoint before_in (i j : nat) (order : list nat) : bool :=
  match order with
  | [] => false
  | x :: rest => if x =? i then mem j rest else before_in i j rest
  end.

(** An edge is respected by the emission order once its distance is
    applied: the consumer runs in a later body, or in the same body after
    the producer. *)
Definition edge_ok (off : nat -> Z) (order : list nat) (e : Edge) : bool :=
  e_carried e
  || (0 <? delta off e)%Z
  || ((delta off e =? 0)%Z && before_in (e_src e) (e_dst e) order).

Fixpoint drop_until (p : nat -> bool) (l : list nat) : list nat :=
  match l with
  | [] => []
  | x :: rest => if p x then l else drop_until p rest
  end.

(** The members of a group sit next to each other in the order. *)
Definition contiguous (members order : list nat) : bool :=
  let tail := drop_until (fun x => mem x members) order in
  let k := length (filter (fun x => mem x members) order) in
  forallb (fun x => mem x members) (firstn k tail).

Definition group_ok (stages : list Stage) (order : list nat)
           (g : list string) : bool :=
  match resolve stages g with
  | Some members => contiguous members order
  | None => false
  end.

Record Planned : Type := mkPlanned {
  p_index : nat;
  p_id : string;
  p_lane : Lane;
  p_offset : Z;
  p_buffers : list string
}.

Definition buffers_of (s : Stage) : list string :=
  map rg_buf (st_reads s ++ st_writes s).

Definition plan_stage (off : nat -> Z) (stages : list Stage) (i : nat)
  : Planned :=
  match nth_error stages i with
  | Some s => mkPlanned i (st_id s) (st_lane s) (off i) (buffers_of s)
  | None => mkPlanned i "" SyncCompute (off i) []
  end.

(** *** Synchronization Inserter *)

Record SyncClass : Type := mkClass {
  c_src : nat;
  c_dst : nat;
  c_delta : Z;
  c_bufs : list string
}.

Definition crosses (stages : list Stage) (e : Edge) : bool :=
  match nth_error stages (e_src e), nth_error stages (e_dst e) with
  | Some a, Some b => negb (lane_eqb (st_lane a) (st_lane b))
  | _, _ => false
  end.

(** With explicit synchronisation hints only the listed (producer,
    consumer) pairs are synchronised. *)
Definition hinted (h : Hints) (stages : list Stage) (e : Edge) : bool :=
  match h_sync h with
  | None => true
  | Some pairs =>
      match nth_error stages (e_src e), nth_error stages (e_dst e) with
      | Some a, Some b =>
          existsb (fun p => String.eqb (fst p) (st_id a)
                            && String.eqb (snd p) (st_id b)) pairs
      | _, _ => false
      end
  end.

(** The edges that are backed by a barrier (sections 3 and 4.3): they cross
    execution lanes, on a rotating buffer; persistent buffers are ordered
    by program order. *)
Definition eligible (reg : Registry) (h : Hints) (stages : list Stage)
           (e : Edge) : bool :=
  negb (e_carried e) && crosses stages e && rotating reg (e_buf e)
  && hinted h stages e.

Definition same_class (off : nat -> Z) (c : SyncClass) (e : Edge) : bool :=
  (c_src c =? e_src e) && (c_dst c =? e_dst e)
  && (c_delta c =? delta off e)%Z.

Fixpoint add_edge (off : nat -> Z) (e : Edge) (cs : list SyncClass)
  : list SyncClass :=
  match cs with
  | [] => [mkClass (e_src e) (e_dst e) (delta off e) [e_buf e]]
  | c :: rest =>
      if same_class off c e
      then mkClass (c_src c) (c_dst c) (c_delta c) (c_bufs c ++ [e_buf e])
           :: rest
      else c :: add_edge off e rest
  end.

(** Edges grouped by (producer, consumer, distance), in the order of their
    first edge. *)
Definition classes_of (off : nat -> Z) (es : list Edge) : list SyncClass :=
  fold_left (fun cs e => add_edge off e cs) es [].

(** The [k]-th class owns the identifiers [k * depth .. k * depth + depth - 1]
    and walks through them cyclically, one per iteration. *)
Definition barrier_id (d k n : nat) : nat := k * d + n mod d.

(** The parity of a wait: [(iteration / period) mod 2], flipping once per
    round trip through the identifiers of the class. *)
Definition parity (d n : nat) : nat := (n / d) mod 2.

Record Annotated : Type := mkAnnotated {
  a_planned : Planned;
  a_waits : list nat;
  a_arrives : list nat
}.

Definition class_numbers (f : SyncClass -> nat) (cs : list SyncClass)
           (i : nat) : list nat :=
  map fst (filter (fun kc => f (snd kc) =? i)
                  (combine (seq 0 (length cs)) cs)).

Definition annotate (cs : list SyncClass) (p : Planned) : Annotated :=
  mkAnnotated p (class_numbers c_dst cs (p_index p))
                (class_numbers c_src cs (p_index p)).

(** *** Ramp/Drain Generator *)

(** What code generation receives per instruction slot. An operation names
    its stage, its logical iteration and, per buffer it touches, the slot
    ([None] for a persistent buffer). *)
Inductive Event : Type :=
| Wait (cls iter barrier par : nat)
| Op (stage iter : nat) (accesses : list (string * option nat))
| Arrive (cls iter barrier : nat).

Definition min_offset (sched : list Annotated) : Z :=
  match sched with
  | [] => 0%Z
  | a :: rest =>
      fold_right (fun b m => Z.min (p_offset (a_planned b)) m)
                 (p_offset (a_planned a)) rest
  end.

(** How many bodies after the most advanced lane a stage starts. *)
Definition lag (sched : list Annotated) (a : Annotated) : nat :=
  Z.to_nat (p_offset (a_planned a) - min_offset sched).

(** The number of ramp bodies: the span of the offsets. *)
Definition max_lag (sched : list Annotated) : nat :=
  fold_right (fun a m => Nat.max (lag sched a) m) 0 sched.

(** Slot assignment: rotating buffers cycle through [depth] slots. *)
Definition slot_of (reg : Registry) (d n : nat) (buf : string)
  : option nat :=
  if rotating reg buf then Some (n mod d) else None.

Definition instance (reg : Registry) (d : nat) (a : Annotated) (n : nat)
  : list Event :=
  map (fun k => Wait k n (barrier_id d k n) (parity d n)) (a_waits a)
  ++ [Op (p_index (a_planned a)) n
         (map (fun b => (b, slot_of reg d n b)) (p_buffers (a_planned a)))]
  ++ map (fun k => Arrive k n (barrier_id d k n)) (a_arrives a).

Definition active (N g t : nat) : bool := (g <=? t) && (t <? g + N).

(** The [t]-th emitted body for trip count [N]: every stage whose lane is
    active, in schedule order, each for its own logical iteration. *)
Definition body (reg : Registry) (d : nat) (sched : list Annotated)
           (N t : nat) : list Event :=
  flat_map (fun a => if active N (lag sched a) t
                     then instance reg d a (t - lag sched a)
                     else []) sched.

Record Phases : Type := mkPhases {
  ph_prologue : list (list Event);
  ph_steady : list (list Event);
  ph_epilogue : list (list Event)
}.

(** Modelled from the spec: the Ramp/Drain Generator (section 4.4), which is
    not among the source files. The prologue activates one more offset lane
    per body, the steady state runs the full schedule, the epilogue drains
    the lanes; a trip count of 0 emits nothing. The number of ramp bodies is
    the span of the stage offsets, as in the schedule comment of
    examples/mha_pipeline.py (two ramp steps at [num_stages = 2]); it is
    [depth - 1] when the offsets span [depth] lanes. *)
Definition generate (reg : Registry) (d : nat) (sched : list Annotated)
           (N : nat) : Phases :=
  let L := max_lag sched in
  if N =? 0 then mkPhases [] [] []
  else mkPhases (map (body reg d sched N) (seq 0 (Nat.min L N)))
                (map (body reg d sched N) (seq L (N - L)))
                (map (body reg d sched N) (seq N L)).

(** The full instruction stream: prologue, steady bodies, epilogue. *)
Definition stream (ph : Phases) : list Event :=
  concat (ph_prologue ph ++ ph_steady ph ++ ph_epilogue ph).

(** *** Schedule construction *)

Record Input : Type := mkInput {
  i_config : Config;
  i_registry : Registry;
  i_stages : list Stage;
  i_hints : Hints;
  i_trip_count : nat
}.

Record Output : Type := mkOutput {
  o_edges : list Edge;
  o_order : list nat;
  o_classes : list SyncClass;
  o_schedule : list Annotated;
  o_phases : Phases;
  o_warnings : list string
}.

Definition stuck_stages (n : nat) (emitted : list nat) : list nat :=
  filter (fun i => negb (mem i emitted)) (seq 0 n).

(** Modelled from the spec: the Schedule Planner (section 4.2), which is not
    among the source files, given the topological sort [sorted] of the
    stages. Without an order hint that sort is the order; an explicit order
    is taken as given. Either way the order must be a permutation that
    respects every edge and keeps every group contiguous. *)
Definition plan_from (sorted : list nat) (h : Hints) (stages : list Stage)
           (edges : list Edge) : SchedulingError + list nat :=
  let n := length stages in
  let off := offset_of h stages edges in
  if negb (length sorted =? n)
  then inl (CyclicDependencyError (stuck_stages n sorted))
  else
    match (match h_order h with
           | None => Some sorted
           | Some ids => resolve stages ids
           end) with
    | None => inl (InvalidHintOrderError [])
    | Some order =>
        if is_permutation n order
           && forallb (edge_ok off order) edges
           && forallb (group_ok stages order) (h_group h)
        then inr order
        else inl (InvalidHintOrderError
                    (filter (fun e => negb (edge_ok off order e)) edges))
    end.

(** The planner proper: the stages are sorted topologically, ties broken by
    declaration order. *)
Definition plan (h : Hints) (stages : list Stage) (edges : list Edge)
  : SchedulingError + list nat :=
  let n := length stages in
  plan_from (topo (offset_of h stages edges) edges n n []) h stages edges.

(** Modelled from the spec: the Synchronization Inserter (section 4.3),
    which is not among the source files. One class per (producer, consumer,
    distance) of the barrier-backed edges; the classes must fit the barrier
    budget. *)
Definition insert_sync (cfg : Config) (reg : Registry) (h : Hints)
           (stages : list Stage) (edges : list Edge)
  : SchedulingError + list SyncClass :=
  let off := offset_of h stages edges in
  let cs := classes_of off (filter (eligible reg h stages) edges) in
  if max_barriers cfg <? length cs * depth cfg
  then inl (BarrierBudgetExceededError
              (map (fun c => (c_src c, c_dst c)) cs))
  else inr cs.

(** Modelled from the spec: schedule construction as a whole (section 2,
    control flow), given the topological sort of the stages: graph, plan,
    synchronisation, ramp and drain. *)
Definition construct_from (sorted : list nat) (inp : Input)
  : SchedulingError + Output :=
  let stages := i_stages inp in
  let reg := i_registry inp in
  let h := i_hints inp in
  let edges := build_graph reg stages in
  let off := offset_of h stages edges in
  match plan_from sorted h stages edges with
  | inl e => inl e
  | inr order =>
      match insert_sync (i_config inp) reg h stages edges with
      | inl e => inl e
      | inr cs =>
          let sched :=
            map (fun i => annotate cs (plan_stage off stages i)) order in
          inr (mkOutput edges order cs sched
                 (generate reg (depth (i_config inp)) sched
                           (i_trip_count inp))
                 (warnings stages))
      end
  end.

Definition construct (inp : Input) : SchedulingError + Output :=
  let stages := i_stages inp in
  let edges := build_graph (i_registry inp) stages in
  let n := length stages in
  construct_from
    (topo (offset_of (i_hints inp) stages edges) edges n n []) inp.

(** *** Schedule construction as a relation *)




(** *** The scenario of the specification *)

Definition whole (buf : string) : Region := mkRegion buf 0 1.




(** *** The attention kernel of examples/mha_pipeline.py *)

Definition mha_registry : Registry :=
  [("K_shared"%string, Rotating); ("V_shared"%string, Rotating)].

(** The five instructions of the schedule comment, in the order of the
    loop body, with the buffers the macros [MMA0], [Softmax], [Rescale] and
    [MMA1] touch ([Rescale] rides with the second GEMM, as in the comment).
    Each takes the stage hint of its group: none for the two copies. *)
Definition mha_stages : list Stage :=
  [ mkStage "loadk" [] [whole "K_shared"] AsyncCopy
            (Flashattn.stage_of_group 0);
    mkStage "gemm0" [whole "Q_shared"; whole "K_shared"] [whole "acc_s"]
            AsyncMatrix (Flashattn.stage_of_group 1);
    mkStage "softmax"
            [whole "acc_s"; whole "scores_max"; whole "scores_max_prev";
             whole "scores_scale"; whole "scores_sum"; whole "logsum"]
            [whole "acc_s"; whole "acc_s_cast"; whole "scores_max";
             whole "scores_max_prev"; whole "scores_scale";
             whole "scores_sum"; whole "logsum"]
            SyncCompute (Flashattn.stage_of_group 2);
    mkStage "loadv" [] [whole "V_shared"] AsyncCopy
            (Flashattn.stage_of_group 4);
    mkStage "gemm1"
            [whole "acc_s_cast"; whole "V_shared"; whole "scores_scale";
             whole "acc_o"]
            [whole "acc_o"] AsyncMatrix (Flashattn.stage_of_group 5) ].

(** The emission order of the steady loop in the schedule comment. *)
Definition mha_hints : Hints :=
  mkHints (Some ["gemm0"; "gemm1"; "loadk"; "softmax"; "loadv"]%string)
          [] None [].

Definition mha (N : nat) : Input :=
  mkInput (mkConfig Flashattn.num_stages 16) mha_registry mha_stages
          mha_hints N.

(** The operations of a stream, as (stage position, logical iteration). *)
Definition ops (evs : list Event) : list (nat * nat) :=
  flat_map (fun ev => match ev with
                      | Op s n _ => [(s, n)]
                      | _ => []
                      end) evs.

(** *** Vocabulary of the statements *)


(** The declaration position of a scheduled stage. *)
Definition index (a : Annotated) : nat := p_index (a_planned a).


(** The body over any lag function, for inductions over the schedule. *)
Definition body_of (reg : Registry) (d : nat) (g : Annotated -> nat)
           (l : list Annotated) (N t : nat) : list Event :=
  flat_map (fun a => if active N (g a) t
                     then instance reg d a (t - g a) else []) l.

(** The schedule built for an order. *)
Definition schedule_of (cs : list SyncClass) (off : nat -> Z)
           (stages : list Stage) (order : list nat) : list Annotated :=
  map (fun i => annotate cs (plan_stage off stages i)) order.



(** The schedule constructed for the attention kernel; it does not depend
    on the trip count. *)
Definition mha_schedule : list Annotated :=
  Eval vm_compute in
    match construct (mha 0) with
    | inr o => o_schedule o
    | inl _ => []
    end.

(** The instruction of the schedule comment at a declaration position. *)
Definition instr_of (p : nat * nat) : Flashattn.Instr * Z :=
  ((match fst p with
    | 0 => Flashattn.loadk
    | 1 => Flashattn.gemm0
    | 2 => Flashattn.softmax
    | 3 => Flashattn.loadv
    | _ => Flashattn.gemm1
    end), Z.of_nat (snd p)).


(** The stages of a schedule with their lags. *)
Definition rows (sched : list Annotated) : list (nat * nat) :=
  map (fun a => (index a, lag sched a)) sched.

End Pipeline.


(* ===================================================================== *)
(** ** examples/mha_pipeline.py: the loop body of [main] *)
(* ===================================================================== *)

Module FlashattnKernel.
Import Flashattn.
Local Open Scope Z_scope.

(** The two values [MMA0] writes to [acc_s] before the GEMM. *)
Inductive Init : Type := zero | neg_infinity.

(** [MMA0], the initialisation of [acc_s[i, j]] in iteration [k] of block
    [bx]: the causal mask
    [T.if_then_else(bx * block_M + i >= k * block_N + j, 0, -inf)], or
    [T.clear(acc_s)]. *)
Definition MMA0_init (block_M block_N : Z) (is_casual : bool)
           (bx k i j : Z) : Init :=
  if is_casual
  then if bx * block_M + i >=? k * block_N + j then zero else neg_infinity
  else zero.

(** The rows of [K] and of [V] copied in iteration [k]:
    [k * block_N : (k + 1) * block_N]. *)
Definition kv_slice (block_N k : Z) : Z * Z :=
  (k * block_N, (k + 1) * block_N).

(** The rows of [Q] and of [Output] handled by block [bx]:
    [bx * block_M : (bx + 1) * block_M]. *)
Definition q_slice (block_M bx : Z) : Z * Z :=
  (bx * block_M, (bx + 1) * block_M).

End FlashattnKernel.


(* ===================================================================== *)
(** ** The 32-bit integers of the kernel's index arithmetic *)
(* ===================================================================== *)

Module Int32.
Local Open Scope Z_scope.

Definition min_int : Z := - 2 ^ 31.
Definition max_int : Z := 2 ^ 31 - 1.

(** The value an [int32] holds after an operation whose exact result is
    [x]: two's complement wrap-around. *)
Definition wrap (x : Z) : Z := (x + 2 ^ 31) mod 2 ^ 32 - 2 ^ 31.

Definition fits (x : Z) : Prop := min_int <= x <= max_int.

Definition add (a b : Z) : Z := wrap (a + b).
Definition sub (a b : Z) : Z := wrap (a - b).
Definition mul (a b : Z) : Z := wrap (a * b).

(** A constant divisor of zero is refused when the expression is built. *)
Inductive Error : Type := DivideByZero.

(** [floordiv(a, b)] *)
Definition floordiv (a b : Z) : Error + Z :=
  if b =? 0 then inl DivideByZero else inr (wrap (a / b)).

End Int32.

(* ===================================================================== *)
(** ** examples/mha_pipeline.py: the index arithmetic in [int32] *)
(* ===================================================================== *)

Module FlashattnInt32.
Import Int32.
Local Open Scope Z_scope.

(** [T.ceildiv(a, b)]: [floordiv(a + b - 1, b)], every operation in
    [int32]. *)
Definition ceildiv (a b : Z) : Error + Z := floordiv (sub (add a b) 1) b.

(** The trip count of the pipelined loop in [main]. *)
Definition loop_range (seq_len block_M block_N : Z) (is_casual : bool)
           (bx : Z) : Error + Z :=
  if is_casual
  then match ceildiv seq_len block_N with
       | inl e => inl e
       | inr tiles =>
           match ceildiv (mul (add bx 1) block_M) block_N with
           | inl e => inl e
           | inr reach => inr (Z.min tiles reach)
           end
       end
  else ceildiv seq_len block_N.

(** The grid extent of [bx]: [T.ceildiv(seq_len, block_M)]. *)
Definition grid_x (seq_len block_M : Z) : Error + Z :=
  ceildiv seq_len block_M.

(** The initial value [MMA0] gives entry [(i, j)] of [acc_s] in tile
    [k]. *)
Definition MMA0_init (block_M block_N : Z) (is_casual : bool)
           (bx k i j : Z) : FlashattnKernel.Init :=
  if is_casual
  then if add (mul bx block_M) i >=? add (mul k block_N) j
       then FlashattnKernel.zero
       else FlashattnKernel.neg_infinity
  else FlashattnKernel.zero.

(** The bounds of the slices [k * block_N : (k + 1) * block_N] of [K] and
    [V], and [bx * block_M : (bx + 1) * block_M] of [Q] and [Output]. *)
Definition kv_slice (block_N k : Z) : Z * Z :=
  (mul k block_N, mul (add k 1) block_N).

Definition q_slice (block_M bx : Z) : Z * Z :=
  (mul bx block_M, mul (add bx 1) block_M).

End FlashattnInt32.

(* ===================================================================== *)
(** ** tilelang/utils/profiler.py: [Profiler] and [do_bench] *)
(* ===================================================================== *)

Module ProfilerClass.
Import Py Profiler.

(** What a method can fail with: an exception of the wrapper, or a failed
    [assert]. *)
Inductive Failure : Type :=
| Raised (e : Exn)
| AssertionError.

(** The foreign calls of the class, in the order they happen: those of the
    conversion wrapper, the tensor supply, the reference program, CUDA
    synchronisation and events, the comparison, the L2 cache buffer and the
    TVM time evaluator. *)
Inductive Event : Type :=
| Torch (c : Call)
| Supply (ty : TensorType)
| LoadLibcuda
| Reference (ins : list Tensor)
| Synchronize
| AssertClose (lhs rhs : Tensor)
| CacheEmpty (fast_flush : bool)
| CacheZero
| EventRecord
| GradNone (x : nat)
| TimeEvaluator (ins : list Tensor).

Definition P (A : Type) : Type := list Event -> list Event * (Failure + A).

Definition pret {A} (a : A) : P A := fun log => (log, inr a).
Definition praise {A} (f : Failure) : P A := fun log => (log, inl f).
Definition emit (e : Event) : P unit := fun log => (log ++ [e], inr tt).
Definition pbind {A B} (m : P A) (k : A -> P B) : P B :=
  fun log =>
    match m log with
    | (log', inl f) => (log', inl f)
    | (log', inr a) => k a log'
    end.

Declare Scope prof_scope.
Delimit Scope prof_scope with prof.
Notation "x <- m ;; k" := (pbind m (fun x => k))
  (at level 61, m at next level, right associativity) : prof_scope.
Notation "m ;;; k" := (pbind m (fun _ => k))
  (at level 61, right associativity) : prof_scope.
Local Open Scope prof_scope.

(** The wrapper's calls among the events. *)
Definition calls_of (log : list Event) : list Call :=
  flat_map (fun e => match e with Torch c => [c] | _ => [] end) log.

(** A computation of the conversion wrapper, run inside the class: it sees
    the wrapper's earlier calls and adds its own. *)
Definition of_wrapper {A} (m : M Call A) : P A :=
  fun log =>
    let before := calls_of log in
    let (after, r) := m before in
    (log ++ map Torch (skipn (length before) after),
     match r with
     | inl e => inl (Raised e)
     | inr a => inr a
     end).

Definition is_supply (e : Event) : bool :=
  match e with Supply _ => true | _ => false end.

(** [self.supply(param)]: a new tensor for the parameter. *)
Definition supply (ty : TensorType) : P Tensor :=
  fun log =>
    (log ++ [Supply ty], inr (Given (length (filter is_supply log)))).

Definition lift {A} (r : Exn + A) : P A :=
  match r with inl e => praise (Raised e) | inr a => pret a end.

(** [[x] if isinstance(x, torch.Tensor) else x] *)
Definition to_list (r : Returned) : list Tensor :=
  match r with One t => [t] | Many ts => ts end.

(** [for _ in range(n): m] *)
Fixpoint repeat_ (n : nat) (m : P unit) : P unit :=
  match n with
  | 0 => pret tt
  | S k => m ;;; repeat_ k m
  end.

(** What [do_bench] returns: a statistic of the measured times, or their
    quantiles; the times themselves are not modelled. *)
Inductive BenchResult : Type :=
| Statistic (mode : string) (samples : nat)
| Quantiles (k samples : nat)
| Quantile (samples : nat).

(** The module-level [do_bench]. The quotients [int(warmup / estimate_ms)]
    and [int(rep / estimate_ms)] depend on the measured time and are the
    parameters [est_warmup] and [est_repeat] (a measured time of zero,
    where the division raises, is outside the model); [quantiles] is given
    by its length. *)
Definition do_bench (fn : P unit) (est_warmup est_repeat : Z)
           (_n_warmup _n_repeat : Z) (grad_to_none : option (list nat))
           (quantiles : option nat) (fast_flush : bool)
           (return_mode : string) : P BenchResult :=
  if negb (existsb (String.eqb return_mode)
                   ["min"; "max"; "mean"; "median"]%string)
  then praise AssertionError
  else
    fn ;;;
    emit Synchronize ;;;
    emit (CacheEmpty fast_flush) ;;;
    emit EventRecord ;;;
    repeat_ 5 (emit CacheZero ;;; fn) ;;;
    emit EventRecord ;;;
    emit Synchronize ;;;
    let n_warmup := Z.max 1 est_warmup in
    let n_repeat := Z.max 1 est_repeat in
    let n_warmup := if (0 <? _n_warmup)%Z then _n_warmup else n_warmup in
    let n_repeat := if (0 <? _n_repeat)%Z then _n_repeat else n_repeat in
    repeat_ (Z.to_nat n_warmup) fn ;;;
    repeat_ (Z.to_nat n_repeat)
      (match grad_to_none with
       | Some xs => fold_right (fun x k => emit (GradNone x) ;;; k)
                               (pret tt) xs
       | None => pret tt
       end ;;;
       emit CacheZero ;;;
       emit EventRecord ;;;
       fn ;;;
       emit EventRecord) ;;;
    emit Synchronize ;;;
    pret (match quantiles with
          | Some k => if k =? 1 then Quantile (Z.to_nat n_repeat)
                      else Quantiles k (Z.to_nat n_repeat)
          | None => Statistic return_mode (Z.to_nat n_repeat)
          end).

(** What [Profiler.do_bench] returns. *)
Inductive BenchOut : Type :=
| TorchTime (r : BenchResult)
| TvmTime
| MinTime (r : BenchResult).

Section Profiler.

(** The fields of the object: those of [ConvertTorch], and the outcome of
    [torch_assert_close] on a pair of tensors. *)
Variable params : list TensorType.
Variable result_idx : list Z.
Variable dev : nat.
Variable close : Tensor -> Tensor -> bool.

(** The loop of [_get_inputs], over the remaining indices. *)
Fixpoint get_inputs_loop (with_output : bool) (idxs : list nat)
         (ins : list Tensor) : P (list Tensor) :=
  match idxs with
  | [] => pret ins
  | i :: rest =>
      if with_output || negb (in_result_idx result_idx i)
      then ty <- lift (getitem params (Z.of_nat i)) ;;
           t <- supply ty ;;
           get_inputs_loop with_output rest (ins ++ [t])
      else get_inputs_loop with_output rest ins
  end.

(** [Profiler._get_inputs] *)
Definition _get_inputs (with_output : bool) : P (list Tensor) :=
  get_inputs_loop with_output (seq 0 (length params)) [].

(** [ConvertTorch.__call__], which is [self.func]. *)
Definition __call__ (args : list Tensor) : P Returned :=
  of_wrapper (func params result_idx dev args).

(** The comparison loop of [assert_allclose]. *)
Fixpoint compare_all (pairs : list (Tensor * Tensor)) : P unit :=
  match pairs with
  | [] => pret tt
  | (lhs, rhs) :: rest =>
      emit (AssertClose lhs rhs) ;;;
      if close lhs rhs then compare_all rest else praise AssertionError
  end.

(** [Profiler.assert_allclose] *)
Definition assert_allclose (reference_program : list Tensor -> Returned)
  : P unit :=
  ins <- _get_inputs false ;;
  emit (Reference ins) ;;;
  let ref_outs := reference_program ins in
  emit Synchronize ;;;
  lib_outs <- __call__ ins ;;
  emit Synchronize ;;;
  let lib_outs := to_list lib_outs in
  let ref_outs := to_list ref_outs in
  if negb (length lib_outs =? length ref_outs)
  then praise AssertionError
  else compare_all (combine lib_outs ref_outs).

(** [Profiler.run_once] *)
Definition run_once (func : option (list Tensor -> P Returned))
  : P Returned :=
  emit LoadLibcuda ;;;
  ins <- _get_inputs false ;;
  match func with
  | Some f => f ins
  | None => __call__ ins
  end.

(** [Profiler.do_bench]; [type_key] is what
    [self.mod.imported_modules[0].type_key] gives, if it does not raise. *)
Definition Profiler_do_bench (func : list Tensor -> P Returned)
           (est_warmup est_repeat n_warmup n_repeat : Z)
           (profiler : string) (input_tensors : option (list Tensor))
           (type_key : option string) : P BenchOut :=
  if String.eqb profiler "torch" then
    ins <- match input_tensors with
           | None => _get_inputs false
           | Some l => pret l
           end ;;
    r <- do_bench (func ins ;;; pret tt) est_warmup est_repeat
                  n_warmup n_repeat None None true "mean" ;;
    pret (TorchTime r)
  else if String.eqb profiler "tvm" then
    ins <- match input_tensors with
           | None => _get_inputs true
           | Some l => pret l
           end ;;
    let target := match type_key with
                  | Some k => k
                  | None => "cuda"%string
                  end in
    if negb (existsb (String.eqb target) ["cuda"; "hip"]%string)
    then praise AssertionError
    else emit (TimeEvaluator ins) ;;; pret TvmTime
  else if String.eqb profiler "auto" then
    ins <- _get_inputs false ;;
    r <- do_bench (func ins ;;; pret tt) est_warmup est_repeat
                  n_warmup n_repeat None None true "mean" ;;
    ins' <- _get_inputs true ;;
    emit (TimeEvaluator ins') ;;;
    pret (MinTime r)
  else praise (Raised (ValueError ("Unknown profiler: " ++ profiler))).

End Profiler.

(** The loop of [assert_consistent]. [consistent lib_outs ref_outs] is the
    outcome of the assertions over [zip(lib_outs, ref_outs)]: whether
    [torch.allclose] holds for every pair. *)
Fixpoint consistent_loop (params : list TensorType) (result_idx : list Z)
         (dev : nat) (consistent : Returned -> Returned -> bool)
         (ins : list Tensor) (ref_outs : Returned) (n : nat) : P unit :=
  match n with
  | 0 => pret tt
  | S k =>
      lib_outs <- __call__ params result_idx dev ins ;;
      if consistent lib_outs ref_outs
      then consistent_loop params result_idx dev consistent ins ref_outs k
      else praise AssertionError
  end.

(** [Profiler.assert_consistent] *)
Definition assert_consistent (params : list TensorType)
           (result_idx : list Z) (dev : nat)
           (consistent : Returned -> Returned -> bool) (repeat : Z)
  : P unit :=
  ins <- _get_inputs params result_idx false ;;
  ref_outs <- __call__ params result_idx dev ins ;;
  consistent_loop params result_idx dev consistent ins ref_outs
                  (Z.to_nat repeat).

(** [prun m] starts from the empty event log. *)
Definition prun {A} (m : P A) : list Event * (Failure + A) := m [].

(** How often the compiled kernel was invoked in an event log. *)
Definition kernel_runs (log : list Event) : nat :=
  kernel_calls (calls_of log).

(** The argument vectors the kernel was invoked on. *)
Definition kernel_args (log : list Event) : list (list Tensor) :=
  flat_map (fun e => match e with
                     | Torch (TorchFunc args) => [args]
                     | _ => []
                     end) log.

(** The parameter types tensors were supplied for. *)
Definition supplies (log : list Event) : list TensorType :=
  flat_map (fun e => match e with Supply ty => [ty] | _ => [] end) log.

(** The inputs the reference program was called on. *)
Definition references (log : list Event) : list (list Tensor) :=
  flat_map (fun e => match e with Reference ins => [ins] | _ => [] end) log.

(** The pairs handed to [torch_assert_close]. *)
Definition comparisons (log : list Event) : list (Tensor * Tensor) :=
  flat_map (fun e => match e with
                     | AssertClose lhs rhs => [(lhs, rhs)]
                     | _ => []
                     end) log.

(** The tensors allocated so far. *)
Definition allocated (log : list Event) : nat :=
  length (filter is_alloc (calls_of log)).

(** The events [do_bench] emits itself, around the calls of [fn]. *)
Definition bench_event (e : Event) : bool :=
  match e with
  | Synchronize | CacheEmpty _ | CacheZero | EventRecord | GradNone _ => true
  | _ => false
  end.

(** The output tensors of a wrapper call that starts after [s]
    allocations, in [result_idx] order. *)
Definition outputs_at (params : list TensorType) (result_idx : list Z)
           (dev s : nat) : list Tensor :=
  map (fun r => Allocated (s + serial_of result_idx r)
                          (param params (Z.to_nat r)) dev) result_idx.

(** What that call returns. *)
Definition returned_at (params : list TensorType) (result_idx : list Z)
           (dev s : nat) : Returned :=
  match outputs_at params result_idx dev s with
  | [t] => One t
  | ts => Many ts
  end.

Definition is_kernel_run (e : Event) : bool :=
  match e with Torch (TorchFunc _) => true | _ => false end.

Definition is_allocation (e : Event) : bool :=
  match e with Torch (TorchEmpty _ _) => true | _ => false end.

(** [m] always succeeds with [v], adding events of which [k] satisfy
    [p]. *)
Definition Steps {A} (p : Event -> bool) (m : P A) (v : A) (k : nat)
  : Prop :=
  forall log, exists d,
    m log = (log ++ d, inr v) /\ length (filter p d) = k.

(** The number of warm-up and of measured runs of [do_bench]. *)
Definition runs_of (estimate given : Z) : nat :=
  Z.to_nat (if (0 <? given)%Z then given else Z.max 1 estimate).

(** The positions [_get_inputs] supplies a tensor for. *)
Definition supplied_positions (params : list TensorType)
           (result_idx : list Z) (with_output : bool) : list nat :=
  filter (fun i => with_output || negb (in_result_idx result_idx i))
         (seq 0 (length params)).

(** The events of [assert_allclose] up to the comparison, on a valid
    [result_idx] and the supplied inputs [ins]. *)
Definition before_comparison (params : list TensorType)
           (result_idx : list Z) (dev : nat) (ins : list Tensor)
  : list Event :=
  map (fun i => Supply (param params i))
      (supplied_positions params result_idx false)
    ++ [Reference ins; Synchronize]
    ++ map Torch (CurrentDevice
                    :: allocs_of params result_idx dev
                                 (seq 0 (length params))
                    ++ [TorchFunc (args_for params result_idx dev ins)])
    ++ [Synchronize].

End ProfilerClass.


(* ===================================================================== *)
(** ** tilelang/language/kernel.py: the frames [__enter__] reads *)
(* ===================================================================== *)

Module KernelFrames.
Import KernelLang.

(** Whether [frame.iter_var] exists. *)
Definition has_iter_var (f : Frame) : bool :=
  match f with LaunchThreadFrame _ => true | BlockFrame _ => false end.

End KernelFrames.

(* ===================================================================== *)
(** ** python/tilelang/__init__.py: environment and import path *)
(* ===================================================================== *)

Module Bootstrap.
Local Open Scope string_scope.

(** [os.environ] *)
Definition Env : Type := string -> option string.

(** [os.environ.get(k, d)] *)
Definition get (env : Env) (k d : string) : string :=
  match env k with Some v => v | None => d end.

(** [os.environ[k] = v] *)
Definition set (env : Env) (k v : string) : Env :=
  fun k' => if String.eqb k' k then Some v else env k'.

(** What the module body reads and writes: [os.environ], [sys.path] and
    the warnings passed to [logger.warning]. *)
Record State : Type := mkState {
  environ : Env;
  sys_path : list string;
  warnings : list string
}.

(** [s.startswith("/")] and [s.endswith("/")] *)
Definition startswith_slash (s : string) : bool := String.prefix "/" s.

Fixpoint endswith_slash (s : string) : bool :=
  match s with
  | EmptyString => false
  | String c EmptyString => String.eqb (String c EmptyString) "/"
  | String _ s' => endswith_slash s'
  end.

(** One step of [posixpath.join]. *)
Definition join2 (path b : string) : string :=
  if startswith_slash b then b
  else if String.eqb path "" || endswith_slash path then path ++ b
  else path ++ "/" ++ b.

(** [os.path.join(a, *parts)] *)
Definition join (a : string) (parts : list string) : string :=
  fold_left join2 parts a.

(** [x in sys.path] *)
Definition in_path (x : string) (path : list string) : bool :=
  existsb (String.eqb x) path.

(** The message is the parenthesised literal alone: the string on the
    next source line is a statement of its own. *)
Definition CUTLASS_NOT_FOUND_MESSAGE : string :=
  "CUTLASS is not installed or found in the expected path".

Section ModuleBody.

(** [os.path.exists], and [os.path.dirname(os.path.abspath(__file__))]. *)
Variable path_exists : string -> bool.
Variable here : string.

Definition install_tvm_path : string := join here ["3rdparty"; "tvm"].
Definition develop_tvm_path : string :=
  join here [".."; ".."; "3rdparty"; "tvm"].
Definition tvm_library_path : string :=
  join here [".."; ".."; "build"; "tvm"].
Definition install_cutlass_path : string :=
  join here ["3rdparty"; "cutlass"].
Definition develop_cutlass_path : string :=
  join here [".."; ".."; "3rdparty"; "cutlass"].

(** The two statements guarded by [os.path.exists(p) and p not in
    sys.path]. *)
Definition add_tvm_tree (p : string) (st : State) : State :=
  if path_exists p && negb (in_path p (sys_path st))
  then mkState (set (environ st) "PYTHONPATH"
                    (p ++ "/python:" ++ get (environ st) "PYTHONPATH" ""))
               ((p ++ "/python") :: sys_path st)
               (warnings st)
  else st.

(** Lines 107 to 126. *)
Definition setup_tvm (st : State) : State :=
  match environ st "TVM_IMPORT_PYTHON_PATH" with
  | Some TVM_IMPORT_PYTHON_PATH =>
      mkState (set (environ st) "PYTHONPATH"
                   (TVM_IMPORT_PYTHON_PATH ++ ":"
                      ++ get (environ st) "PYTHONPATH" ""))
              ((TVM_IMPORT_PYTHON_PATH ++ "/python") :: sys_path st)
              (warnings st)
  | None =>
      let st := add_tvm_tree install_tvm_path st in
      let st := add_tvm_tree develop_tvm_path st in
      match environ st "TVM_LIBRARY_PATH" with
      | None => mkState (set (environ st) "TVM_LIBRARY_PATH"
                             tvm_library_path)
                        (sys_path st) (warnings st)
      | Some _ => st
      end
  end.

(** Lines 128 to 138. *)
Definition setup_cutlass (st : State) : State :=
  match environ st "TL_CUTLASS_PATH" with
  | None =>
      if path_exists install_cutlass_path
      then mkState (set (environ st) "TL_CUTLASS_PATH"
                        (install_cutlass_path ++ "/include"))
                   (sys_path st) (warnings st)
      else if path_exists develop_cutlass_path
              && negb (in_path develop_cutlass_path (sys_path st))
      then mkState (set (environ st) "TL_CUTLASS_PATH"
                        (develop_cutlass_path ++ "/include"))
                   (sys_path st) (warnings st)
      else mkState (environ st) (sys_path st)
                   (warnings st ++ [CUTLASS_NOT_FOUND_MESSAGE])
  | Some _ => st
  end.

(** The module body up to the loading of the library: the state it
    leaves, and whether [_load_tile_lang_lib] is called. *)
Definition module_body (st : State) : State * bool :=
  let SKIP_LOADING_TILELANG_SO :=
    get (environ st) "SKIP_LOADING_TILELANG_SO" "0" in
  let st := setup_tvm st in
  let st := setup_cutlass st in
  (st, String.eqb SKIP_LOADING_TILELANG_SO "0").

End ModuleBody.

(** The directory [here] as [os.path.join] continues it: with a
    separator, unless it is empty or ends in one. *)
Definition here_slash (here : string) : string :=
  if String.eqb here "" || endswith_slash here then here else here ++ "/".

End Bootstrap.


(* ===================================================================== *)
(** * Theorems *)
(* ===================================================================== *)

Section PyFacts.
Import Py.

Lemma traverse_total {A B} (f : A -> Exn + B) (g : A -> B) (l : list A) :
  (forall a, In a l -> f a = inr (g a)) -> traverse f l = inr (map g l).
Proof.
  induction l as [|a l IH]; intros Hf; simpl; [reflexivity|].
  rewrite (Hf a (or_introl eq_refl)), IH; [reflexivity|].
  intros b Hb. apply Hf. now right.
Qed.

Lemma getitem_nat {A} (l : list A) (i : nat) (a : A) :
  nth_error l i = Some a -> getitem l (Z.of_nat i) = inr a.
Proof.
  intros H. unfold getitem.
  assert (Hlt : i < length l) by (apply nth_error_Some; congruence).
  destruct (Z.of_nat i <? 0)%Z eqn:E; [apply Z.ltb_lt in E; lia|].
  replace ((0 <=? Z.of_nat i)%Z && (Z.of_nat i <? Z.of_nat (length l))%Z)
    with true.
  - now rewrite Nat2Z.id, H.
  - symmetry. apply andb_true_iff. split; [apply Z.leb_le|apply Z.ltb_lt]; lia.
Qed.

End PyFacts.

Section KernelLangFacts.
Import Py KernelLang.

Lemma Kernel_run blocks t prelude :
  run (Kernel blocks t prelude) =
  match normalize_threads t with
  | inl e => ([], inl e)
  | inr th => launched blocks th prelude
  end.
Proof.
  unfold run, Kernel, bind, lift, launched.
  destruct (normalize_threads t) as [e|th]; [reflexivity|].
  destruct prelude; reflexivity.
Qed.

Lemma pad_length (l : list PyVal) :
  length l <= 3 ->
  list_repeat_z (PyInt 1) (3 - Z.of_nat (length l)) =
  repeat (PyInt 1) (3 - length l).
Proof.
  intros H. unfold list_repeat_z. f_equal. lia.
Qed.

Lemma pad_empty (l : list PyVal) :
  3 < length l -> list_repeat_z (PyInt 1) (3 - Z.of_nat (length l)) = [].
Proof.
  intros H. unfold list_repeat_z.
  replace (Z.to_nat (3 - Z.of_nat (length l))) with 0 by lia. reflexivity.
Qed.

(** C9. [Kernel(blocks, threads=t, prelude=p)]: an int [t] gives block
    dimensions [[t, 1, 1]]; a list or tuple of length at most 3 is padded
    with trailing 1s to length 3, a longer one is passed through unchanged;
    any other [t] raises [ValueError] and no launch frame is constructed. *)
Theorem Kernel_threads (blocks : list PyVal) (t : PyVal)
        (prelude : option string) :
  (isinstance_int t = true ->
   run (Kernel blocks t prelude)
   = launched blocks [t; PyInt 1; PyInt 1] prelude)
  /\ (forall l, t = PyList l \/ t = PyTuple l ->
      exists th,
        run (Kernel blocks t prelude) = launched blocks th prelude
        /\ (length l <= 3 ->
            th = l ++ repeat (PyInt 1) (3 - length l) /\ length th = 3)
        /\ (3 < length l -> th = l))
  /\ (isinstance_int t = false ->
      (forall l, t <> PyList l) -> (forall l, t <> PyTuple l) ->
      exists msg,
        run (Kernel blocks t prelude) = ([], inl (ValueError msg))).
Proof.
  rewrite Kernel_run. repeat split.
  - intros Hint. unfold normalize_threads. now rewrite Hint.
  - intros l [-> | ->];
      (exists (l ++ list_repeat_z (PyInt 1) (3 - Z.of_nat (length l)));
       split; [reflexivity|]; split;
       [ intros Hle; rewrite pad_length by exact Hle; split;
         [reflexivity | rewrite length_app, repeat_length; lia]
       | intros Hgt; rewrite pad_empty by exact Hgt; apply app_nil_r ]).
  - intros Hint Hl Ht. unfold normalize_threads. rewrite Hint.
    destruct t; try (eexists; reflexivity); try discriminate.
    + exfalso. now apply (Hl items).
    + exfalso. now apply (Ht items).
Qed.

(** Witness for C9: the example's [threads=128 * 2], a two-element list, a
    four-element list, and a string. *)
Lemma Kernel_threads_witness :
  run (Kernel [PyInt 32] (PyInt 256) None)
  = launched [PyInt 32] [PyInt 256; PyInt 1; PyInt 1] None
  /\ (exists th,
        run (Kernel [PyInt 32] (PyList [PyInt 64; PyInt 2]) None)
        = launched [PyInt 32] th None
        /\ th = [PyInt 64; PyInt 2; PyInt 1])
  /\ (exists th,
        run (Kernel [] (PyList [PyInt 1; PyInt 2; PyInt 3; PyInt 4]) None)
        = launched [] th None
        /\ th = [PyInt 1; PyInt 2; PyInt 3; PyInt 4])
  /\ (exists msg,
        run (Kernel [PyInt 32] (PyStr "128") (Some "x"%string))
        = ([], inl (ValueError msg))).
Proof.
  split; [|split; [|split]].
  - apply (Kernel_threads [PyInt 32] (PyInt 256) None). reflexivity.
  - destruct (Kernel_threads [PyInt 32] (PyList [PyInt 64; PyInt 2]) None)
      as (_ & H & _).
    destruct (H [PyInt 64; PyInt 2] (or_introl eq_refl)) as (th & Hr & Hle & _).
    exists th. split; [exact Hr|]. apply Hle. simpl. lia.
  - destruct (Kernel_threads []
                (PyList [PyInt 1; PyInt 2; PyInt 3; PyInt 4]) None)
      as (_ & H & _).
    destruct (H [PyInt 1; PyInt 2; PyInt 3; PyInt 4] (or_introl eq_refl))
      as (th & Hr & _ & Hgt).
    exists th. split; [exact Hr|]. apply Hgt. simpl. lia.
  - apply (Kernel_threads [PyInt 32] (PyStr "128") (Some "x"%string));
      [reflexivity | discriminate | discriminate].
Defined.

Lemma enter_run (frames : list Frame) :
  run (KernelLaunchFrame_enter frames) =
  ([FrameEnter frames],
   if length frames =? 5
   then match getitem frames 0 with
        | inl e => inl e
        | inr f0 => match frame_iter_var_var f0 with
                    | inl e => inl e
                    | inr v => inr (OneVar v)
                    end
        end
   else match traverse frame_iter_var_var (slice_to_neg frames 4) with
        | inl e => inl e
        | inr vs => inr (VarList vs)
        end).
Proof.
  unfold run, KernelLaunchFrame_enter, bind, call, lift, ret, raise. simpl.
  destruct (length frames =? 5).
  - destruct (getitem frames 0) as [e|f0]; [reflexivity|].
    destruct (frame_iter_var_var f0); reflexivity.
  - destruct (traverse frame_iter_var_var (slice_to_neg frames 4));
      reflexivity.
Qed.

Lemma slice_launch_frames grid tx ty tz root :
  slice_to_neg (launch_frames grid tx ty tz root) 4
  = map LaunchThreadFrame grid.
Proof.
  unfold slice_to_neg, launch_frames.
  rewrite length_app, length_map. simpl.
  replace (length grid + 4 - 4) with (length (map LaunchThreadFrame grid) + 0)
    by (rewrite length_map; lia).
  rewrite firstn_app_2. simpl. apply app_nil_r.
Qed.

Lemma traverse_launch (grid : list IterVar) :
  traverse frame_iter_var_var (map LaunchThreadFrame grid)
  = inr (map var grid).
Proof.
  induction grid as [|g grid IH]; simpl; [reflexivity|].
  now rewrite IH.
Qed.

(** C10. [KernelLaunchFrame.__enter__] returns a single iteration variable,
    that of the first frame, exactly when there are 5 frames, and otherwise
    the variables of all frames but the last four; so on the documented
    frame stack a 1-dimensional grid binds one scalar and any other grid
    binds one variable per grid dimension. *)
Theorem enter_binds_grid_coordinates :
  (forall frames v,
      snd (run (KernelLaunchFrame_enter frames)) = inr (OneVar v) ->
      length frames = 5 /\ exists iv rest,
        frames = LaunchThreadFrame iv :: rest /\ v = var iv)
  /\ (forall iv rest,
      length rest = 4 ->
      run (KernelLaunchFrame_enter (LaunchThreadFrame iv :: rest))
      = ([FrameEnter (LaunchThreadFrame iv :: rest)], inr (OneVar (var iv))))
  /\ (forall frames vs,
      length frames <> 5 ->
      traverse frame_iter_var_var (slice_to_neg frames 4) = inr vs ->
      run (KernelLaunchFrame_enter frames)
      = ([FrameEnter frames], inr (VarList vs)))
  /\ (forall g tx ty tz root,
      run (KernelLaunchFrame_enter (launch_frames [g] tx ty tz root))
      = ([FrameEnter (launch_frames [g] tx ty tz root)],
         inr (OneVar (var g))))
  /\ (forall grid tx ty tz root,
      length grid <> 1 ->
      run (KernelLaunchFrame_enter (launch_frames grid tx ty tz root))
      = ([FrameEnter (launch_frames grid tx ty tz root)],
         inr (VarList (map var grid)))
      /\ length (map var grid) = length grid).
Proof.
  split; [|split; [|split; [|split]]].
  - intros frames v. rewrite enter_run. simpl.
    destruct (length frames =? 5) eqn:E.
    + apply Nat.eqb_eq in E. intros H. split; [exact E|].
      destruct frames as [|f0 rest]; [discriminate E|].
      unfold getitem in H. simpl in H.
      destruct (Z.pos (Pos.of_succ_nat (length rest))) eqn:Ez; try lia.
      simpl in H. destruct f0 as [iv|nm]; simpl in H; [|discriminate].
      exists iv, rest. split; [reflexivity|]. congruence.
    + destruct (traverse frame_iter_var_var (slice_to_neg frames 4));
        discriminate.
  - intros iv rest Hlen. rewrite enter_run. simpl length. rewrite Hlen.
    reflexivity.
  - intros frames vs Hne Hvs. rewrite enter_run.
    destruct (length frames =? 5) eqn:E;
      [apply Nat.eqb_eq in E; contradiction|].
    now rewrite Hvs.
  - intros. rewrite enter_run. reflexivity.
  - intros grid tx ty tz root Hne. split; [|apply length_map].
    rewrite enter_run.
    replace (length (launch_frames grid tx ty tz root) =? 5) with false.
    + now rewrite slice_launch_frames, traverse_launch.
    + symmetry. apply Nat.eqb_neq. unfold launch_frames.
      rewrite length_app, length_map. simpl. lia.
Qed.

End KernelLangFacts.

(** Witness for C10: the flash-attention launch binds [(bx, by, bz)], and a
    one-dimensional grid binds the scalar [bx]. *)
Lemma enter_binds_grid_coordinates_witness :
  let iv n t := KernelLang.mkIterVar (KernelLang.mkVar n) t in
  let bx := iv "bx"%string "blockIdx.x"%string in
  let by_ := iv "by"%string "blockIdx.y"%string in
  let bz := iv "bz"%string "blockIdx.z"%string in
  let tx := iv "tx"%string "threadIdx.x"%string in
  let ty := iv "ty"%string "threadIdx.y"%string in
  let tz := iv "tz"%string "threadIdx.z"%string in
  snd (Py.run (KernelLang.KernelLaunchFrame_enter
                 (KernelLang.launch_frames [bx; by_; bz] tx ty tz "root")))
  = inr (KernelLang.VarList
           [KernelLang.var bx; KernelLang.var by_; KernelLang.var bz])
  /\ length (KernelLang.launch_frames [bx] tx ty tz "root") = 5.
Proof.
  intros iv bx by_ bz tx ty tz. split.
  - destruct enter_binds_grid_coordinates as (_ & _ & _ & _ & H).
    destruct (H [bx; by_; bz] tx ty tz "root"%string) as [Hr _].
    + simpl. lia.
    + rewrite Hr. reflexivity.
  - destruct enter_binds_grid_coordinates as (H & _).
    apply (H (KernelLang.launch_frames [bx] tx ty tz "root")
             (KernelLang.var bx)).
    reflexivity.
Defined.

Section ProfilerFacts.
Import Py Profiler.

Variable params : list TensorType.
Variable result_idx : list Z.
Variable dev : nat.

Abbreviation param := (Profiler.param params).
Abbreviation place := (Profiler.place params result_idx dev).
Abbreviation allocs_of := (Profiler.allocs_of params result_idx dev).
Abbreviation inputs_needed := (Profiler.inputs_needed result_idx).
Abbreviation valid_result_idx := (Profiler.valid_result_idx params result_idx).
Abbreviation serial_of := (Profiler.serial_of result_idx).
Abbreviation args_for := (Profiler.args_for params result_idx dev).

Abbreviation is_out := (in_result_idx result_idx).

Lemma getitem_param (i : nat) :
  i < length params -> getitem params (Z.of_nat i) = inr (param i).
Proof.
  intros H. apply getitem_nat. unfold param. now apply nth_error_nth'.
Qed.

Lemma getitem_skipn (ins : list Tensor) (k : nat) a rest :
  skipn k ins = a :: rest ->
  getitem ins (Z.of_nat k) = inr a /\ skipn (k + 1) ins = rest.
Proof.
  revert ins. induction k as [|k IH]; intros ins H.
  - simpl in H. subst ins. split; reflexivity.
  - destruct ins as [|b ins]; [discriminate|]. simpl in H.
    destruct (IH ins H) as [Hg Hs]. split; [|exact Hs].
    apply getitem_nat. simpl.
    clear -H. revert ins H. induction k as [|k IHk]; intros ins H.
    + simpl in H. now subst.
    + destruct ins; [discriminate|]. simpl in *. now apply IHk.
Qed.

Lemma fill_args_place (ins : list Tensor) (idxs : list nat) :
  forall ins_idx args log,
    Forall (fun i => i < length params) idxs ->
    inputs_needed idxs + ins_idx <= length ins ->
    fill_args params result_idx dev ins idxs ins_idx args log
    = (log ++ allocs_of idxs,
       inr (args ++ place idxs (skipn ins_idx ins)
                          (length (filter is_alloc log)))).
Proof.
  induction idxs as [|i rest IH]; intros ins_idx args log Hin Hneed.
  - simpl. unfold ret, allocs_of. simpl. now rewrite !app_nil_r.
  - inversion Hin as [|? ? Hi Hrest]; subst.
    unfold inputs_needed in Hneed. simpl in Hneed.
    simpl. unfold allocs_of. simpl.
    destruct (is_out i) eqn:Eo; simpl in Hneed.
    + unfold bind at 1. unfold bind at 1. rewrite (getitem_param Hi).
      unfold lift, ret, torch_empty.
      rewrite IH; [|exact Hrest|exact Hneed].
      rewrite filter_app, length_app. simpl.
      rewrite Nat.add_1_r, <- !app_assoc. reflexivity.
    + destruct (skipn ins_idx ins) as [|a more] eqn:Es.
      * exfalso. apply (f_equal (@length _)) in Es.
        rewrite length_skipn in Es. simpl in Es. lia.
      * destruct (getitem_skipn _ _ Es) as [Hg Hs].
        unfold bind at 1. rewrite Hg. unfold lift, ret.
        rewrite IH; [|exact Hrest|unfold inputs_needed; lia].
        rewrite Hs, <- app_assoc. reflexivity.
Qed.

Lemma place_length (idxs : list nat) :
  forall ins s,
    inputs_needed idxs <= length ins ->
    length (place idxs ins s) = length idxs.
Proof.
  unfold inputs_needed.
  induction idxs as [|i rest IH]; intros ins s H; simpl in *; [reflexivity|].
  destruct (is_out i); simpl in *.
  - now rewrite IH.
  - destruct ins as [|a ins]; simpl in *; [lia|]. rewrite IH; [reflexivity|lia].
Qed.

(** The positions that are not results hold the inputs, in order. *)
Lemma place_inputs (idxs : list nat) :
  forall ins s,
    inputs_needed idxs <= length ins ->
    map snd (filter (fun p => negb (is_out (fst p)))
                    (combine idxs (place idxs ins s)))
    = firstn (inputs_needed idxs) ins.
Proof.
  unfold inputs_needed.
  induction idxs as [|i rest IH]; intros ins s H; simpl in *; [reflexivity|].
  destruct (is_out i) eqn:E; simpl in *.
  - rewrite E. simpl. now apply IH.
  - destruct ins as [|a ins]; simpl in *; [lia|].
    rewrite E. simpl. f_equal. apply IH. lia.
Qed.

(** A result position holds a tensor allocated for that parameter; its
    serial is the number of result positions before it. *)
Lemma place_outputs (idxs : list nat) :
  forall ins s j i,
    inputs_needed idxs <= length ins ->
    nth_error idxs j = Some i -> is_out i = true ->
    nth_error (place idxs ins s) j
    = Some (Allocated (s + length (filter is_out (firstn j idxs)))
                      (param i) dev).
Proof.
  unfold inputs_needed.
  induction idxs as [|i0 rest IH]; intros ins s j i H Hj Ho.
  - destruct j; discriminate.
  - simpl in H. destruct j as [|j]; simpl in Hj.
    + injection Hj as ->. simpl. rewrite Ho. simpl. f_equal. f_equal. lia.
    + simpl. destruct (is_out i0) eqn:E; simpl in *.
      * rewrite (IH ins (S s) j i H Hj Ho). f_equal. f_equal. lia.
      * destruct ins as [|a ins]; simpl in *; [lia|].
        rewrite (IH ins s j i); [reflexivity|lia|exact Hj|exact Ho].
Qed.

Lemma filter_split_length {A} (f : A -> bool) (l : list A) :
  length (filter f l) + length (filter (fun x => negb (f x)) l) = length l.
Proof.
  induction l as [|a l IH]; simpl; [reflexivity|].
  destruct (f a); simpl; lia.
Qed.

Lemma is_out_In (i : nat) : is_out i = true <-> In (Z.of_nat i) result_idx.
Proof.
  unfold in_result_idx. rewrite existsb_exists. split.
  - intros (r & Hr & E). apply Z.eqb_eq in E. now subst.
  - intros H. exists (Z.of_nat i). split; [exact H|apply Z.eqb_refl].
Qed.

Lemma outputs_count :
  valid_result_idx ->
  length (filter is_out (seq 0 (length params))) = length result_idx.
Proof.
  intros [Hnd Hrange].
  set (outs := filter is_out (seq 0 (length params))).
  assert (Hnd' : NoDup (map Z.of_nat outs)).
  { apply Injective_map_NoDup.
    - intros x y. apply Nat2Z.inj.
    - apply NoDup_filter, seq_NoDup. }
  assert (H1 : incl (map Z.of_nat outs) result_idx).
  { intros z Hz. apply in_map_iff in Hz. destruct Hz as (i & <- & Hi).
    apply filter_In in Hi. now apply is_out_In. }
  assert (H2 : incl result_idx (map Z.of_nat outs)).
  { intros r Hr. rewrite Forall_forall in Hrange. specialize (Hrange r Hr).
    apply in_map_iff. exists (Z.to_nat r). split; [lia|].
    apply filter_In. split.
    - apply in_seq. lia.
    - apply is_out_In. now rewrite Z2Nat.id by lia. }
  apply (NoDup_incl_length Hnd') in H1. apply (NoDup_incl_length Hnd) in H2.
  rewrite length_map in H1, H2. lia.
Qed.

Lemma inputs_count (ins : list Tensor) :
  valid_result_idx ->
  length ins + length result_idx = length params ->
  inputs_needed (seq 0 (length params)) = length ins.
Proof.
  intros Hv Hlen. unfold inputs_needed.
  pose proof (filter_split_length is_out (seq 0 (length params))) as H.
  rewrite outputs_count, length_seq in H by exact Hv. lia.
Qed.

Lemma serial_of_lt (r r' : Z) :
  In r result_idx -> (0 <= r < r')%Z -> serial_of r < serial_of r'.
Proof.
  intros Hin Hlt. unfold serial_of.
  replace (Z.to_nat r') with (Z.to_nat r + (Z.to_nat r' - Z.to_nat r)) by lia.
  rewrite seq_app, filter_app, length_app. simpl.
  destruct (Z.to_nat r' - Z.to_nat r) as [|d] eqn:E; [lia|].
  simpl. replace (is_out (Z.to_nat r)) with true.
  - simpl. lia.
  - symmetry. apply is_out_In. now rewrite Z2Nat.id by lia.
Qed.

Lemma firstn_seq_le (j n s : nat) :
  j <= n -> firstn j (seq s n) = seq s j.
Proof.
  revert n s. induction j as [|j IH]; intros n s H; [reflexivity|].
  destruct n as [|n]; [lia|]. simpl. f_equal. apply IH. lia.
Qed.

Lemma nth_error_seq_lt (j n s : nat) :
  j < n -> nth_error (seq s n) j = Some (s + j).
Proof.
  revert n s. induction j as [|j IH]; intros n s H;
    (destruct n as [|n]; [lia|]); simpl.
  - f_equal. lia.
  - rewrite IH by lia. f_equal. lia.
Qed.

Lemma args_for_output (ins : list Tensor) (r : Z) :
  valid_result_idx ->
  length ins + length result_idx = length params ->
  In r result_idx ->
  getitem (args_for ins) r
  = inr (Allocated (serial_of r) (param (Z.to_nat r)) dev).
Proof.
  intros Hv Hlen Hr.
  pose proof (proj2 Hv) as Hrange. rewrite Forall_forall in Hrange.
  specialize (Hrange r Hr).
  rewrite <- (Z2Nat.id r) at 1 by lia.
  apply getitem_nat. unfold args_for.
  rewrite (@place_outputs _ ins 0 (Z.to_nat r) (Z.to_nat r)).
  - rewrite firstn_seq_le by lia. reflexivity.
  - rewrite (inputs_count ins) by assumption. lia.
  - rewrite nth_error_seq_lt by lia. reflexivity.
  - apply is_out_In. now rewrite Z2Nat.id by lia.
Qed.

Lemma func_run_ok (ins : list Tensor) :
  valid_result_idx ->
  length ins + length result_idx = length params ->
  run (func params result_idx dev ins)
  = (CurrentDevice :: allocs_of (seq 0 (length params))
       ++ [TorchFunc (args_for ins)],
     match result_idx with
     | [r0] => match getitem (args_for ins) r0 with
               | inl e => inl e
               | inr t => inr (One t)
               end
     | _ => match traverse (getitem (args_for ins)) result_idx with
            | inl e => inl e
            | inr ts => inr (Many ts)
            end
     end).
Proof.
  intros Hv Hlen. unfold run, func.
  replace (length ins + length result_idx =? length params) with true
    by (symmetry; now apply Nat.eqb_eq).
  simpl. unfold bind at 1. unfold current_device, bind at 1, call, ret.
  simpl. unfold bind at 1.
  rewrite fill_args_place.
  - simpl. fold (args_for ins). unfold bind, lift, ret, raise.
    generalize (args_for ins) (allocs_of (seq 0 (length params))).
    intros args allocs.
    destruct result_idx as [|r0 [|r1 rest]] eqn:E; cbn -[getitem].
    + reflexivity.
    + change (getitem [r0] 0%Z) with (@inr Exn Z r0). cbn -[getitem].
      destruct (getitem args r0); reflexivity.
    + destruct (getitem args r0); [reflexivity|].
      destruct (getitem args r1); [reflexivity|].
      destruct (traverse (getitem args) rest); reflexivity.
  - apply Forall_forall. intros i Hi. apply in_seq in Hi. lia.
  - rewrite (inputs_count ins) by assumption. lia.
Qed.

End ProfilerFacts.

Section ConvertTorchContract.
Import Py Profiler.

(** C8, as the code has it. On a length mismatch [func] raises [ValueError]
    and nothing is called. Otherwise, when [result_idx] lists distinct
    in-range parameter positions, it allocates one fresh tensor per result
    position, puts the inputs in order at the other positions, invokes the
    kernel once on that argument vector, and returns the output tensor
    (one result) or the outputs in [result_idx] order. *)
Theorem func_contract (params : list TensorType) (result_idx : list Z)
        (dev : nat) (ins : list Tensor) :
  (length ins + length result_idx <> length params ->
   exists msg,
     run (func params result_idx dev ins) = ([], inl (ValueError msg)))
  /\ (length ins + length result_idx = length params ->
      valid_result_idx params result_idx ->
      exists allocs args outs res,
        run (func params result_idx dev ins)
        = (CurrentDevice :: allocs ++ [TorchFunc args], inr res)
        /\ Forall (fun c => is_alloc c = true) allocs
        /\ length allocs = length result_idx
        /\ kernel_calls (CurrentDevice :: allocs ++ [TorchFunc args]) = 1
        /\ length args = length params
        /\ (forall r, In r result_idx ->
            getitem args r
            = inr (Allocated (serial_of result_idx r)
                             (param params (Z.to_nat r)) dev))
        /\ (forall r r', In r result_idx -> In r' result_idx -> r <> r' ->
            serial_of result_idx r <> serial_of result_idx r')
        /\ map snd (filter (fun p => negb (in_result_idx result_idx (fst p)))
                           (combine (seq 0 (length params)) args)) = ins
        /\ traverse (getitem args) result_idx = inr outs
        /\ (length result_idx = 1 -> exists t, outs = [t] /\ res = One t)
        /\ (length result_idx <> 1 -> res = Many outs)).
Proof.
  split.
  - intros Hne. unfold run, func.
    replace (length ins + length result_idx =? length params) with false
      by (symmetry; now apply Nat.eqb_neq).
    simpl. eexists. reflexivity.
  - intros Hlen Hv.
    set (args := args_for params result_idx dev ins).
    set (out := fun r => Allocated (serial_of result_idx r)
                                   (param params (Z.to_nat r)) dev).
    assert (Hout : forall r, In r result_idx -> getitem args r = inr (out r))
      by (intros r Hr; now apply args_for_output).
    assert (Htr : traverse (getitem args) result_idx
                  = inr (map out result_idx))
      by (now apply traverse_total).
    assert (Hneed : inputs_needed result_idx (seq 0 (length params))
                    = length ins) by (now apply inputs_count).
    exists (allocs_of params result_idx dev (seq 0 (length params))),
           args, (map out result_idx),
           (match result_idx with
            | [r0] => One (out r0)
            | _ => Many (map out result_idx)
            end).
    split; [|split; [|split; [|split; [|split; [|split; [|split;
      [|split; [|split; [|split]]]]]]]]].
    + rewrite func_run_ok by assumption. fold args. f_equal.
      destruct result_idx as [|r0 [|r1 rest]] eqn:E.
      * reflexivity.
      * now rewrite (Hout r0 (or_introl eq_refl)).
      * now rewrite Htr.
    + unfold allocs_of. apply Forall_forall. intros c Hc.
      apply in_map_iff in Hc. now destruct Hc as (i & <- & _).
    + unfold allocs_of. rewrite length_map. now apply outputs_count.
    + unfold kernel_calls, allocs_of. simpl. rewrite filter_app, length_app.
      simpl.
      match goal with
      | |- length (filter ?f (map ?g ?l)) + 1 = 1 =>
          replace (filter f (map g l)) with (@nil Call); [reflexivity|]
      end.
      symmetry.
      induction (filter (in_result_idx result_idx) (seq 0 (length params)));
        simpl; auto.
    + unfold args, args_for. rewrite place_length, length_seq; [reflexivity|].
      rewrite Hneed. lia.
    + exact Hout.
    + intros r r' Hr Hr' Hne.
      pose proof (proj2 Hv) as Hrange. rewrite Forall_forall in Hrange.
      pose proof (Hrange r Hr). pose proof (Hrange r' Hr').
      destruct (Z.lt_trichotomy r r') as [Hlt|[Heq|Hgt]].
      * pose proof (@serial_of_lt result_idx r r' Hr). lia.
      * contradiction.
      * pose proof (@serial_of_lt result_idx r' r Hr'). lia.
    + unfold args, args_for. rewrite place_inputs by (rewrite Hneed; lia).
      rewrite Hneed. apply firstn_all.
    + exact Htr.
    + intros H1. destruct result_idx as [|r0 [|r1 rest]]; try discriminate.
      exists (out r0). split; reflexivity.
    + intros H1. destruct result_idx as [|r0 [|r1 rest]]; try reflexivity.
      now elim H1.
Qed.

(** Witness for C8: the example's call with inputs [Q, K, V]. *)
Lemma func_contract_witness :
  exists allocs args res,
    run (func Flashattn.mha_params [3%Z] 0 [Given 0; Given 1; Given 2])
    = (CurrentDevice :: allocs ++ [TorchFunc args], inr res)
    /\ length args = 4
    /\ exists t, res = One t.
Proof.
  destruct (func_contract Flashattn.mha_params [3%Z] 0 [Given 0; Given 1; Given 2])
    as [_ H].
  destruct H as (allocs & args & outs & res & Hrun & _ & _ & _ & Hlen & _
                 & _ & _ & _ & Hone & _).
  - reflexivity.
  - split.
    + constructor; [intros []|constructor].
    + repeat constructor; simpl; lia.
  - exists allocs, args, res. split; [exact Hrun|]. split; [exact Hlen|].
    destruct (Hone eq_refl) as (t & _ & Ht). now exists t.
Defined.

(** C8 as stated fails when [result_idx] repeats a position: the length
    check passes, the loop runs out of inputs, [IndexError] is raised and
    the kernel is never invoked. *)
Lemma func_repeated_result_idx :
  let params := [Flashattn.float16 [8%Z]; Flashattn.float16 [8%Z];
                 Flashattn.float16 [8%Z]] in
  let result_idx := [2%Z; 2%Z] in
  let ins := [Given 0] in
  length ins + length result_idx = length params
  /\ run (func params result_idx 0 ins) = ([CurrentDevice], inl IndexError)
  /\ kernel_calls (fst (run (func params result_idx 0 ins))) = 0.
Proof.
  repeat split.
Qed.

End ConvertTorchContract.

Section FlashattnFacts.
Import Flashattn.
Local Open Scope Z_scope.

(** [ceildiv] rounds the quotient up. *)
Lemma ceildiv_spec (a b : Z) :
  0 < b -> (ceildiv a b - 1) * b < a <= ceildiv a b * b.
Proof.
  intros Hb. unfold ceildiv.
  pose proof (Z.div_mod (a + b - 1) b ltac:(lia)) as Hdm.
  pose proof (Z.mod_pos_bound (a + b - 1) b Hb) as Hm.
  nia.
Qed.

(** C5. The trip count of the pipelined loop depends on the block
    coordinate: with causal masking it is
    [min(ceildiv(seq_len, block_N), ceildiv((bx+1)*block_M, block_N))], so
    two blocks of one launch can run different numbers of iterations;
    without masking it is [ceildiv(seq_len, block_N)] for every block. *)
Theorem loop_range_by_coordinate :
  (forall seq_len block_M block_N bx,
      loop_range seq_len block_M block_N true bx
      = Z.min (ceildiv seq_len block_N)
              (ceildiv ((bx + 1) * block_M) block_N))
  /\ (exists seq_len block_M block_N bx bx',
         0 <= bx < grid_x seq_len block_M
         /\ 0 <= bx' < grid_x seq_len block_M
         /\ loop_range seq_len block_M block_N true bx
            <> loop_range seq_len block_M block_N true bx')
  /\ (forall seq_len block_M block_N bx bx',
         loop_range seq_len block_M block_N false bx
         = ceildiv seq_len block_N
         /\ loop_range seq_len block_M block_N false bx
            = loop_range seq_len block_M block_N false bx').
Proof.
  split; [|split].
  - reflexivity.
  - exists 4096, 128, 176, 0, 31. vm_compute. repeat split; discriminate.
  - intros. split; reflexivity.
Qed.

(** The hint arrays of [T.Pipelined]: six groups over the fourteen
    instructions of the loop body, an order and a stage entry per group, two
    synchronisation pairs. *)
Example pipelined_hints_shape :
  length order_hint = 6%nat /\ length stage_hint = 6%nat
  /\ length group_hint = 6%nat /\ concat group_hint = seq 0 14
  /\ length sync_hint = 2%nat
  /\ map stage_of_group (seq 0 6)
     = [None; Some 0; Some 0; Some 1; None; Some 1].
Proof. repeat split. Qed.

(** The example's launch: the first block runs one iteration, the last
    block all 24. *)
Example loop_range_first_last :
  loop_range 4096 128 176 true 0 = 1 /\ loop_range 4096 128 176 true 31 = 24.
Proof. split; reflexivity. Qed.



End FlashattnFacts.

(* --------------------------------------------------------------------- *)
(** ** The ramp/drain generator *)
(* --------------------------------------------------------------------- *)

Section ListFacts.

Context {A B C : Type}.

Lemma flat_map_flat_map (f : A -> list B) (g : B -> list C) (l : list A) :
  flat_map g (flat_map f l) = flat_map (fun x => flat_map g (f x)) l.
Proof.
  induction l as [|x l IH]; simpl; [reflexivity|].
  now rewrite flat_map_app, IH.
Qed.

Lemma flat_map_nil_ext (f : A -> list B) (l : list A) :
  (forall x, In x l -> f x = []) -> flat_map f l = [].
Proof.
  induction l as [|x l IH]; intros H; simpl; [reflexivity|].
  rewrite (H x (or_introl eq_refl)), IH; [reflexivity|].
  intros y Hy. apply H. now right.
Qed.

Lemma flat_map_singleton_ext (f : A -> list B) (g : A -> B) (l : list A) :
  (forall x, In x l -> f x = [g x]) -> flat_map f l = map g l.
Proof.
  induction l as [|x l IH]; intros H; simpl; [reflexivity|].
  rewrite (H x (or_introl eq_refl)), IH; [reflexivity|].
  intros y Hy. apply H. now right.
Qed.

Lemma flat_map_step (f : A -> list B) (x : A) (l : list A) :
  flat_map f (x :: l) = f x ++ flat_map f l.
Proof. reflexivity. Qed.

Lemma concat_map_flat_map (f : A -> list B) (l : list A) :
  concat (map f l) = flat_map f l.
Proof. symmetry. apply flat_map_concat_map. Qed.

End ListFacts.

Import Pipeline.








Section MoreListFacts.

Context {A B : Type}.


Lemma map_flat_map {C} (g : B -> C) (f : A -> list B) (l : list A) :
  map g (flat_map f l) = flat_map (fun x => map g (f x)) l.
Proof.
  induction l as [|x l IH]; simpl; [reflexivity|].
  now rewrite map_app, IH.
Qed.

Lemma filter_none (p : A -> bool) (l : list A) :
  (forall x, In x l -> p x = false) -> filter p l = [].
Proof.
  induction l as [|x l IH]; intros H; simpl; [reflexivity|].
  rewrite (H x (or_introl eq_refl)). apply IH.
  intros y Hy. apply H. now right.
Qed.

Lemma filter_all (p : A -> bool) (l : list A) :
  (forall x, In x l -> p x = true) -> filter p l = l.
Proof.
  induction l as [|x l IH]; intros H; simpl; [reflexivity|].
  rewrite (H x (or_introl eq_refl)). f_equal. apply IH.
  intros y Hy. apply H. now right.
Qed.


Lemma filter_map_swap (p : B -> bool) (f : A -> B) (l : list A) :
  filter p (map f l) = map f (filter (fun x => p (f x)) l).
Proof.
  induction l as [|x l IH]; simpl; [reflexivity|].
  destruct (p (f x)); simpl; now rewrite IH.
Qed.


End MoreListFacts.


Lemma active_spec (N g t : nat) :
  Pipeline.active N g t = true <-> g <= t < g + N.
Proof.
  unfold Pipeline.active. rewrite andb_true_iff, Nat.leb_le, Nat.ltb_lt.
  reflexivity.
Qed.


Section GeneratorFacts.
Import Pipeline.

Variable reg : Registry.
Variable d : nat.

Abbreviation body_of := (Pipeline.body_of reg d).

Lemma ops_app (l r : list Event) : ops (l ++ r) = ops l ++ ops r.
Proof. apply flat_map_app. Qed.

Lemma ops_instance (a : Annotated) (n : nat) :
  ops (instance reg d a n) = [(index a, n)].
Proof.
  unfold instance. rewrite !ops_app. unfold ops at 1 3.
  rewrite !flat_map_nil_ext.
  - reflexivity.
  - intros ev Hev. apply in_map_iff in Hev. now destruct Hev as (k & <- & _).
  - intros ev Hev. apply in_map_iff in Hev. now destruct Hev as (k & <- & _).
Qed.


Lemma ops_body_of g l N t :
  ops (body_of g l N t)
  = map (fun a => (index a, t - g a)) (filter (fun a => active N (g a) t) l).
Proof.
  induction l as [|a l IH]; simpl; [reflexivity|].
  unfold body_of in *. simpl. rewrite ops_app, IH.
  destruct (active N (g a) t); simpl; [|reflexivity].
  now rewrite ops_instance.
Qed.

Lemma ops_body sched N t :
  ops (body reg d sched N t)
  = map (fun a => (index a, t - lag sched a))
        (filter (fun a => active N (lag sched a) t) sched).
Proof. apply (ops_body_of (lag sched) sched N t). Qed.

Lemma lag_le_max sched (a : Annotated) :
  In a sched -> lag sched a <= max_lag sched.
Proof.
  unfold max_lag. generalize (lag sched). intros g.
  induction sched as [|b l IH]; intros Hin; [contradiction|].
  simpl. destruct Hin as [->|Hin]; [lia|]. specialize (IH Hin). lia.
Qed.

Lemma stream_generate sched N :
  0 < N ->
  stream (generate reg d sched N)
  = flat_map (body reg d sched N) (seq 0 (N + max_lag sched)).
Proof.
  intros HN. unfold stream, generate.
  destruct (Nat.eqb_spec N 0) as [->|_]; [lia|]. simpl.
  rewrite <- !map_app, concat_map_flat_map. f_equal.
  destruct (Nat.le_ge_cases (max_lag sched) N) as [Hle|Hge].
  - rewrite Nat.min_l by exact Hle.
    replace (N + max_lag sched)
      with (max_lag sched + ((N - max_lag sched) + max_lag sched)) by lia.
    rewrite seq_app, seq_app. simpl.
    now replace (max_lag sched + (N - max_lag sched)) with N by lia.
  - rewrite Nat.min_r by exact Hge.
    replace (N - max_lag sched) with 0 by lia. simpl.
    now rewrite seq_app.
Qed.

Lemma stream_zero sched : stream (generate reg d sched 0) = [].
Proof. reflexivity. Qed.



End GeneratorFacts.

(* --------------------------------------------------------------------- *)
(** ** What a successful construction guarantees *)
(* --------------------------------------------------------------------- *)

Section ConstructFacts.
Import Pipeline.





Lemma mem_In (i : nat) (l : list nat) : mem i l = true <-> In i l.
Proof.
  unfold mem. rewrite existsb_exists. split.
  - intros (y & Hy & E). apply Nat.eqb_eq in E. now subst.
  - intros H. exists i. split; [exact H|apply Nat.eqb_refl].
Qed.

Lemma is_permutation_spec n order :
  is_permutation n order = true ->
  NoDup order /\ length order = n /\ forall i, In i order <-> i < n.
Proof.
  unfold is_permutation. rewrite andb_true_iff, Nat.eqb_eq, forallb_forall.
  intros [Hlen Hall].
  assert (Hincl : incl (seq 0 n) order)
    by (intros i Hi; apply mem_In, Hall, Hi).
  assert (Hle : length order <= length (seq 0 n))
    by (rewrite length_seq; lia).
  split; [|split; [exact Hlen|]].
  - exact (NoDup_incl_NoDup (seq_NoDup n 0) Hle Hincl).
  - intros i. split.
    + intros Hi.
      pose proof (NoDup_length_incl (seq_NoDup n 0) Hle Hincl i Hi) as H.
      apply in_seq in H. lia.
    + intros Hi. apply Hincl, in_seq. lia.
Qed.

Lemma plan_inv h stages edges order :
  plan h stages edges = inr order ->
  is_permutation (length stages) order = true
  /\ forallb (edge_ok (offset_of h stages edges) order) edges = true
  /\ forallb (group_ok stages order) (h_group h) = true.
Proof.
  unfold plan, plan_from.
  destruct (negb (length (topo _ _ _ _ _) =? length stages));
    [discriminate|].
  destruct (match h_order h with
            | Some ids => resolve stages ids
            | None => _
            end) as [o|]; [|discriminate].
  destruct (is_permutation (length stages) o
            && forallb (edge_ok (offset_of h stages edges) o) edges
            && forallb (group_ok stages o) (h_group h)) eqn:E;
    [|discriminate].
  intros H. injection H as <-.
  apply andb_true_iff in E. destruct E as [E E3].
  apply andb_true_iff in E. destruct E as [E1 E2]. auto.
Qed.



Lemma construct_inv inp out :
  construct inp = inr out ->
  let edges := build_graph (i_registry inp) (i_stages inp) in
  let off := offset_of (i_hints inp) (i_stages inp) edges in
  o_edges out = edges
  /\ plan (i_hints inp) (i_stages inp) edges = inr (o_order out)
  /\ insert_sync (i_config inp) (i_registry inp) (i_hints inp)
                 (i_stages inp) edges = inr (o_classes out)
  /\ o_schedule out
     = schedule_of (o_classes out) off (i_stages inp) (o_order out)
  /\ o_phases out
     = generate (i_registry inp) (depth (i_config inp)) (o_schedule out)
                (i_trip_count inp).
Proof.
  unfold construct, construct_from. fold (plan (i_hints inp) (i_stages inp)
    (build_graph (i_registry inp) (i_stages inp))). intros H.
  destruct (plan _ _ _) as [e|order]; [discriminate|].
  destruct (insert_sync _ _ _ _ _) as [e|cs]; [discriminate|].
  injection H as <-. simpl. repeat split.
Qed.



End ConstructFacts.



Section DependencyPreservation.
Import Pipeline.

Variable inp : Input.
Variable out : Output.
Hypothesis Hok : construct inp = inr out.

Let reg := i_registry inp.
Let d := depth (i_config inp).
Let N := i_trip_count inp.
Let sched := o_schedule out.
Let off := offset_of (i_hints inp) (i_stages inp) (o_edges out).
Let mk := fun i => annotate (o_classes out) (plan_stage off (i_stages inp) i).

Lemma sched_eq : sched = map mk (o_order out).
Proof.
  destruct (construct_inv inp Hok) as (He & _ & _ & Hs & _).
  unfold sched, mk, off. rewrite He. exact Hs.
Qed.

Lemma order_perm :
  NoDup (o_order out)
  /\ length (o_order out) = length (i_stages inp)
  /\ forall i, In i (o_order out) <-> i < length (i_stages inp).
Proof.
  destruct (construct_inv inp Hok) as (_ & Hp & _).
  apply plan_inv in Hp. destruct Hp as (Hp & _).
  now apply is_permutation_spec.
Qed.






Lemma mk_in_sched i : i < length (i_stages inp) -> In (mk i) sched.
Proof.
  intros Hi. rewrite sched_eq. apply in_map. now apply order_perm.
Qed.






End DependencyPreservation.

Section StreamEvents.
Import Pipeline.




End StreamEvents.

Section TripCountBoundary.
Import Pipeline.



End TripCountBoundary.

Lemma seq_from (s n : nat) : seq s n = map (fun i => s + i) (seq 0 n).
Proof.
  revert s. induction n as [|n IH]; intros s; simpl; [reflexivity|].
  f_equal; [lia|].
  rewrite <- (seq_shift n 0), map_map, (IH (S s)).
  apply map_ext. intros i. lia.
Qed.


Section LoopStructure.
Import Pipeline.

Variable reg : Registry.
Variable d : nat.
Variable sched : list Annotated.
Variable N : nat.

Let L := max_lag sched.
Hypothesis HL : L <= N.

(** The [k]-th prologue body runs the stages whose lag is at most [k]. *)
Lemma ops_ramp_body (k : nat) :
  k < L ->
  ops (body reg d sched N k)
  = map (fun a => (index a, k - lag sched a))
        (filter (fun a => lag sched a <=? k) sched).
Proof.
  intros Hk. rewrite ops_body. f_equal. apply filter_ext_in. intros a Ha.
  unfold active.
  replace (k <? lag sched a + N) with true
    by (symmetry; apply Nat.ltb_lt; lia).
  apply andb_true_r.
Qed.

(** The [i]-th steady body runs the full schedule, every stage as far ahead
    of [i] as its lane leads. *)
Lemma ops_steady_body (i : nat) :
  i < N - L ->
  ops (body reg d sched N (L + i))
  = map (fun a => (index a, i + (L - lag sched a))) sched.
Proof.
  intros Hi. rewrite ops_body, filter_all.
  - apply map_ext_in. intros a Ha.
    pose proof (lag_le_max sched a Ha). fold L in H. f_equal. lia.
  - intros a Ha. pose proof (lag_le_max sched a Ha). fold L in H.
    apply active_spec. lia.
Qed.

(** The [k]-th epilogue body drains the stages whose lag exceeds [k]. *)
Lemma ops_drain_body (k : nat) :
  ops (body reg d sched N (N + k))
  = map (fun a => (index a, N + k - lag sched a))
        (filter (fun a => k <? lag sched a) sched).
Proof.
  rewrite ops_body. f_equal. apply filter_ext_in. intros a Ha.
  pose proof (lag_le_max sched a Ha). fold L in H. unfold active.
  replace (lag sched a <=? N + k) with true
    by (symmetry; apply Nat.leb_le; lia).
  simpl. destruct (Nat.ltb_spec (N + k) (lag sched a + N));
    destruct (Nat.ltb_spec k (lag sched a)); try reflexivity; lia.
Qed.

End LoopStructure.

Section LoopStructureTheorem.
Import Pipeline.


End LoopStructureTheorem.

Section AttentionSchedule.
Import Pipeline.



End AttentionSchedule.

Section Scenario.
Import Pipeline.


End Scenario.

Section PersistentBuffers.
Import Pipeline.






End PersistentBuffers.

Section Determinism.
Import Pipeline.

Variable off : nat -> Z.
Variable edges : list Edge.
Variable n : nat.






End Determinism.

Section ConstructionDeterminism.
Import Pipeline.





End ConstructionDeterminism.

Section ScheduleComment.
Import Pipeline.

Lemma via_rows (F : nat -> nat) (P : nat -> bool) (sched : list Annotated) :
  map (fun a => (index a, F (lag sched a)))
      (filter (fun a => P (lag sched a)) sched)
  = map (fun r => (fst r, F (snd r)))
        (filter (fun r => P (snd r)) (rows sched)).
Proof. unfold rows. now rewrite filter_map_swap, map_map. Qed.

Lemma via_rows_all (F : nat -> nat) (sched : list Annotated) :
  map (fun a => (index a, F (lag sched a))) sched
  = map (fun r => (fst r, F (snd r))) (rows sched).
Proof. unfold rows. now rewrite map_map. Qed.

(** In the attention kernel the K copy leads, the first GEMM, the softmax
    and the V copy follow one body later, the second GEMM two. *)
Lemma mha_rows : rows mha_schedule = [(1, 1); (4, 2); (0, 0); (2, 1); (3, 1)].
Proof. reflexivity. Qed.

Lemma flat_map_map_in {A B C} (f : B -> list C) (g : A -> B) (l : list A) :
  flat_map f (map g l) = flat_map (fun x => f (g x)) l.
Proof.
  induction l as [|x l IH]; simpl; [reflexivity|]. now rewrite IH.
Qed.

Lemma mha_construct (N : nat) :
  exists out,
    construct (mha N) = inr out
    /\ o_phases out = generate mha_registry 2 mha_schedule N.
Proof.
  eexists. split; [|].
  - unfold construct, construct_from. simpl i_stages. simpl i_registry.
    simpl i_hints. simpl i_config. simpl i_trip_count.
    match goal with
    | |- match ?p with _ => _ end = _ =>
        let v := eval vm_compute in p in change p with v
    end.
    cbv beta iota.
    match goal with
    | |- match ?p with _ => _ end = _ =>
        let v := eval vm_compute in p in change p with v
    end.
    cbv beta iota. reflexivity.
  - simpl. f_equal.
Qed.

End ScheduleComment.

Section ScheduleCommentTheorem.
Import Pipeline.

Lemma flat_map_ext_on {A B} (f g : A -> list B) (l : list A) :
  (forall x, In x l -> f x = g x) -> flat_map f l = flat_map g l.
Proof.
  induction l as [|x l IH]; intros H; simpl; [reflexivity|].
  rewrite (H x (or_introl eq_refl)), IH; [reflexivity|].
  intros y Hy. apply H. now right.
Qed.

Lemma ops_flat_map {A} (f : A -> list Event) (l : list A) :
  ops (flat_map f l) = flat_map (fun x => ops (f x)) l.
Proof. unfold ops at 1. now rewrite flat_map_flat_map. Qed.

(** The loop generated for the attention kernel is the one of the schedule
    comment in the source, for every trip count of at least 2. *)
Lemma schedule_comment_generated (N : nat) :
  2 <= N ->
  map instr_of (ops (stream (generate mha_registry 2 mha_schedule N)))
  = Flashattn.schedule (Z.of_nat N).
Proof.
  intros HN.
  assert (HL : max_lag mha_schedule <= N) by exact HN.
  rewrite stream_generate by lia.
  change (max_lag mha_schedule) with 2.
  rewrite ops_flat_map.
  replace (N + 2) with (2 + ((N - 2) + 2)) by lia.
  rewrite (seq_app 2), (seq_app (N - 2)).
  replace (0 + 2 + (N - 2)) with N by lia.
  rewrite (seq_from (0 + 2) (N - 2)), (seq_from N 2).
  rewrite !flat_map_app, !flat_map_map_in, !map_app.
  unfold Flashattn.schedule. f_equal; [|f_equal].
  - change (seq 0 2) with [0; 1]. rewrite !flat_map_step.
    rewrite (@ops_ramp_body mha_registry 2 mha_schedule N HL 0),
            (@ops_ramp_body mha_registry 2 mha_schedule N HL 1)
      by (change (max_lag mha_schedule) with 2; lia).
    rewrite (via_rows (fun g => 0 - g) (fun g => g <=? 0)),
            (via_rows (fun g => 1 - g) (fun g => g <=? 1)), mha_rows.
    reflexivity.
  - unfold Flashattn.steady_trips, Flashattn.range.
    replace (Z.to_nat (Z.of_nat N - 2)) with (N - 2) by lia.
    rewrite flat_map_map_in, map_flat_map.
    apply flat_map_ext_on. intros i Hi. apply in_seq in Hi.
    change (0 + 2 + i) with (max_lag mha_schedule + i).
    rewrite (@ops_steady_body mha_registry 2 mha_schedule N HL i)
      by (change (max_lag mha_schedule) with 2; lia).
    rewrite (via_rows_all (fun g => i + (max_lag mha_schedule - g))),
            mha_rows.
    change (max_lag mha_schedule) with 2.
    unfold Flashattn.steady, instr_of. simpl.
    repeat (f_equal; try lia).
  - change (seq 0 2) with [0; 1]. rewrite !flat_map_step.
    rewrite (@ops_drain_body mha_registry 2 mha_schedule N HL 0),
            (@ops_drain_body mha_registry 2 mha_schedule N HL 1).
    rewrite (via_rows (fun g => N + 0 - g) (fun g => 0 <? g)),
            (via_rows (fun g => N + 1 - g) (fun g => 1 <? g)), mha_rows.
    unfold Flashattn.epilogue, instr_of. simpl.
    repeat (f_equal; try lia).
Qed.

(** So the construction for the example succeeds at every trip count of at
    least 2, and its stream is the schedule comment. *)
Lemma attention_loop_is_schedule_comment (N : nat) :
  2 <= N ->
  exists out,
    construct (mha N) = inr out
    /\ map instr_of (ops (stream (o_phases out)))
       = Flashattn.schedule (Z.of_nat N).
Proof.
  intros HN. destruct (mha_construct N) as (out & Hc & Hph).
  exists out. split; [exact Hc|]. rewrite Hph.
  now apply schedule_comment_generated.
Qed.

End ScheduleCommentTheorem.

(* --------------------------------------------------------------------- *)
(** ** The attention loop: trip count, causal mask and tiles *)
(* --------------------------------------------------------------------- *)

Section AttentionLoop.
Import Flashattn FlashattnKernel.
Local Open Scope Z_scope.

Lemma ceildiv_mono (a a' b : Z) :
  0 < b -> a <= a' -> ceildiv a b <= ceildiv a' b.
Proof.
  intros Hb Ha. unfold ceildiv. apply Z.div_le_mono; lia.
Qed.

Lemma ceildiv_pos (a b : Z) : 0 < b -> 0 < a -> 1 <= ceildiv a b.
Proof.
  intros Hb Ha. pose proof (ceildiv_spec a Hb). nia.
Qed.

Lemma ceildiv_ge (a b q : Z) : 0 < b -> a <= q * b -> ceildiv a b <= q.
Proof.
  intros Hb Ha. pose proof (ceildiv_spec a Hb). nia.
Qed.

Lemma ceildiv_lt (a b q : Z) : 0 < b -> q * b < a -> q < ceildiv a b.
Proof.
  intros Hb Ha. pose proof (ceildiv_spec a Hb). nia.
Qed.

(** Over the unbounded integers. The trip count never exceeds the number of K tiles,
    [ceildiv(seq_len, block_N)]; with causal masking it grows with the
    block coordinate and is at least 1 for a non-empty sequence. *)
Lemma loop_range_bounds_Z (seq_len block_M block_N : Z) (is_casual : bool)
        (bx bx' : Z) :
  0 < block_M -> 0 < block_N -> 0 <= bx <= bx' ->
  loop_range seq_len block_M block_N is_casual bx
  <= ceildiv seq_len block_N
  /\ loop_range seq_len block_M block_N is_casual bx
     <= loop_range seq_len block_M block_N is_casual bx'
  /\ (0 < seq_len ->
      1 <= loop_range seq_len block_M block_N is_casual bx).
Proof.
  intros HM HN Hbx. unfold loop_range. destruct is_casual.
  - assert (Hm : ceildiv ((bx + 1) * block_M) block_N
                 <= ceildiv ((bx' + 1) * block_M) block_N)
      by (apply ceildiv_mono; nia).
    assert (H1 : 1 <= ceildiv ((bx + 1) * block_M) block_N)
      by (apply ceildiv_pos; nia).
    split; [lia|]. split; [lia|].
    intros Hs. pose proof (ceildiv_pos HN Hs). lia.
  - split; [lia|]. split; [lia|]. intros Hs. now apply ceildiv_pos.
Qed.


(** Over the unbounded integers. The last block of the launch grid, [bx = ceildiv(seq_len, block_M)
    - 1], runs over all K tiles even with causal masking. *)
Lemma last_block_runs_all_tiles_Z (seq_len block_M block_N : Z) :
  0 < block_M -> 0 < block_N -> 0 < seq_len ->
  loop_range seq_len block_M block_N true (grid_x seq_len block_M - 1)
  = ceildiv seq_len block_N.
Proof.
  intros HM HN Hs. unfold loop_range, grid_x.
  replace (ceildiv seq_len block_M - 1 + 1) with (ceildiv seq_len block_M)
    by lia.
  apply Z.min_l. apply ceildiv_mono; [exact HN|].
  pose proof (ceildiv_spec seq_len HM). lia.
Qed.


(** Over the unbounded integers. The causal loop bound skips only tiles that the mask would blank
    completely: from tile [ceildiv((bx+1) * block_M, block_N)] on, every
    entry of [acc_s] would be initialised to [-inf]. *)
Lemma skipped_tiles_fully_masked_Z (block_M block_N bx k i j : Z) :
  0 < block_N -> 0 <= i < block_M -> 0 <= j ->
  ceildiv ((bx + 1) * block_M) block_N <= k ->
  MMA0_init block_M block_N true bx k i j = neg_infinity.
Proof.
  intros HN Hi Hj Hk. unfold MMA0_init.
  pose proof (ceildiv_spec ((bx + 1) * block_M) HN) as Hc.
  destruct (Z.geb_spec (bx * block_M + i) (k * block_N + j)) as [H|H];
    [|reflexivity].
  exfalso. nia.
Qed.


(** Over the unbounded integers. The loop visits every key a query of the block may attend to: a key
    position [kv < seq_len] with [kv <= bx * block_M + i] lies in a tile
    below the trip count, and is left unmasked there. Without causal
    masking every key position below [seq_len] lies in a visited tile. *)
Lemma visited_tiles_cover_keys_Z (seq_len block_M block_N bx i kv : Z) :
  0 < block_M -> 0 < block_N -> 0 <= i < block_M -> 0 <= kv < seq_len ->
  (kv <= bx * block_M + i ->
   0 <= kv / block_N < loop_range seq_len block_M block_N true bx
   /\ MMA0_init block_M block_N true bx (kv / block_N) i (kv mod block_N)
      = zero)
  /\ 0 <= kv / block_N < loop_range seq_len block_M block_N false bx.
Proof.
  intros HM HN Hi Hkv.
  pose proof (Z.div_mod kv block_N ltac:(lia)) as Hdm.
  pose proof (Z.mod_pos_bound kv block_N HN) as Hmod.
  assert (Hq : 0 <= kv / block_N) by (apply Z.div_pos; lia).
  assert (Hs : kv / block_N < ceildiv seq_len block_N)
    by (apply ceildiv_lt; [exact HN|nia]).
  split.
  - intros Hvis. split.
    + split; [exact Hq|]. unfold loop_range. apply Z.min_glb_lt; [exact Hs|].
      apply ceildiv_lt; [exact HN|nia].
    + unfold MMA0_init.
      destruct (Z.geb_spec (bx * block_M + i)
                  (kv / block_N * block_N + kv mod block_N)) as [H|H];
        [reflexivity|exfalso; nia].
  - split; [exact Hq|exact Hs].
Qed.


(** X5. No visited tile is blanked completely, and in the first tile no row
    is: entry [(i, 0)] of tile 0 is unmasked for every row [i], and entry
    [(block_M - 1, 0)] of every visited tile is unmasked. *)
Theorem visited_tiles_not_blank (seq_len block_M block_N bx k i : Z) :
  0 < block_M -> 0 < block_N -> 0 <= bx -> 0 <= i ->
  MMA0_init block_M block_N true bx 0 i 0 = zero
  /\ (0 <= k < loop_range seq_len block_M block_N true bx ->
      MMA0_init block_M block_N true bx k (block_M - 1) 0 = zero).
Proof.
  intros HM HN Hbx Hi. unfold MMA0_init. split.
  - destruct (Z.geb_spec (bx * block_M + i) (0 * block_N + 0)) as [H|H];
      [reflexivity|exfalso; nia].
  - intros Hk. unfold loop_range in Hk.
    pose proof (ceildiv_spec ((bx + 1) * block_M) HN) as Hc.
    destruct (Z.geb_spec (bx * block_M + (block_M - 1)) (k * block_N + 0))
      as [H|H]; [reflexivity|exfalso; nia].
Qed.

Lemma visited_tiles_not_blank_witness :
  MMA0_init 128 176 true 3 0 5 0 = zero
  /\ MMA0_init 128 176 true 3 2 (128 - 1) 0 = zero.
Proof.
  destruct (@visited_tiles_not_blank 4096 128 176 3 2 5
              ltac:(lia) ltac:(lia) ltac:(lia) ltac:(lia)) as [H1 H2].
  split; [exact H1|]. apply H2. vm_compute. intuition discriminate.
Defined.

(** Over the unbounded integers. Every K/V tile the loop copies starts inside the sequence, but the
    last one ends exactly at [seq_len] only when [block_N] divides
    [seq_len]; otherwise its slice runs past the end of [K] and [V]. *)
Lemma last_tile_overrun_Z (seq_len block_M block_N bx k : Z)
        (is_casual : bool) :
  0 < block_M -> 0 < block_N -> 0 < seq_len ->
  (0 <= k < loop_range seq_len block_M block_N is_casual bx ->
   0 <= fst (kv_slice block_N k) < seq_len)
  /\ (let last := ceildiv seq_len block_N - 1 in
      seq_len <= snd (kv_slice block_N last)
      /\ (snd (kv_slice block_N last) = seq_len
          <-> seq_len mod block_N = 0)).
Proof.
  intros HM HN Hs. pose proof (ceildiv_spec seq_len HN) as Hc. split.
  - intros Hk. unfold kv_slice. simpl.
    assert (Hle : loop_range seq_len block_M block_N is_casual bx
                  <= ceildiv seq_len block_N).
    { unfold loop_range. destruct is_casual; lia. }
    nia.
  - unfold kv_slice. simpl.
    replace (ceildiv seq_len block_N - 1 + 1) with (ceildiv seq_len block_N)
      by lia.
    split; [lia|]. split.
    + intros E. rewrite <- E. apply Z.mod_mul. lia.
    + intros E. apply Z.div_exact in E; [|lia].
      assert (Hq : ceildiv seq_len block_N = seq_len / block_N).
      { unfold ceildiv.
        replace (seq_len + block_N - 1)
          with ((block_N - 1) + (seq_len / block_N) * block_N) by lia.
        rewrite Z.div_add by lia. rewrite Z.div_small by lia. lia. }
      rewrite Hq. lia.
Qed.


(** The example of the source runs with [block_N = 176], which does not
    divide [seq_len = 4096]: its last tile covers the rows 4048 to 4223. *)
Example example_last_tile :
  kv_slice 176 (loop_range 4096 128 176 false 0 - 1) = (4048, 4224).
Proof. reflexivity. Qed.

End AttentionLoop.

(* --------------------------------------------------------------------- *)
(** ** The conversion wrapper: every outcome, and successive calls *)
(* --------------------------------------------------------------------- *)

Section WrapperOutcomes.
Import Py Profiler.

Variable params : list TensorType.
Variable result_idx : list Z.
Variable dev : nat.

Abbreviation is_out := (in_result_idx result_idx).
Abbreviation valid := (valid_result_idx params result_idx).
Abbreviation outs := (filter is_out (seq 0 (length params))).

(** There are at most [len(result_idx)] result positions, and exactly that
    many only when [result_idx] lists distinct positions in range. *)
Lemma outputs_count_le :
  length outs <= length result_idx
  /\ (length outs = length result_idx -> valid).
Proof.
  assert (Hnd : NoDup (map Z.of_nat outs)).
  { apply Injective_map_NoDup.
    - intros x y. apply Nat2Z.inj.
    - apply NoDup_filter, seq_NoDup. }
  assert (Hincl : incl (map Z.of_nat outs) result_idx).
  { intros z Hz. apply in_map_iff in Hz. destruct Hz as (i & <- & Hi).
    apply filter_In in Hi. now apply is_out_In. }
  pose proof (NoDup_incl_length Hnd Hincl) as Hle.
  rewrite length_map in Hle. split; [exact Hle|].
  intros E.
  assert (Hle' : length result_idx <= length (map Z.of_nat outs))
    by (rewrite length_map; lia).
  split.
  - exact (NoDup_incl_NoDup Hnd Hle' Hincl).
  - apply Forall_forall. intros r Hr.
    pose proof (NoDup_length_incl Hnd Hle' Hincl r Hr) as Hin.
    apply in_map_iff in Hin. destruct Hin as (i & <- & Hi).
    apply filter_In in Hi. destruct Hi as [Hi _]. apply in_seq in Hi. lia.
Qed.

(** With too few inputs the loop stops at the first position it cannot
    fill, having only allocated. *)
Lemma fill_args_short (ins : list Tensor) (idxs : list nat) :
  forall ins_idx args log,
    Forall (fun i => i < length params) idxs ->
    ins_idx <= length ins ->
    length ins < inputs_needed result_idx idxs + ins_idx ->
    exists allocs,
      fill_args params result_idx dev ins idxs ins_idx args log
      = (log ++ allocs, inl IndexError)
      /\ Forall (fun c => is_alloc c = true) allocs.
Proof.
  induction idxs as [|i rest IH]; intros ins_idx args log Hin Hle Hneed.
  - unfold inputs_needed in Hneed. simpl in Hneed. lia.
  - inversion Hin as [|? ? Hi Hrest]; subst.
    unfold inputs_needed in Hneed. simpl in Hneed. simpl.
    destruct (is_out i) eqn:Eo; simpl in Hneed.
    + unfold bind at 1. unfold bind at 1.
      rewrite (getitem_param params Hi). unfold lift, ret, torch_empty.
      destruct (IH ins_idx
                  (args ++ [Allocated (length (filter is_alloc log))
                                      (param params i) dev])
                  (log ++ [TorchEmpty (param params i) dev]) Hrest Hle Hneed)
        as (allocs & E & Hall).
      exists (TorchEmpty (param params i) dev :: allocs).
      rewrite E, <- app_assoc. split; [reflexivity|].
      constructor; [reflexivity|exact Hall].
    + destruct (Nat.eq_dec ins_idx (length ins)) as [->|Hne].
      * exists []. rewrite app_nil_r. split; [|constructor].
        unfold bind at 1. unfold getitem.
        destruct (Z.of_nat (length ins) <? 0)%Z eqn:E1;
          [apply Z.ltb_lt in E1; lia|].
        rewrite Z.ltb_irrefl, andb_false_r. reflexivity.
      * destruct (skipn ins_idx ins) as [|a more] eqn:Es.
        -- exfalso. apply (f_equal (@length _)) in Es.
           rewrite length_skipn in Es. simpl in Es. lia.
        -- destruct (getitem_skipn _ _ Es) as [Hg _].
           unfold bind at 1. rewrite Hg. unfold lift, ret.
           apply IH; [exact Hrest|lia|unfold inputs_needed; lia].
Qed.

(** X7. When the length check passes but [result_idx] repeats a position
    or names one outside [0 .. len(params) - 1] (a negative index
    included), [func] raises [IndexError]: it has only allocated output
    tensors by then and never invokes the kernel. *)
Theorem func_index_error (ins : list Tensor) :
  length ins + length result_idx = length params ->
  ~ valid ->
  exists allocs,
    run (func params result_idx dev ins)
    = (CurrentDevice :: allocs, inl IndexError)
    /\ Forall (fun c => is_alloc c = true) allocs
    /\ kernel_calls (CurrentDevice :: allocs) = 0.
Proof.
  intros Hlen Hinv.
  destruct outputs_count_le as [Hle Heq].
  assert (Hlt : length outs < length result_idx).
  { destruct (Nat.eq_dec (length outs) (length result_idx)) as [E|E];
      [elim Hinv; now apply Heq|lia]. }
  pose proof (filter_split_length is_out (seq 0 (length params))) as Hs.
  rewrite length_seq in Hs.
  destruct (@fill_args_short ins (seq 0 (length params)) 0 [] [CurrentDevice])
    as (allocs & E & Hall).
  - apply Forall_forall. intros i Hi. apply in_seq in Hi. lia.
  - lia.
  - unfold inputs_needed. lia.
  - exists allocs. split; [|split; [exact Hall|]].
    + unfold run, func.
      replace (length ins + length result_idx =? length params) with true
        by (symmetry; now apply Nat.eqb_eq).
      simpl. unfold bind at 1. unfold current_device, bind at 1, call, ret.
      simpl. unfold bind at 1. rewrite E. reflexivity.
    + unfold kernel_calls. simpl.
      rewrite filter_none; [reflexivity|].
      intros c Hc. rewrite Forall_forall in Hall. specialize (Hall c Hc).
      destruct c; try discriminate; reflexivity.
Qed.

End WrapperOutcomes.

(** Witness for X7: [result_idx = [-1]] does not mark the last parameter
    as the output. *)
Lemma func_index_error_witness :
  exists allocs,
    Py.run (Profiler.func [Flashattn.float16 [8%Z]; Flashattn.float16 [8%Z];
                           Flashattn.float16 [8%Z]]
                          [(-1)%Z] 0
                          [Profiler.Given 0; Profiler.Given 1])
    = (Profiler.CurrentDevice :: allocs, inl Py.IndexError).
Proof.
  destruct (@func_index_error
              [Flashattn.float16 [8%Z]; Flashattn.float16 [8%Z];
               Flashattn.float16 [8%Z]]
              [(-1)%Z] 0 [Profiler.Given 0; Profiler.Given 1])
    as (allocs & E & _).
  - reflexivity.
  - intros [_ H]. inversion H as [|? ? Hr _]. lia.
  - exists allocs. exact E.
Defined.

Section WrapperFromLog.
Import Py Profiler ProfilerClass.

Variable params : list TensorType.
Variable result_idx : list Z.
Variable dev : nat.

Abbreviation is_out := (in_result_idx result_idx).
Abbreviation valid := (valid_result_idx params result_idx).
Abbreviation every := (seq 0 (length params)).
Abbreviation allocs := (allocs_of params result_idx dev every).

Lemma allocs_are_allocs (idxs : list nat) :
  filter is_alloc (allocs_of params result_idx dev idxs)
  = allocs_of params result_idx dev idxs.
Proof.
  unfold allocs_of. induction (filter is_out idxs) as [|i l IH]; simpl;
    [reflexivity|now rewrite IH].
Qed.

Lemma allocs_no_kernel (idxs : list nat) :
  kernel_calls (allocs_of params result_idx dev idxs) = 0.
Proof.
  unfold kernel_calls, allocs_of.
  induction (filter is_out idxs) as [|i l IH]; simpl; [reflexivity|exact IH].
Qed.

Lemma kernel_calls_app (l1 l2 : list Call) :
  kernel_calls (l1 ++ l2) = kernel_calls l1 + kernel_calls l2.
Proof. unfold kernel_calls. now rewrite filter_app, length_app. Qed.

(** A result position of the argument vector built after [s] allocations. *)
Lemma place_output_at (ins : list Tensor) (s : nat) (r : Z) :
  valid ->
  length ins + length result_idx = length params ->
  In r result_idx ->
  getitem (place params result_idx dev every ins s) r
  = inr (Allocated (s + serial_of result_idx r)
                   (param params (Z.to_nat r)) dev).
Proof.
  intros Hv Hlen Hr.
  pose proof (proj2 Hv) as Hrange. rewrite Forall_forall in Hrange.
  specialize (Hrange r Hr).
  rewrite <- (Z2Nat.id r) at 1 by lia.
  apply getitem_nat.
  rewrite (@place_outputs params result_idx dev _ ins s
             (Z.to_nat r) (Z.to_nat r)).
  - rewrite firstn_seq_le by lia. reflexivity.
  - rewrite (inputs_count ins) by assumption. lia.
  - rewrite nth_error_seq_lt by lia. reflexivity.
  - apply is_out_In. now rewrite Z2Nat.id by lia.
Qed.

(** A call of the wrapper from any call log, on a valid [result_idx]. *)
Lemma func_from (ins : list Tensor) (log : list Call) :
  valid ->
  length ins + length result_idx = length params ->
  func params result_idx dev ins log
  = (log ++ CurrentDevice :: allocs
       ++ [TorchFunc (place params result_idx dev every ins
                            (length (filter is_alloc log)))],
     inr (returned_at params result_idx dev
                      (length (filter is_alloc log)))).
Proof.
  intros Hv Hlen. unfold func.
  replace (length ins + length result_idx =? length params) with true
    by (symmetry; now apply Nat.eqb_eq).
  simpl. unfold bind at 1. unfold current_device, bind at 1, call, ret.
  unfold bind at 1.
  rewrite fill_args_place.
  - rewrite filter_app, length_app. simpl. rewrite Nat.add_0_r.
    set (s := length (filter is_alloc log)).
    set (args := place params result_idx dev every ins s).
    assert (Hout : forall r, In r result_idx ->
              getitem args r
              = inr (Allocated (s + serial_of result_idx r)
                               (param params (Z.to_nat r)) dev))
      by (intros r Hr; now apply place_output_at).
    pose proof (traverse_total (getitem args) _ result_idx Hout) as Htr.
    unfold returned_at, outputs_at.
    unfold bind, lift, ret, raise, call. cbn -[getitem traverse skipn].
    rewrite <- !app_assoc. cbn -[getitem traverse skipn].
    destruct result_idx as [|r0 [|r1 rest]] eqn:E.
    + reflexivity.
    + cbn -[getitem]. change (getitem [r0] 0%Z) with (@inr Exn Z r0).
      cbn -[getitem]. rewrite (Hout r0 (or_introl eq_refl)). reflexivity.
    + change (length (r0 :: r1 :: rest) =? 1) with false. cbv iota.
      rewrite Htr. reflexivity.
  - apply Forall_forall. intros i Hi. apply in_seq in Hi. lia.
  - rewrite (inputs_count ins) by assumption. lia.
Qed.

Lemma to_list_returned_at (s : nat) :
  to_list (returned_at params result_idx dev s)
  = outputs_at params result_idx dev s.
Proof.
  unfold returned_at.
  destruct (outputs_at params result_idx dev s) as [|t [|t' ts]];
    reflexivity.
Qed.

Lemma serial_of_bound (r : Z) :
  valid -> In r result_idx -> serial_of result_idx r < length result_idx.
Proof.
  intros Hv Hr.
  pose proof (proj2 Hv) as Hrange. rewrite Forall_forall in Hrange.
  specialize (Hrange r Hr).
  pose proof (@serial_of_lt result_idx r (Z.of_nat (length params)) Hr
                ltac:(lia)) as H.
  unfold serial_of at 2 in H. rewrite Nat2Z.id in H.
  now rewrite (outputs_count Hv) in H.
Qed.

Lemma serial_of_inj (r r' : Z) :
  valid -> In r result_idx -> In r' result_idx ->
  serial_of result_idx r = serial_of result_idx r' -> r = r'.
Proof.
  intros Hv Hr Hr' E.
  pose proof (proj2 Hv) as Hrange. rewrite Forall_forall in Hrange.
  pose proof (Hrange r Hr). pose proof (Hrange r' Hr').
  destruct (Z.lt_trichotomy r r') as [Hlt|[Heq|Hgt]]; [|exact Heq|].
  - pose proof (@serial_of_lt result_idx r r' Hr). lia.
  - pose proof (@serial_of_lt result_idx r' r Hr'). lia.
Qed.

Lemma outputs_at_NoDup (s : nat) :
  valid -> NoDup (outputs_at params result_idx dev s).
Proof.
  intros Hv. unfold outputs_at.
  assert (Hsub : forall l, incl l result_idx -> NoDup l ->
            NoDup (map (fun r => Allocated (s + serial_of result_idx r)
                                   (param params (Z.to_nat r)) dev) l)).
  { induction l as [|r l IH]; intros Hincl Hnd; simpl; [constructor|].
    inversion Hnd as [|? ? Hnotin Hnd']; subst. constructor.
    - intros Hin. apply in_map_iff in Hin. destruct Hin as (r' & E & Hr').
      injection E as E _.
      assert (r' = r).
      { apply serial_of_inj; [exact Hv|apply Hincl; now right
                             |apply Hincl; now left|lia]. }
      subst r'. contradiction.
    - apply IH; [|exact Hnd']. intros x Hx. apply Hincl. now right. }
  apply Hsub; [apply incl_refl|exact (proj1 Hv)].
Qed.

Lemma outputs_at_serial (s : nat) (t : Tensor) :
  valid -> In t (outputs_at params result_idx dev s) ->
  exists k ty, t = Allocated k ty dev /\ s <= k < s + length result_idx.
Proof.
  intros Hv Hin. unfold outputs_at in Hin. apply in_map_iff in Hin.
  destruct Hin as (r & <- & Hr). eexists _, _. split; [reflexivity|].
  pose proof (@serial_of_bound r Hv Hr). lia.
Qed.

(** X8. Two successive calls of the wrapper both succeed, invoke the
    kernel twice, and return pairwise different tensors: no output of the
    second call is an output of the first, whatever the inputs were. *)
Theorem successive_calls_fresh (ins1 ins2 : list Tensor) :
  valid ->
  length ins1 + length result_idx = length params ->
  length ins2 + length result_idx = length params ->
  exists log r1 r2,
    run (r1 <- func params result_idx dev ins1 ;;
         r2 <- func params result_idx dev ins2 ;;
         ret (r1, r2))%py
    = (log, inr (r1, r2))
    /\ kernel_calls log = 2
    /\ length (filter is_alloc log) = 2 * length result_idx
    /\ length (to_list r1) = length result_idx
    /\ length (to_list r2) = length result_idx
    /\ NoDup (to_list r1 ++ to_list r2).
Proof.
  intros Hv H1 H2. unfold run, bind.
  rewrite (func_from ins1 [] Hv H1). rewrite (func_from ins2 _ Hv H2).
  unfold ret. eexists _, _, _. split; [reflexivity|].
  simpl app. simpl (length (filter is_alloc [])).
  assert (Ha : length (filter is_alloc
                         (CurrentDevice :: allocs
                            ++ [TorchFunc (place params result_idx dev every
                                                 ins1 0)]))
               = length result_idx).
  { simpl. rewrite filter_app, allocs_are_allocs, length_app. simpl.
    unfold allocs_of. rewrite length_map, (outputs_count Hv). lia. }
  rewrite Ha.
  split; [|split; [|split; [|split]]].
  - change (kernel_calls ?l) with (kernel_calls l).
    rewrite app_comm_cons, !kernel_calls_app.
    change (CurrentDevice :: allocs ++ ?x) with ([CurrentDevice] ++ allocs ++ x).
    rewrite !kernel_calls_app, !allocs_no_kernel. reflexivity.
  - rewrite app_comm_cons, filter_app, length_app, Ha.
    simpl. rewrite filter_app, allocs_are_allocs, length_app. simpl.
    unfold allocs_of. rewrite length_map, (outputs_count Hv). lia.
  - rewrite to_list_returned_at. unfold outputs_at. apply length_map.
  - rewrite to_list_returned_at. unfold outputs_at. apply length_map.
  - rewrite !to_list_returned_at. apply NoDup_app.
    + now apply outputs_at_NoDup.
    + now apply outputs_at_NoDup.
    + intros t Ht1 Ht2.
      destruct (@outputs_at_serial _ t Hv Ht1) as (k1 & ty1 & E1 & B1).
      destruct (@outputs_at_serial _ t Hv Ht2) as (k2 & ty2 & E2 & B2).
      simpl in Ha. rewrite Ha in B2.
      rewrite E1 in E2. injection E2 as E2 _. lia.
Qed.

End WrapperFromLog.

(** Witness for X8: the example's wrapper, called twice on the same
    inputs [Q, K, V]. *)
Lemma successive_calls_fresh_witness :
  exists log r1 r2,
    Py.run (Py.bind (Profiler.func Flashattn.mha_params [3%Z] 0
                       [Profiler.Given 0; Profiler.Given 1; Profiler.Given 2])
              (fun r1 =>
                 Py.bind (Profiler.func Flashattn.mha_params [3%Z] 0
                            [Profiler.Given 0; Profiler.Given 1;
                             Profiler.Given 2])
                   (fun r2 => Py.ret (r1, r2))))
    = (log, inr (r1, r2))
    /\ Profiler.kernel_calls log = 2
    /\ NoDup (ProfilerClass.to_list r1 ++ ProfilerClass.to_list r2).
Proof.
  destruct (@successive_calls_fresh Flashattn.mha_params [3%Z] 0
              [Profiler.Given 0; Profiler.Given 1; Profiler.Given 2]
              [Profiler.Given 0; Profiler.Given 1; Profiler.Given 2])
    as (log & r1 & r2 & E & Hk & _ & _ & _ & Hnd).
  - split.
    + constructor; [intros []|constructor].
    + repeat constructor; simpl; lia.
  - reflexivity.
  - reflexivity.
  - exists log, r1, r2. split; [exact E|]. split; [exact Hk|exact Hnd].
Defined.

(* --------------------------------------------------------------------- *)
(** ** The profiler: inputs, one run, comparison and benchmarking *)
(* --------------------------------------------------------------------- *)

Section EventFacts.
Import Py Profiler ProfilerClass.

Lemma flat_map_map_nil {A B C} (f : B -> list C) (g : A -> B) (l : list A) :
  (forall x, f (g x) = []) -> flat_map f (map g l) = [].
Proof.
  intros H. induction l as [|x l IH]; simpl; [reflexivity|].
  now rewrite H, IH.
Qed.

Lemma flat_map_map_single {A B C} (f : B -> list C) (g : A -> B)
      (h : A -> C) (l : list A) :
  (forall x, f (g x) = [h x]) -> flat_map f (map g l) = map h l.
Proof.
  intros H. induction l as [|x l IH]; simpl; [reflexivity|].
  now rewrite H, IH.
Qed.

Lemma calls_of_app (l1 l2 : list Event) :
  calls_of (l1 ++ l2) = calls_of l1 ++ calls_of l2.
Proof. apply flat_map_app. Qed.

Lemma calls_of_torch (l : list Call) : calls_of (map Torch l) = l.
Proof.
  unfold calls_of. rewrite (flat_map_map_single _ Torch (fun c => c)).
  - apply map_id.
  - reflexivity.
Qed.

Lemma skipn_app_exact {A} (l1 l2 : list A) :
  skipn (length l1) (l1 ++ l2) = l2.
Proof. induction l1 as [|a l1 IH]; simpl; [reflexivity|exact IH]. Qed.

Lemma kernel_runs_filter (log : list Event) :
  kernel_runs log = length (filter is_kernel_run log).
Proof.
  unfold kernel_runs, kernel_calls, calls_of.
  induction log as [|e log IH]; simpl; [reflexivity|].
  destruct e as [c| | | | | | | | | |]; simpl; try exact IH.
  destruct c; simpl; rewrite IH; reflexivity.
Qed.

Lemma allocated_filter (log : list Event) :
  allocated log = length (filter is_allocation log).
Proof.
  unfold allocated, calls_of.
  induction log as [|e log IH]; simpl; [reflexivity|].
  destruct e as [c| | | | | | | | | |]; simpl; try exact IH.
  destruct c; simpl; rewrite IH; reflexivity.
Qed.

End EventFacts.

Section ProfilerClassFacts.
Import Py Profiler ProfilerClass.
Local Open Scope prof_scope.

Variable params : list TensorType.
Variable result_idx : list Z.
Variable dev : nat.

Abbreviation is_out := (in_result_idx result_idx).
Abbreviation valid := (valid_result_idx params result_idx).
Abbreviation every := (seq 0 (length params)).
Abbreviation allocs := (allocs_of params result_idx dev every).
Abbreviation positions := (supplied_positions params result_idx).

(** The wrapper called by the profiler, on a valid [result_idx]. *)
Lemma call_ok (ins : list Tensor) (log : list Event) :
  valid ->
  length ins + length result_idx = length params ->
  __call__ params result_idx dev ins log
  = (log ++ map Torch
       (CurrentDevice :: allocs
          ++ [TorchFunc (place params result_idx dev every ins
                               (allocated log))]),
     inr (returned_at params result_idx dev (allocated log))).
Proof.
  intros Hv Hlen. unfold __call__, of_wrapper.
  rewrite (@func_from params result_idx dev ins (calls_of log) Hv Hlen).
  now rewrite skipn_app_exact.
Qed.

(** The wrapper called by the profiler, failing its length check. *)
Lemma call_mismatch (ins : list Tensor) (log : list Event) :
  length ins + length result_idx <> length params ->
  exists msg,
    __call__ params result_idx dev ins log
    = (log, inl (Raised (ValueError msg))).
Proof.
  intros Hne. unfold __call__, of_wrapper, func.
  replace (length ins + length result_idx =? length params) with false
    by (symmetry; now apply Nat.eqb_neq).
  unfold negb, raise. eexists.
  rewrite skipn_all2 by lia. simpl. now rewrite app_nil_r.
Qed.

Lemma get_inputs_loop_run (w : bool) (idxs : list nat) :
  forall ins log,
    Forall (fun i => i < length params) idxs ->
    let keep := filter (fun i => w || negb (is_out i)) idxs in
    get_inputs_loop params result_idx w idxs ins log
    = (log ++ map (fun i => Supply (param params i)) keep,
       inr (ins ++ map Given (seq (length (filter is_supply log))
                                  (length keep)))).
Proof.
  induction idxs as [|i rest IH]; intros ins log Hin; simpl.
  - unfold pret. now rewrite !app_nil_r.
  - inversion Hin as [|? ? Hi Hrest]; subst.
    destruct (w || negb (is_out i)) eqn:E.
    + unfold pbind at 1. unfold pbind at 1.
      rewrite (getitem_param params Hi). unfold lift, pret, supply.
      rewrite (IH _ _ Hrest). cbv zeta.
      rewrite filter_app, length_app. simpl.
      rewrite Nat.add_1_r, <- !app_assoc. reflexivity.
    + apply (IH _ _ Hrest).
Qed.

Lemma every_in_range : Forall (fun i => i < length params) every.
Proof. apply Forall_forall. intros i Hi. apply in_seq in Hi. lia. Qed.

Lemma get_inputs_run (w : bool) (log : list Event) :
  _get_inputs params result_idx w log
  = (log ++ map (fun i => Supply (param params i)) (positions w),
     inr (map Given (seq (length (filter is_supply log))
                         (length (positions w))))).
Proof.
  unfold _get_inputs. rewrite (get_inputs_loop_run w [] log every_in_range).
  reflexivity.
Qed.

Lemma positions_all : positions true = every.
Proof.
  unfold supplied_positions. apply filter_all. reflexivity.
Qed.

(** The inputs supplied pass the length check of the wrapper exactly when
    [result_idx] lists distinct positions in range. *)
Lemma positions_inputs :
  (valid -> length (positions false) + length result_idx = length params)
  /\ (length (positions false) + length result_idx = length params
      -> valid).
Proof.
  pose proof (filter_split_length is_out every) as Hs.
  rewrite length_seq in Hs.
  destruct (@outputs_count_le params result_idx) as [Hle Heq].
  unfold supplied_positions. simpl orb. split.
  - intros Hv. rewrite <- (outputs_count Hv). lia.
  - intros E. apply Heq. lia.
Qed.

(** X9. [_get_inputs] never fails: it supplies one tensor per parameter
    that is not a result (per parameter, with [with_output]), in parameter
    order, and returns these pairwise different tensors. Without
    [with_output] they pass the length check of the wrapper exactly when
    [result_idx] lists distinct positions in range. *)
Theorem get_inputs_supplies (with_output : bool) (log : list Event) :
  exists ins,
    _get_inputs params result_idx with_output log
    = (log ++ map (fun i => Supply (param params i))
                  (positions with_output), inr ins)
    /\ length ins = length (positions with_output)
    /\ NoDup ins
    /\ (with_output = true -> length ins = length params)
    /\ (with_output = false ->
        (valid <-> length ins + length result_idx = length params)).
Proof.
  rewrite get_inputs_run. eexists. split; [reflexivity|].
  rewrite length_map, length_seq.
  split; [reflexivity|]. split; [|split].
  - apply Injective_map_NoDup; [|apply seq_NoDup].
    intros x y E. now injection E.
  - intros ->. now rewrite positions_all, length_seq.
  - intros ->. destruct positions_inputs as [H1 H2]. split; assumption.
Qed.

(** X10. [run_once] on the wrapper itself: with a [result_idx] of distinct
    positions in range it supplies the inputs and invokes the kernel once,
    on the supplied inputs and fresh outputs; otherwise the supplied inputs
    fail the length check, so it raises [ValueError] (never [IndexError])
    without a single call to torch. *)
Theorem run_once_outcome :
  let ins := map Given (seq 0 (length (positions false))) in
  (valid ->
   exists log,
     prun (run_once params result_idx dev None)
     = (log, inr (returned_at params result_idx dev 0))
     /\ supplies log = map (param params) (positions false)
     /\ kernel_args log = [args_for params result_idx dev ins]
     /\ allocated log = length result_idx)
  /\ (~ valid ->
      exists log msg,
        prun (run_once params result_idx dev None)
        = (log, inl (Raised (ValueError msg)))
        /\ supplies log = map (param params) (positions false)
        /\ calls_of log = []).
Proof.
  intros ins.
  assert (Hins : length ins = length (positions false))
    by (unfold ins; now rewrite length_map, length_seq).
  assert (E : prun (run_once params result_idx dev None)
              = __call__ params result_idx dev ins
                  ([LoadLibcuda]
                     ++ map (fun i => Supply (param params i))
                            (positions false))).
  { unfold prun, run_once. unfold pbind at 1. unfold emit. simpl app.
    unfold pbind at 1. rewrite get_inputs_run. reflexivity. }
  assert (Hsup : forall l : list Call,
             supplies (([LoadLibcuda]
                          ++ map (fun i => Supply (param params i))
                                 (positions false)) ++ map Torch l)
             = map (param params) (positions false)).
  { intros l. unfold supplies. rewrite !flat_map_app. simpl.
    rewrite (flat_map_map_nil _ Torch) by reflexivity.
    rewrite (flat_map_map_single _ _ (param params)) by reflexivity.
    apply app_nil_r. }
  assert (Hcalls : forall l : list Call,
             calls_of (([LoadLibcuda]
                          ++ map (fun i => Supply (param params i))
                                 (positions false)) ++ map Torch l) = l).
  { intros l. rewrite !calls_of_app, calls_of_torch. simpl.
    unfold calls_of. now rewrite flat_map_map_nil by reflexivity. }
  split.
  - intros Hv.
    assert (Hlen : length ins + length result_idx = length params)
      by (rewrite Hins; now apply positions_inputs).
    rewrite E, (@call_ok ins _ Hv Hlen).
    assert (Ha : allocated ([LoadLibcuda]
                              ++ map (fun i => Supply (param params i))
                                     (positions false)) = 0).
    { unfold allocated. rewrite <- (app_nil_r (_ ++ _)).
      change (@nil Event) with (map Torch []). now rewrite Hcalls. }
    rewrite Ha. eexists. split; [reflexivity|].
    split; [apply Hsup|]. split.
    + unfold kernel_args. rewrite !flat_map_app. simpl.
      rewrite (flat_map_map_nil _ (fun i => Supply (param params i)))
        by reflexivity.
      rewrite map_app, flat_map_app. simpl.
      unfold allocs_of. rewrite map_map.
      rewrite (flat_map_map_nil _ _) by reflexivity. reflexivity.
    + unfold allocated. rewrite Hcalls. simpl.
      rewrite filter_app, allocs_are_allocs, length_app. simpl.
      unfold allocs_of. rewrite length_map, (outputs_count Hv). lia.
  - intros Hnv.
    assert (Hlen : length ins + length result_idx <> length params).
    { rewrite Hins. intros H. apply Hnv. now apply positions_inputs. }
    rewrite E. destruct (@call_mismatch ins ([LoadLibcuda] ++ map (fun i => Supply (param params i)) (positions false)) Hlen) as (msg & ->).
    eexists _, msg. split; [reflexivity|]. split.
    + rewrite <- (app_nil_r (_ ++ _)).
      change (@nil Event) with (map Torch []). apply Hsup.
    + rewrite <- (app_nil_r (_ ++ _)).
      change (@nil Event) with (map Torch []). apply Hcalls.
Qed.

End ProfilerClassFacts.

(** Witness for X9: the example's wrapper supplies [Q], [K] and [V]. *)
Lemma get_inputs_supplies_witness :
  exists ins,
    ProfilerClass._get_inputs Flashattn.mha_params [3%Z] false []
    = (map (fun i => ProfilerClass.Supply
                       (Profiler.param Flashattn.mha_params i)) [0; 1; 2],
       inr ins)
    /\ length ins + length [3%Z] = length Flashattn.mha_params.
Proof.
  destruct (@get_inputs_supplies Flashattn.mha_params [3%Z] false [])
    as (ins & E & _ & _ & _ & H).
  exists ins. split; [exact E|]. apply (H eq_refl). split.
  - constructor; [intros []|constructor].
  - repeat constructor; simpl; lia.
Defined.

(** Witness for X10: the example's wrapper, and one whose [result_idx]
    repeats a position. *)
Lemma run_once_outcome_witness :
  (exists log,
      ProfilerClass.prun (ProfilerClass.run_once Flashattn.mha_params
                            [3%Z] 0 None)
      = (log, inr (ProfilerClass.returned_at Flashattn.mha_params
                     [3%Z] 0 0)))
  /\ (exists log msg,
         ProfilerClass.prun (ProfilerClass.run_once Flashattn.mha_params
                               [3%Z; 3%Z] 0 None)
         = (log, inl (ProfilerClass.Raised (Py.ValueError msg)))).
Proof.
  split.
  - destruct (@run_once_outcome Flashattn.mha_params [3%Z] 0) as [H _].
    destruct H as (log & E & _).
    + split.
      * constructor; [intros []|constructor].
      * repeat constructor; simpl; lia.
    + exists log. exact E.
  - destruct (@run_once_outcome Flashattn.mha_params [3%Z; 3%Z] 0)
      as [_ H].
    destruct H as (log & msg & E & _).
    + intros [Hnd _]. inversion Hnd as [|? ? Hnotin _]. apply Hnotin.
      now left.
    + exists log, msg. exact E.
Defined.

Section MonadFacts.
Import Py Profiler ProfilerClass.
Local Open Scope prof_scope.

Lemma pbind_emit {B} (e : Event) (k : unit -> P B) (log : list Event) :
  pbind (emit e) k log = k tt (log ++ [e]).
Proof. reflexivity. Qed.

Lemma pbind_ok {A B} (m : P A) (k : A -> P B) (log log' : list Event)
      (a : A) :
  m log = (log', inr a) -> pbind m k log = k a log'.
Proof. intros H. unfold pbind. now rewrite H. Qed.

Lemma pbind_fail {A B} (m : P A) (k : A -> P B) (log log' : list Event)
      (f : Failure) :
  m log = (log', inl f) -> pbind m k log = (log', inl f).
Proof. intros H. unfold pbind. now rewrite H. Qed.

Lemma filter_map_none {A B} (p : B -> bool) (g : A -> B) (l : list A) :
  (forall x, p (g x) = false) -> filter p (map g l) = [].
Proof.
  intros H. induction l as [|x l IH]; simpl; [reflexivity|].
  now rewrite H, IH.
Qed.

Variable p : Event -> bool.

Lemma Steps_ret {A} (v : A) : Steps p (pret v) v 0.
Proof. intros log. exists []. now rewrite app_nil_r. Qed.

Lemma Steps_emit (e : Event) : p e = false -> Steps p (emit e) tt 0.
Proof.
  intros H log. exists [e]. split; [reflexivity|]. simpl. now rewrite H.
Qed.

Lemma Steps_bind {A B} (m : P A) (k : A -> P B) (v : A) (w : B)
      (a b : nat) :
  Steps p m v a -> Steps p (k v) w b -> Steps p (pbind m k) w (a + b).
Proof.
  intros Hm Hk log. destruct (Hm log) as (d1 & E1 & C1).
  destruct (Hk (log ++ d1)) as (d2 & E2 & C2).
  exists (d1 ++ d2). split.
  - rewrite (pbind_ok _ _ _ E1), E2. now rewrite app_assoc.
  - rewrite filter_app, length_app. lia.
Qed.

Lemma Steps_repeat (n : nat) (m : P unit) (a : nat) :
  Steps p m tt a -> Steps p (repeat_ n m) tt (n * a).
Proof.
  intros Hm. induction n as [|n IH]; simpl.
  - apply Steps_ret.
  - eapply Steps_bind; [exact Hm|exact IH].
Qed.

Lemma Steps_eq {A} (m : P A) (v : A) (a b : nat) :
  Steps p m v a -> a = b -> Steps p m v b.
Proof. now intros H <-. Qed.

Lemma Steps_grads (xs : list nat) :
  (forall e, bench_event e = true -> p e = false) ->
  Steps p (fold_right (fun x k => emit (GradNone x) ;;; k) (pret tt) xs)
        tt 0.
Proof.
  intros Hp. induction xs as [|x xs IH]; simpl.
  - apply Steps_ret.
  - eapply Steps_eq;
      [eapply Steps_bind; [apply Steps_emit, Hp; reflexivity|exact IH]
      |reflexivity].
Qed.

Lemma runs_of_pos (estimate given : Z) : 1 <= runs_of estimate given.
Proof.
  unfold runs_of. destruct (Z.ltb_spec 0 given); lia.
Qed.

(** X12. [do_bench] calls [fn] once to warm up, five times to estimate the
    run time, and then [n_warmup] and [n_repeat] times, each at least
    once: whatever [fn] adds to the log on every call is added
    [6 + n_warmup + n_repeat] times. A non-positive [_n_warmup] or
    [_n_repeat] falls back to the estimate, which is at least 1. With a
    [return_mode] other than min, max, mean, median the assertion fails
    before [fn] is called. *)
Theorem do_bench_runs (fn : P unit) (a : nat)
        (est_warmup est_repeat _n_warmup _n_repeat : Z)
        (grad_to_none : option (list nat)) (quantiles : option nat)
        (fast_flush : bool) (return_mode : string) :
  let nw := runs_of est_warmup _n_warmup in
  let nr := runs_of est_repeat _n_repeat in
  let known := existsb (String.eqb return_mode)
                       ["min"; "max"; "mean"; "median"]%string in
  (forall e, bench_event e = true -> p e = false) ->
  Steps p fn tt a ->
  (known = true ->
   Steps p (do_bench fn est_warmup est_repeat _n_warmup _n_repeat
                     grad_to_none quantiles fast_flush return_mode)
         (match quantiles with
          | Some k => if k =? 1 then Quantile nr else Quantiles k nr
          | None => Statistic return_mode nr
          end)
         ((6 + nw + nr) * a)
   /\ 1 <= nw /\ 1 <= nr)
  /\ (known = false ->
      forall log,
        do_bench fn est_warmup est_repeat _n_warmup _n_repeat
                 grad_to_none quantiles fast_flush return_mode log
        = (log, inl AssertionError)).
Proof.
  intros nw nr known Hp Hfn. split.
  - intros Hk. split; [|split; apply runs_of_pos].
    unfold do_bench. fold known. rewrite Hk. simpl negb. cbv iota zeta.
    fold (runs_of est_warmup _n_warmup). fold (runs_of est_repeat _n_repeat).
    fold nw. fold nr.
    assert (Hg : Steps p
                   (match grad_to_none with
                    | Some xs =>
                        fold_right (fun x k => emit (GradNone x) ;;; k)
                                   (pret tt) xs
                    | None => pret tt
                    end) tt 0).
    { destruct grad_to_none; [now apply Steps_grads|apply Steps_ret]. }
    eapply Steps_eq.
    + eapply Steps_bind; [exact Hfn|].
      eapply Steps_bind; [apply Steps_emit, Hp; reflexivity|].
      eapply Steps_bind; [apply Steps_emit, Hp; reflexivity|].
      eapply Steps_bind; [apply Steps_emit, Hp; reflexivity|].
      eapply Steps_bind.
      { apply Steps_repeat. eapply Steps_bind;
          [apply Steps_emit, Hp; reflexivity|exact Hfn]. }
      eapply Steps_bind; [apply Steps_emit, Hp; reflexivity|].
      eapply Steps_bind; [apply Steps_emit, Hp; reflexivity|].
      eapply Steps_bind; [apply Steps_repeat; exact Hfn|].
      eapply Steps_bind.
      { apply Steps_repeat.
        eapply Steps_bind; [exact Hg|].
        eapply Steps_bind; [apply Steps_emit, Hp; reflexivity|].
        eapply Steps_bind; [apply Steps_emit, Hp; reflexivity|].
        eapply Steps_bind; [exact Hfn|].
        apply Steps_emit, Hp; reflexivity. }
      eapply Steps_bind; [apply Steps_emit, Hp; reflexivity|].
      apply Steps_ret.
    + ring.
  - intros Hk log. unfold do_bench. fold known. now rewrite Hk.
Qed.

End MonadFacts.

(** Witness for X12: counting the calls of a [fn] that supplies one
    tensor per call, with the defaults [_n_warmup = _n_repeat = 0]. *)
Lemma do_bench_runs_witness :
  ProfilerClass.Steps ProfilerClass.is_supply
    (ProfilerClass.do_bench
       (ProfilerClass.emit (ProfilerClass.Supply Profiler.no_type))
       25 100 0 0 None None true "mean")
    (ProfilerClass.Statistic "mean" 100) ((6 + 25 + 100) * 1).
Proof.
  destruct (@do_bench_runs ProfilerClass.is_supply
              (ProfilerClass.emit (ProfilerClass.Supply Profiler.no_type))
              1 25 100 0 0 None None true "mean") as [H _].
  - intros e He. destruct e; try discriminate; reflexivity.
  - intros log. exists [ProfilerClass.Supply Profiler.no_type].
    split; reflexivity.
  - destruct (H eq_refl) as [Hs _]. exact Hs.
Defined.

Section AssertAllclose.
Import Py Profiler ProfilerClass.
Local Open Scope prof_scope.

Variable params : list TensorType.
Variable result_idx : list Z.
Variable dev : nat.
Variable close : Tensor -> Tensor -> bool.

Abbreviation valid := (valid_result_idx params result_idx).
Abbreviation every := (seq 0 (length params)).
Abbreviation allocs := (allocs_of params result_idx dev every).
Abbreviation positions := (supplied_positions params result_idx).
Abbreviation closeb := (fun p : Tensor * Tensor => close (fst p) (snd p)).
Abbreviation compared :=
  (map (fun p : Tensor * Tensor => AssertClose (fst p) (snd p))).
Abbreviation supplied :=
  (map (fun i => Supply (param params i)) (positions false)).

Lemma compare_all_ok (pairs : list (Tensor * Tensor)) :
  forall log,
    forallb closeb pairs = true ->
    compare_all close pairs log = (log ++ compared pairs, inr tt).
Proof.
  induction pairs as [|[l r] pairs IH]; intros log H; simpl.
  - unfold pret. now rewrite app_nil_r.
  - simpl in H. apply andb_true_iff in H. destruct H as [Hc Hrest].
    rewrite pbind_emit, Hc, (IH _ Hrest), <- app_assoc. reflexivity.
Qed.

Lemma compare_all_fail (pre post : list (Tensor * Tensor)) (l r : Tensor) :
  forall log,
    forallb closeb pre = true -> close l r = false ->
    compare_all close (pre ++ (l, r) :: post) log
    = (log ++ compared (pre ++ [(l, r)]), inl AssertionError).
Proof.
  induction pre as [|[l0 r0] pre IH]; intros log Hpre Hc; simpl.
  - now rewrite pbind_emit, Hc.
  - simpl in Hpre. apply andb_true_iff in Hpre. destruct Hpre as [H0 Hrest].
    rewrite pbind_emit, H0, (IH _ Hrest Hc), <- app_assoc. reflexivity.
Qed.

Lemma compare_all_shape (pairs : list (Tensor * Tensor)) :
  forall log, exists done,
    fst (compare_all close pairs log) = log ++ compared done.
Proof.
  induction pairs as [|[l r] pairs IH]; intros log; simpl.
  - exists []. unfold pret. simpl. now rewrite app_nil_r.
  - rewrite pbind_emit. destruct (close l r).
    + destruct (IH (log ++ [AssertClose l r])) as (done & E).
      exists ((l, r) :: done). rewrite E, <- app_assoc. reflexivity.
    + exists [(l, r)]. reflexivity.
Qed.

Lemma comparisons_compared (pairs : list (Tensor * Tensor)) :
  comparisons (compared pairs) = pairs.
Proof.
  unfold comparisons.
  rewrite (flat_map_map_single _ _ (fun p : Tensor * Tensor => p)).
  - apply map_id.
  - now intros [l r].
Qed.

Lemma assert_allclose_run (reference_program : list Tensor -> Returned) :
  valid ->
  let ins := map Given (seq 0 (length (positions false))) in
  let outs := outputs_at params result_idx dev 0 in
  let refs := to_list (reference_program ins) in
  prun (assert_allclose params result_idx dev close reference_program)
  = if negb (length outs =? length refs)
    then (before_comparison params result_idx dev ins, inl AssertionError)
    else compare_all close (combine outs refs) (before_comparison params result_idx dev ins).
Proof.
  intros Hv ins outs refs.
  assert (Hlen : length ins + length result_idx = length params).
  { unfold ins. rewrite length_map, length_seq.
    now apply positions_inputs. }
  unfold prun, assert_allclose.
  rewrite (pbind_ok _ _ _ (get_inputs_run params result_idx false [])).
  simpl (length (filter is_supply [])). fold ins.
  rewrite !pbind_emit.
  rewrite (pbind_ok _ _ _ (@call_ok params result_idx dev ins _ Hv Hlen)).
  assert (Ha : allocated ((([] ++ supplied) ++ [Reference ins])
                            ++ [Synchronize]) = 0).
  { rewrite allocated_filter, !filter_app. simpl.
    rewrite filter_map_none by reflexivity. reflexivity. }
  rewrite Ha, pbind_emit, to_list_returned_at.
  fold outs. fold refs.
  assert (Elog : ((((([] ++ supplied) ++ [Reference ins]) ++ [Synchronize])
                     ++ map Torch
                          (CurrentDevice :: allocs
                             ++ [TorchFunc (place params result_idx dev
                                                  every ins 0)]))
                    ++ [Synchronize])
                 = before_comparison params result_idx dev ins).
  { unfold before_comparison, args_for. rewrite <- !app_assoc. reflexivity. }
  rewrite Elog. now destruct (negb (length outs =? length refs)).
Qed.

Lemma before_comparison_flat_map {C} (f : Event -> list C)
      (ins : list Tensor) (pairs : list (Tensor * Tensor)) :
  flat_map f (before_comparison params result_idx dev ins ++ compared pairs)
  = flat_map f supplied
      ++ f (Reference ins) ++ f Synchronize ++ f (Torch CurrentDevice)
      ++ flat_map f (map Torch allocs)
      ++ f (Torch (TorchFunc (args_for params result_idx dev ins)))
      ++ f Synchronize ++ flat_map f (compared pairs).
Proof.
  unfold before_comparison.
  change [Reference ins; Synchronize]
    with ([Reference ins] ++ [Synchronize]).
  change (map Torch (CurrentDevice :: allocs
                       ++ [TorchFunc (args_for params result_idx dev ins)]))
    with ([Torch CurrentDevice]
            ++ map Torch (allocs
                 ++ [TorchFunc (args_for params result_idx dev ins)])).
  rewrite map_app. rewrite !flat_map_app. simpl. rewrite !app_nil_r.
  rewrite <- !app_assoc. reflexivity.
Qed.

Lemma before_comparison_projections (ins : list Tensor)
      (pairs : list (Tensor * Tensor)) :
  references (before_comparison params result_idx dev ins ++ compared pairs)
  = [ins]
  /\ kernel_args (before_comparison params result_idx dev ins
                    ++ compared pairs)
     = [args_for params result_idx dev ins]
  /\ comparisons (before_comparison params result_idx dev ins
                    ++ compared pairs) = pairs.
Proof.
  split; [|split].
  - unfold references. rewrite before_comparison_flat_map.
    rewrite (flat_map_map_nil _ (fun i => Supply (param params i)))
      by reflexivity.
    rewrite (flat_map_map_nil _ Torch) by reflexivity.
    rewrite (flat_map_map_nil _ (fun p : Tensor * Tensor =>
                                   AssertClose (fst p) (snd p)))
      by reflexivity.
    reflexivity.
  - unfold kernel_args. rewrite before_comparison_flat_map.
    rewrite (flat_map_map_nil _ (fun i => Supply (param params i)))
      by reflexivity.
    unfold allocs_of. rewrite map_map.
    rewrite (flat_map_map_nil
               _ (fun i => Torch (TorchEmpty (param params i) dev)))
      by reflexivity.
    rewrite (flat_map_map_nil _ (fun p : Tensor * Tensor =>
                                   AssertClose (fst p) (snd p)))
      by reflexivity.
    reflexivity.
  - unfold comparisons at 1. rewrite before_comparison_flat_map.
    rewrite (flat_map_map_nil _ (fun i => Supply (param params i)))
      by reflexivity.
    rewrite (flat_map_map_nil _ Torch) by reflexivity.
    simpl. apply comparisons_compared.
Qed.

(** X11. [assert_allclose] on a valid [result_idx] calls the reference
    program once and the kernel once, both on the supplied inputs. When
    the reference returns another number of tensors than [result_idx] has
    entries the assertion fails before any comparison; otherwise the
    outputs are compared with the reference results pairwise in order, up
    to and including the first pair that is not close. On an invalid
    [result_idx] the reference program has already run when the wrapper
    raises [ValueError], and nothing is compared. *)
Theorem assert_allclose_outcome
        (reference_program : list Tensor -> Returned) :
  let ins := map Given (seq 0 (length (positions false))) in
  let outs := outputs_at params result_idx dev 0 in
  let refs := to_list (reference_program ins) in
  (valid ->
   exists log res,
     prun (assert_allclose params result_idx dev close reference_program)
     = (log, res)
     /\ references log = [ins]
     /\ kernel_args log = [args_for params result_idx dev ins]
     /\ (length refs <> length result_idx ->
         res = inl AssertionError /\ comparisons log = [])
     /\ (length refs = length result_idx ->
         forallb closeb (combine outs refs) = true ->
         res = inr tt /\ comparisons log = combine outs refs)
     /\ (length refs = length result_idx ->
         forall pre l r post,
           combine outs refs = pre ++ (l, r) :: post ->
           forallb closeb pre = true -> close l r = false ->
           res = inl AssertionError /\ comparisons log = pre ++ [(l, r)]))
  /\ (~ valid ->
      exists log msg,
        prun (assert_allclose params result_idx dev close reference_program)
        = (log, inl (Raised (ValueError msg)))
        /\ references log = [ins]
        /\ calls_of log = []
        /\ comparisons log = []).
Proof.
  intros ins outs refs.
  assert (Houts : length outs = length result_idx)
    by (unfold outs, outputs_at; apply length_map).
  split.
  - intros Hv.
    pose proof (assert_allclose_run reference_program Hv) as Hrun.
    cbv zeta in Hrun. fold ins outs refs in Hrun. rewrite Houts in Hrun.
    destruct (Nat.eqb_spec (length result_idx) (length refs)) as [El|El];
      simpl negb in Hrun; cbv iota in Hrun.
    + destruct (compare_all_shape (combine outs refs) (before_comparison params result_idx dev ins))
        as (done & Hshape).
      destruct (compare_all close (combine outs refs) (before_comparison params result_idx dev ins))
        as [log res] eqn:Ec.
      simpl in Hshape. subst log.
      destruct (before_comparison_projections ins done) as (P1 & P2 & P3).
      exists (before_comparison params result_idx dev ins ++ compared done), res.
      split; [exact Hrun|]. split; [exact P1|]. split; [exact P2|].
      split; [|split].
      * intros Hne. now elim Hne.
      * intros _ Hall. rewrite (compare_all_ok _ _ Hall) in Ec.
        injection Ec as Ed <-. apply app_inv_head in Ed.
        apply (f_equal comparisons) in Ed.
        rewrite !comparisons_compared in Ed.
        split; [reflexivity|]. rewrite P3. now symmetry.
      * intros _ pre l r post Epairs Hpre Hc.
        rewrite Epairs, (compare_all_fail _ post _ Hpre Hc) in Ec.
        injection Ec as Ed <-. apply app_inv_head in Ed.
        apply (f_equal comparisons) in Ed.
        rewrite !comparisons_compared in Ed.
        split; [reflexivity|]. rewrite P3. now symmetry.
    + destruct (before_comparison_projections ins []) as (P1 & P2 & P3).
      simpl in P1, P2, P3. rewrite app_nil_r in P1, P2, P3.
      exists (before_comparison params result_idx dev ins), (inl AssertionError).
      split; [exact Hrun|]. split; [exact P1|]. split; [exact P2|].
      split; [|split].
      * intros _. split; [reflexivity|exact P3].
      * intros E. now elim El.
      * intros E. now elim El.
  - intros Hnv.
    assert (Hlen : length ins + length result_idx <> length params).
    { unfold ins. rewrite length_map, length_seq. intros H. apply Hnv.
      now apply positions_inputs. }
    unfold prun, assert_allclose.
    rewrite (pbind_ok _ _ _ (get_inputs_run params result_idx false [])).
    simpl (length (filter is_supply [])). fold ins.
    rewrite !pbind_emit.
    destruct (@call_mismatch params result_idx dev ins
                ((([] ++ supplied) ++ [Reference ins]) ++ [Synchronize]) Hlen)
      as (msg & E).
    rewrite (pbind_fail _ _ _ E).
    eexists _, msg. split; [reflexivity|]. simpl app. split; [|split].
    + unfold references. rewrite !flat_map_app. simpl.
      now rewrite flat_map_map_nil by reflexivity.
    + unfold calls_of. rewrite !flat_map_app. simpl.
      now rewrite flat_map_map_nil by reflexivity.
    + unfold comparisons. rewrite !flat_map_app. simpl.
      now rewrite flat_map_map_nil by reflexivity.
Qed.

End AssertAllclose.

(** Witness for X11: the example's wrapper against a reference program
    that returns one tensor, with every comparison passing. *)
Lemma assert_allclose_outcome_witness :
  exists log,
    ProfilerClass.prun
      (ProfilerClass.assert_allclose Flashattn.mha_params [3%Z] 0
         (fun _ _ => true) (fun _ => Profiler.One (Profiler.Given 9)))
    = (log, inr tt)
    /\ ProfilerClass.comparisons log
       = [(Profiler.Allocated 0 (Profiler.param Flashattn.mha_params 3) 0,
           Profiler.Given 9)].
Proof.
  destruct (@assert_allclose_outcome Flashattn.mha_params [3%Z] 0
              (fun _ _ => true) (fun _ => Profiler.One (Profiler.Given 9)))
    as [H _].
  destruct H as (log & res & E & _ & _ & _ & Hok & _).
  - split.
    + constructor; [intros []|constructor].
    + repeat constructor; simpl; lia.
  - destruct (Hok eq_refl eq_refl) as [-> Hc].
    exists log. split; [exact E|exact Hc].
Defined.

Section BenchTorch.
Import Py Profiler ProfilerClass.
Local Open Scope prof_scope.

Variable params : list TensorType.
Variable result_idx : list Z.
Variable dev : nat.

Abbreviation valid := (valid_result_idx params result_idx).
Abbreviation every := (seq 0 (length params)).
Abbreviation allocs := (allocs_of params result_idx dev every).
Abbreviation positions := (supplied_positions params result_idx).
Abbreviation supplied :=
  (map (fun i => Supply (param params i)) (positions false)).

Lemma supplies_length (log : list Event) :
  length (supplies log) = length (filter is_supply log).
Proof.
  unfold supplies. induction log as [|e log IH]; simpl; [reflexivity|].
  destruct e; simpl; rewrite ?IH; reflexivity.
Qed.

(** One benchmarked call of the wrapper: one kernel run,
    [len(result_idx)] allocations, no tensor supplied. *)
Lemma call_Steps (ins : list Tensor) :
  valid ->
  length ins + length result_idx = length params ->
  Steps is_kernel_run (__call__ params result_idx dev ins ;;; pret tt) tt 1
  /\ Steps is_allocation (__call__ params result_idx dev ins ;;; pret tt)
           tt (length result_idx)
  /\ Steps is_supply (__call__ params result_idx dev ins ;;; pret tt) tt 0.
Proof.
  intros Hv Hlen.
  assert (E : forall log,
             (__call__ params result_idx dev ins ;;; pret tt) log
             = (log ++ map Torch
                  (CurrentDevice :: allocs
                     ++ [TorchFunc (place params result_idx dev every ins
                                          (allocated log))]),
                inr tt)).
  { intros log.
    now rewrite (pbind_ok _ _ _ (@call_ok params result_idx dev ins log
                                   Hv Hlen)). }
  split; [|split]; intros log; eexists; (split; [apply E|]).
  - rewrite <- kernel_runs_filter. unfold kernel_runs.
    rewrite calls_of_torch.
    change (CurrentDevice :: allocs ++ ?x)
      with ([CurrentDevice] ++ allocs ++ x).
    now rewrite !kernel_calls_app, allocs_no_kernel.
  - rewrite <- allocated_filter. unfold allocated.
    rewrite calls_of_torch. simpl.
    rewrite filter_app, allocs_are_allocs, length_app. simpl.
    unfold allocs_of. rewrite length_map, (outputs_count Hv). lia.
  - now rewrite filter_map_none by reflexivity.
Qed.

(** X13. [Profiler.do_bench] with the torch profiler on the wrapper
    itself supplies the inputs once and reuses them for all
    [6 + n_warmup + n_repeat] kernel runs, at least 8; every run allocates
    its outputs anew. On an invalid [result_idx] the first call raises
    [ValueError] before anything is timed. *)
Theorem bench_torch_runs (est_warmup est_repeat n_warmup n_repeat : Z)
        (type_key : option string) :
  let nw := runs_of est_warmup n_warmup in
  let nr := runs_of est_repeat n_repeat in
  let bench :=
    Profiler_do_bench params result_idx (__call__ params result_idx dev)
                      est_warmup est_repeat n_warmup n_repeat
                      "torch" None type_key in
  (valid ->
   exists log,
     prun bench = (log, inr (TorchTime (Statistic "mean" nr)))
     /\ supplies log = map (param params) (positions false)
     /\ kernel_runs log = 6 + nw + nr
     /\ allocated log = (6 + nw + nr) * length result_idx
     /\ 8 <= kernel_runs log)
  /\ (~ valid ->
      exists log msg,
        prun bench = (log, inl (Raised (ValueError msg)))
        /\ calls_of log = []
        /\ filter bench_event log = []).
Proof.
  intros nw nr bench.
  set (ins := map Given (seq 0 (length (positions false)))).
  assert (E : prun bench
              = (r <- do_bench (__call__ params result_idx dev ins ;;; pret tt)
                               est_warmup est_repeat n_warmup n_repeat
                               None None true "mean" ;;
                 pret (TorchTime r)) supplied).
  { unfold prun, bench, Profiler_do_bench.
    change (String.eqb "torch" "torch") with true. cbv iota.
    now rewrite (pbind_ok _ _ _ (get_inputs_run params result_idx false [])). }
  assert (Hs0 : supplies supplied = map (param params) (positions false)).
  { unfold supplies.
    now rewrite (flat_map_map_single _ _ (param params)) by reflexivity. }
  split.
  - intros Hv.
    assert (Hlen : length ins + length result_idx = length params).
    { unfold ins. rewrite length_map, length_seq.
      now apply positions_inputs. }
    destruct (@call_Steps ins Hv Hlen) as (Sk & Sa & Ss).
    assert (Hb : forall e, bench_event e = true -> is_kernel_run e = false)
      by (intros e He; destruct e; try discriminate; reflexivity).
    assert (Hb' : forall e, bench_event e = true -> is_allocation e = false)
      by (intros e He; destruct e; try discriminate; reflexivity).
    assert (Hb'' : forall e, bench_event e = true -> is_supply e = false)
      by (intros e He; destruct e; try discriminate; reflexivity).
    destruct (@do_bench_runs is_kernel_run _ 1 est_warmup est_repeat
                n_warmup n_repeat None None true "mean" Hb Sk) as [Hk _].
    destruct (@do_bench_runs is_allocation _ (length result_idx)
                est_warmup est_repeat n_warmup n_repeat None None true
                "mean" Hb' Sa) as [Ha _].
    destruct (@do_bench_runs is_supply _ 0 est_warmup est_repeat
                n_warmup n_repeat None None true "mean" Hb'' Ss)
      as [Hsup _].
    destruct (Hk eq_refl) as (Hk' & Hnw & Hnr).
    destruct (Ha eq_refl) as (Ha' & _). destruct (Hsup eq_refl) as (Hs' & _).
    fold nw nr in Hk', Ha', Hs', Hnw, Hnr.
    destruct (Hk' supplied) as (d & Ed & Ck).
    destruct (Ha' supplied) as (d' & Ed' & Ca).
    destruct (Hs' supplied) as (d'' & Ed'' & Cs).
    rewrite Ed in Ed', Ed''.
    injection Ed' as Ed'. injection Ed'' as Ed''.
    apply app_inv_head in Ed', Ed''. subst d' d''.
    exists (supplied ++ d). rewrite E, (pbind_ok _ _ _ Ed).
    split; [reflexivity|].
    assert (Kr : kernel_runs (supplied ++ d) = 6 + nw + nr).
    { rewrite kernel_runs_filter, filter_app, length_app, Ck.
      rewrite filter_map_none by reflexivity. simpl. lia. }
    split; [|split; [exact Kr|split; [|lia]]].
    + assert (Hd : supplies d = []).
      { pose proof (supplies_length d) as Hl.
        rewrite Cs, Nat.mul_0_r in Hl.
        destruct (supplies d); [reflexivity|discriminate]. }
      unfold supplies. rewrite flat_map_app.
      fold (supplies supplied). fold (supplies d).
      now rewrite Hs0, Hd, app_nil_r.
    + rewrite allocated_filter, filter_app, length_app, Ca.
      rewrite filter_map_none by reflexivity. reflexivity.
  - intros Hnv.
    assert (Hlen : length ins + length result_idx <> length params).
    { unfold ins. rewrite length_map, length_seq. intros H. apply Hnv.
      now apply positions_inputs. }
    destruct (@call_mismatch params result_idx dev ins supplied Hlen)
      as (msg & Em).
    exists supplied, msg. split; [|split].
    + rewrite E. unfold do_bench.
      change (existsb (String.eqb "mean") ["min"; "max"; "mean"; "median"]%string)
        with true.
      simpl negb. cbv iota.
      apply pbind_fail. apply pbind_fail. apply pbind_fail. exact Em.
    + unfold calls_of. now rewrite flat_map_map_nil by reflexivity.
    + now rewrite filter_map_none by reflexivity.
Qed.

End BenchTorch.

(** Witness for X13: the example's call [mod.do_bench(mod, n_warmup=10,
    n_repeat=10, profiler="torch")]. *)
Lemma bench_torch_runs_witness :
  exists log,
    ProfilerClass.prun
      (ProfilerClass.Profiler_do_bench Flashattn.mha_params [3%Z]
         (ProfilerClass.__call__ Flashattn.mha_params [3%Z] 0)
         25 100 10 10 "torch" None None)
    = (log, inr (ProfilerClass.TorchTime (ProfilerClass.Statistic "mean" 10)))
    /\ ProfilerClass.kernel_runs log = 26.
Proof.
  destruct (@bench_torch_runs Flashattn.mha_params [3%Z] 0 25 100 10 10 None)
    as [H _].
  destruct H as (log & E & _ & Hk & _).
  - split.
    + constructor; [intros []|constructor].
    + repeat constructor; simpl; lia.
  - exists log. split; [exact E|exact Hk].
Defined.

(* --------------------------------------------------------------------- *)
(** ** Entering a launch frame: every outcome *)
(* --------------------------------------------------------------------- *)

Section EnterOutcomes.
Import Py KernelLang KernelFrames.

Lemma traverse_iter_vars (l : list Frame) :
  (forallb has_iter_var l = true ->
   exists vs, traverse frame_iter_var_var l = inr vs
              /\ length vs = length l)
  /\ (forallb has_iter_var l = false ->
      traverse frame_iter_var_var l = inl (AttributeError "iter_var")).
Proof.
  induction l as [|f l [IHt IHf]]; simpl.
  - split; [|discriminate]. intros _. now exists [].
  - destruct f as [iv|nm]; simpl.
    + split.
      * intros H. destruct (IHt H) as (vs & -> & Hl).
        exists (var iv :: vs). split; [reflexivity|]. simpl. now rewrite Hl.
      * intros H. now rewrite (IHf H).
    + split; [discriminate|reflexivity].
Qed.

Lemma slice_to_neg_length {A} (l : list A) (k : nat) :
  length (slice_to_neg l k) = length l - k.
Proof. unfold slice_to_neg. rewrite length_firstn. lia. Qed.

(** X14. [__enter__] calls [super().__enter__()] first, whatever follows,
    and never raises [IndexError]. With at most four frames it returns the
    empty list. With any number of frames other than five it returns one
    variable per frame but the last four when all of these carry an
    [iter_var], and raises [AttributeError] otherwise; with five frames
    the outcome is that of the first frame alone. *)
Theorem enter_outcomes (frames : list Frame) :
  let inner := slice_to_neg frames 4 in
  let r := run (KernelLaunchFrame_enter frames) in
  fst r = [FrameEnter frames]
  /\ snd r <> inl IndexError
  /\ (length frames <= 4 -> snd r = inr (VarList []))
  /\ (length frames <> 5 -> forallb has_iter_var inner = true ->
      exists vs, snd r = inr (VarList vs)
                 /\ length vs = length frames - 4)
  /\ (length frames <> 5 -> forallb has_iter_var inner = false ->
      snd r = inl (AttributeError "iter_var"))
  /\ (length frames = 5 ->
      exists f0 rest,
        frames = f0 :: rest
        /\ snd r = match frame_iter_var_var f0 with
                   | inl e => inl e
                   | inr v => inr (OneVar v)
                   end).
Proof.
  intros inner r. unfold r. rewrite enter_run. simpl fst. simpl snd.
  destruct (traverse_iter_vars inner) as [Ht Hf].
  assert (H5 : length frames = 5 ->
               exists f0 rest, frames = f0 :: rest
                               /\ getitem frames 0 = inr f0).
  { intros E. destruct frames as [|f0 rest]; [discriminate|].
    exists f0, rest. split; [reflexivity|].
    apply (getitem_nat (f0 :: rest) 0). reflexivity. }
  split; [reflexivity|]. split; [|split; [|split; [|split]]].
  - destruct (Nat.eqb_spec (length frames) 5) as [E|E].
    + destruct (H5 E) as (f0 & rest & _ & ->).
      destruct f0; simpl; discriminate.
    + fold inner. destruct (forallb has_iter_var inner) eqn:Ef.
      * destruct (Ht eq_refl) as (vs & -> & _). discriminate.
      * rewrite (Hf eq_refl). discriminate.
  - intros Hle.
    destruct (Nat.eqb_spec (length frames) 5) as [E|E]; [lia|].
    unfold slice_to_neg. replace (length frames - 4) with 0 by lia.
    reflexivity.
  - intros Hne Hall.
    destruct (Nat.eqb_spec (length frames) 5) as [E|E]; [contradiction|].
    fold inner. destruct (Ht Hall) as (vs & -> & Hl).
    exists vs. split; [reflexivity|].
    rewrite Hl. apply slice_to_neg_length.
  - intros Hne Hsome.
    destruct (Nat.eqb_spec (length frames) 5) as [E|E]; [contradiction|].
    fold inner. now rewrite (Hf Hsome).
  - intros E. destruct (H5 E) as (f0 & rest & Efr & Hg).
    exists f0, rest. split; [exact Efr|].
    rewrite E, Hg. reflexivity.
Qed.

End EnterOutcomes.

(** Witness for X14: a frame stack of three, and a six-frame stack whose
    second frame is a block. *)
Lemma enter_outcomes_witness :
  let tx := KernelLang.LaunchThreadFrame
              (KernelLang.mkIterVar (KernelLang.mkVar "tx") "threadIdx.x") in
  let root := KernelLang.BlockFrame "root" in
  snd (Py.run (KernelLang.KernelLaunchFrame_enter [tx; tx; root]))
  = inr (KernelLang.VarList [])
  /\ snd (Py.run (KernelLang.KernelLaunchFrame_enter
                    [tx; root; tx; tx; tx; root]))
     = inl (Py.AttributeError "iter_var").
Proof.
  intros tx root. split.
  - destruct (enter_outcomes [tx; tx; root]) as (_ & _ & H & _).
    apply H. simpl. lia.
  - destruct (enter_outcomes [tx; root; tx; tx; tx; root])
      as (_ & _ & _ & _ & H & _).
    apply H; [simpl; lia|reflexivity].
Defined.

(* --------------------------------------------------------------------- *)
(** ** The launch grid: query rows *)
(* --------------------------------------------------------------------- *)

Section QueryRows.
Import Flashattn FlashattnKernel.
Local Open Scope Z_scope.

(** Over the unbounded integers. Every query row below [seq_len] lies in the slice
    [bx * block_M : (bx + 1) * block_M] of exactly one block of the launch
    grid, [bx = q / block_M]: each row of [Q] is loaded, and each row of
    [Output] written, by one block only. The slice of the last block ends
    at or beyond [seq_len]. *)
Lemma query_rows_partition_Z (seq_len block_M q : Z) :
  0 < block_M -> 0 <= q < seq_len ->
  let bx := q / block_M in
  0 <= bx < grid_x seq_len block_M
  /\ fst (q_slice block_M bx) <= q < snd (q_slice block_M bx)
  /\ (forall bx',
         fst (q_slice block_M bx') <= q < snd (q_slice block_M bx') ->
         bx' = bx)
  /\ seq_len <= snd (q_slice block_M (grid_x seq_len block_M - 1)).
Proof.
  intros HM Hq bx.
  pose proof (Z.div_mod q block_M ltac:(lia)) as Hdm.
  pose proof (Z.mod_pos_bound q block_M HM) as Hmod.
  pose proof (ceildiv_spec seq_len HM) as Hc.
  assert (H0 : 0 <= bx) by (apply Z.div_pos; lia).
  unfold grid_x, q_slice. simpl. fold bx in Hdm.
  split; [|split; [|split]].
  - split; [exact H0|]. apply ceildiv_lt; [exact HM|nia].
  - nia.
  - intros bx' Hb. nia.
  - nia.
Qed.


End QueryRows.

(* --------------------------------------------------------------------- *)
(** ** The package bootstrap: environment and import path *)
(* --------------------------------------------------------------------- *)

Section StringFacts.
Local Open Scope string_scope.

Lemma string_append_assoc (a b c : string) : (a ++ b) ++ c = a ++ (b ++ c).
Proof. induction a as [|x a IH]; simpl; [reflexivity|now rewrite IH]. Qed.

Lemma string_append_inv_head (s a b : string) : s ++ a = s ++ b -> a = b.
Proof.
  induction s as [|x s IH]; simpl; intros H; [exact H|].
  injection H as H. now apply IH.
Qed.

Lemma string_append_nonempty (s : string) (c : Ascii.ascii) (w : string) :
  String.eqb (s ++ String c w) "" = false.
Proof. destruct s; reflexivity. Qed.

Lemma endswith_slash_append (s : string) (c : Ascii.ascii) (w : string) :
  Bootstrap.endswith_slash (s ++ String c w)
  = Bootstrap.endswith_slash (String c w).
Proof.
  induction s as [|x s IH]; [reflexivity|].
  change (String x s ++ String c w) with (String x (s ++ String c w)).
  rewrite <- IH. destruct s; reflexivity.
Qed.

End StringFacts.

Section BootstrapFacts.
Import Bootstrap.
Local Open Scope string_scope.

Variable path_exists : string -> bool.
Variable here : string.

Abbreviation install_tvm := (install_tvm_path here).
Abbreviation develop_tvm := (develop_tvm_path here).
Abbreviation install_cutlass := (install_cutlass_path here).
Abbreviation develop_cutlass := (develop_cutlass_path here).
Abbreviation add_tree := (add_tvm_tree path_exists).
Abbreviation tvm := (setup_tvm path_exists here).
Abbreviation cutlass := (setup_cutlass path_exists here).
Abbreviation body := (module_body path_exists here).

Abbreviation here_slash := (Bootstrap.here_slash here).

Lemma join2_first (c : Ascii.ascii) (w : string) :
  startswith_slash (String c w) = false ->
  join2 here (String c w) = here_slash ++ String c w.
Proof.
  intros H. unfold join2, Bootstrap.here_slash. rewrite H.
  destruct (String.eqb here "" || endswith_slash here); [reflexivity|].
  now rewrite string_append_assoc.
Qed.

Lemma join2_next (pre : string) (c : Ascii.ascii) (w b : string) :
  endswith_slash (String c w) = false ->
  startswith_slash b = false ->
  join2 (pre ++ String c w) b = pre ++ (String c w ++ "/" ++ b).
Proof.
  intros Hw Hb. unfold join2.
  rewrite Hb, string_append_nonempty, endswith_slash_append, Hw.
  simpl orb. cbv iota. now rewrite string_append_assoc.
Qed.

Lemma tvm_paths :
  install_tvm = here_slash ++ "3rdparty/tvm"
  /\ develop_tvm = here_slash ++ "../../3rdparty/tvm".
Proof.
  unfold install_tvm_path, develop_tvm_path, join. simpl fold_left.
  rewrite !join2_first by reflexivity.
  split; repeat (rewrite join2_next by reflexivity; simpl append);
    reflexivity.
Qed.

(** The entries the bootstrap inserts are not the paths its guards look
    for. *)
Lemma inserted_not_guarded :
  String.eqb install_tvm (install_tvm ++ "/python") = false
  /\ String.eqb develop_tvm (install_tvm ++ "/python") = false
  /\ String.eqb install_tvm (develop_tvm ++ "/python") = false
  /\ String.eqb develop_tvm (develop_tvm ++ "/python") = false.
Proof.
  destruct tvm_paths as [-> ->]. rewrite !string_append_assoc. simpl append.
  repeat split; apply String.eqb_neq; intros H;
    apply string_append_inv_head in H; discriminate.
Qed.

Lemma get_set_PYTHONPATH (env : Env) (v : string) :
  get (set env "PYTHONPATH" v) "PYTHONPATH" "" = v.
Proof. reflexivity. Qed.

Lemma set_other (env : Env) (k k' v : string) :
  k' <> k -> set env k v k' = env k'.
Proof.
  intros H. unfold set. now destruct (String.eqb_spec k' k).
Qed.

Lemma add_tree_spec (p : string) (st : State) :
  (forall k, k <> "PYTHONPATH" ->
             environ (add_tree p st) k = environ st k)
  /\ (exists added, sys_path (add_tree p st) = (added ++ sys_path st)%list
                    /\ length added <= 1)
  /\ (exists prefix, get (environ (add_tree p st)) "PYTHONPATH" ""
                     = prefix ++ get (environ st) "PYTHONPATH" "")
  /\ warnings (add_tree p st) = warnings st.
Proof.
  unfold add_tvm_tree.
  destruct (path_exists p && negb (in_path p (sys_path st))); simpl.
  - split; [|split; [|split]].
    + intros k Hk. now apply set_other.
    + exists [p ++ "/python"]. split; [reflexivity|simpl; lia].
    + exists (p ++ "/python:"). rewrite get_set_PYTHONPATH.
      now rewrite string_append_assoc.
    + reflexivity.
  - split; [|split; [|split]]; try reflexivity.
    + exists []. split; [reflexivity|simpl; lia].
    + now exists "".
Qed.

Lemma tvm_spec (st : State) :
  (forall k, k <> "PYTHONPATH" -> k <> "TVM_LIBRARY_PATH" ->
             environ (tvm st) k = environ st k)
  /\ (forall v, environ st "TVM_LIBRARY_PATH" = Some v ->
                environ (tvm st) "TVM_LIBRARY_PATH" = Some v)
  /\ (exists added, sys_path (tvm st) = (added ++ sys_path st)%list
                    /\ length added <= 2)
  /\ (exists prefix, get (environ (tvm st)) "PYTHONPATH" ""
                     = prefix ++ get (environ st) "PYTHONPATH" "")
  /\ warnings (tvm st) = warnings st.
Proof.
  unfold setup_tvm.
  destruct (environ st "TVM_IMPORT_PYTHON_PATH") as [P|] eqn:EP.
  - simpl. split; [|split; [|split; [|split]]].
    + intros k Hk _. now apply set_other.
    + intros v Hv. rewrite set_other by discriminate. exact Hv.
    + exists [P ++ "/python"]. split; [reflexivity|simpl; lia].
    + exists (P ++ ":"). rewrite get_set_PYTHONPATH.
      now rewrite string_append_assoc.
    + reflexivity.
  - cbv zeta.
    destruct (add_tree_spec install_tvm st)
      as (F1 & (a1 & S1 & L1) & (p1 & G1) & W1).
    destruct (add_tree_spec develop_tvm (add_tree install_tvm st))
      as (F2 & (a2 & S2 & L2) & (p2 & G2) & W2).
    set (st2 := add_tree develop_tvm (add_tree install_tvm st)) in *.
    assert (F : forall k, k <> "PYTHONPATH" -> environ st2 k = environ st k)
      by (intros k Hk; now rewrite F2, F1).
    assert (S : exists added, sys_path st2 = (added ++ sys_path st)%list
                              /\ length added <= 2).
    { exists (a2 ++ a1)%list. rewrite S2, S1, app_assoc, length_app.
      split; [reflexivity|lia]. }
    assert (G : exists prefix, get (environ st2) "PYTHONPATH" ""
                               = prefix ++ get (environ st) "PYTHONPATH" "").
    { exists (p2 ++ p1). now rewrite G2, G1, string_append_assoc. }
    assert (W : warnings st2 = warnings st) by (now rewrite W2, W1).
    destruct (environ st2 "TVM_LIBRARY_PATH") as [v2|] eqn:EL.
    + split; [|split; [|split; [|split]]]; try assumption.
      * intros k Hk _. now apply F.
      * intros v Hv. rewrite <- Hv. apply F. discriminate.
    + simpl. split; [|split; [|split; [|split]]]; try assumption.
      * intros k Hk Hk'. rewrite set_other by exact Hk'. now apply F.
      * intros v Hv. rewrite F in EL by discriminate. congruence.
Qed.

Lemma cutlass_spec (st : State) :
  sys_path (cutlass st) = sys_path st
  /\ (forall k, k <> "TL_CUTLASS_PATH" ->
                environ (cutlass st) k = environ st k)
  /\ (forall v, environ st "TL_CUTLASS_PATH" = Some v -> cutlass st = st)
  /\ (((exists v, environ (cutlass st) "TL_CUTLASS_PATH" = Some v)
       /\ warnings (cutlass st) = warnings st)
      \/ (environ (cutlass st) "TL_CUTLASS_PATH" = None
          /\ warnings (cutlass st)
             = (warnings st ++ [CUTLASS_NOT_FOUND_MESSAGE])%list)).
Proof.
  unfold setup_cutlass.
  destruct (environ st "TL_CUTLASS_PATH") as [v0|] eqn:E0.
  - split; [reflexivity|]. split; [reflexivity|]. split; [reflexivity|].
    left. split; [now exists v0|reflexivity].
  - destruct (path_exists install_cutlass);
      [|destruct (path_exists develop_cutlass
                  && negb (in_path develop_cutlass (sys_path st)))];
      simpl; (split; [reflexivity|]);
      (split; [intros k Hk; try reflexivity; now apply set_other|]);
      (split; [discriminate|]).
    + left. split; [eexists; reflexivity|reflexivity].
    + left. split; [eexists; reflexivity|reflexivity].
    + right. split; [exact E0|reflexivity].
Qed.

(** X16. The module body never overwrites what the user has set: a
    [TVM_LIBRARY_PATH] or [TL_CUTLASS_PATH] already in the environment
    keeps its value (and then no CUTLASS warning is logged), every
    variable other than [PYTHONPATH] and these two is left alone, the old
    [sys.path] and the old [PYTHONPATH] survive as the tail of the new
    ones behind at most two inserted entries, and the library is loaded
    exactly when [SKIP_LOADING_TILELANG_SO] is unset or is [0]. *)
Theorem bootstrap_preserves_settings (st : State) :
  let st' := fst (body st) in
  (forall k, k <> "PYTHONPATH" -> k <> "TVM_LIBRARY_PATH" ->
             k <> "TL_CUTLASS_PATH" -> environ st' k = environ st k)
  /\ (forall v, environ st "TVM_LIBRARY_PATH" = Some v ->
                environ st' "TVM_LIBRARY_PATH" = Some v)
  /\ (forall v, environ st "TL_CUTLASS_PATH" = Some v ->
                environ st' "TL_CUTLASS_PATH" = Some v
                /\ warnings st' = warnings st)
  /\ (exists added, sys_path st' = (added ++ sys_path st)%list
                    /\ length added <= 2)
  /\ (exists prefix, get (environ st') "PYTHONPATH" ""
                     = prefix ++ get (environ st) "PYTHONPATH" "")
  /\ (snd (body st) = true
      <-> environ st "SKIP_LOADING_TILELANG_SO" = None
          \/ environ st "SKIP_LOADING_TILELANG_SO" = Some "0").
Proof.
  unfold module_body. cbv zeta. simpl fst. simpl snd.
  destruct (tvm_spec st) as (F1 & L1 & S1 & G1 & W1).
  destruct (cutlass_spec (tvm st)) as (S2 & F2 & K2 & _).
  split; [|split; [|split; [|split; [|split]]]].
  - intros k H1 H2 H3. rewrite F2 by exact H3. now apply F1.
  - intros v Hv. rewrite F2 by discriminate. now apply L1.
  - intros v Hv.
    assert (Hv' : environ (tvm st) "TL_CUTLASS_PATH" = Some v)
      by (rewrite F1 by discriminate; exact Hv).
    rewrite (K2 v Hv'). split; [exact Hv'|exact W1].
  - rewrite S2. exact S1.
  - unfold get at 1. rewrite F2 by discriminate. exact G1.
  - unfold get. destruct (environ st "SKIP_LOADING_TILELANG_SO") as [s|].
    + split.
      * intros H. apply String.eqb_eq in H. right. now subst.
      * intros [H|H]; [discriminate|]. injection H as ->. reflexivity.
    + split; [now left|reflexivity].
Qed.

(** X17. After the module body either [TL_CUTLASS_PATH] is set and no
    warning was logged, or it is unset and exactly the CUTLASS warning was
    logged. When it was unset before, the bundled install tree wins over
    the develop tree; the develop tree is used only if its path is not an
    entry of [sys.path], and is passed over with the warning if it is. *)
Theorem cutlass_path_or_warning (st : State) :
  let st' := fst (body st) in
  (((exists v, environ st' "TL_CUTLASS_PATH" = Some v)
    /\ warnings st' = warnings st)
   \/ (environ st' "TL_CUTLASS_PATH" = None
       /\ warnings st' = (warnings st ++ [CUTLASS_NOT_FOUND_MESSAGE])%list))
  /\ (environ st "TL_CUTLASS_PATH" = None ->
      (path_exists install_cutlass = true ->
       environ st' "TL_CUTLASS_PATH" = Some (install_cutlass ++ "/include"))
      /\ (path_exists install_cutlass = false ->
          path_exists develop_cutlass = true ->
          in_path develop_cutlass (sys_path st') = false ->
          environ st' "TL_CUTLASS_PATH"
          = Some (develop_cutlass ++ "/include"))
      /\ (path_exists install_cutlass = false ->
          path_exists develop_cutlass = true ->
          in_path develop_cutlass (sys_path st') = true ->
          environ st' "TL_CUTLASS_PATH" = None
          /\ warnings st' = (warnings st ++ [CUTLASS_NOT_FOUND_MESSAGE])%list)).
Proof.
  unfold module_body. cbv zeta. simpl fst.
  destruct (tvm_spec st) as (F1 & _ & _ & _ & W1).
  destruct (cutlass_spec (tvm st)) as (S2 & _ & _ & D2).
  split.
  - rewrite <- W1. exact D2.
  - intros Hn.
    assert (Hn' : environ (tvm st) "TL_CUTLASS_PATH" = None)
      by (rewrite F1 by discriminate; exact Hn).
    rewrite S2. unfold setup_cutlass. rewrite Hn'.
    split; [|split].
    + intros ->. reflexivity.
    + intros -> -> ->. reflexivity.
    + intros -> -> ->. simpl. split; [exact Hn'|now rewrite W1].
Qed.

(** X18. Which TVM is imported. With [TVM_IMPORT_PYTHON_PATH] set, its
    [python] directory becomes [sys.path[0]] while [PYTHONPATH] gets the
    path itself, and [TVM_LIBRARY_PATH] is not defaulted. Without it, when
    both bundled trees exist and neither path is an entry of [sys.path],
    the develop tree ends up in front of the install tree in [sys.path]
    and in [PYTHONPATH]; the inserted entries end in [/python], so the
    guards [not in sys.path] still hold afterwards. *)
Theorem tvm_import_precedence (st : State) :
  let st' := fst (body st) in
  let old := get (environ st) "PYTHONPATH" "" in
  (forall P, environ st "TVM_IMPORT_PYTHON_PATH" = Some P ->
     sys_path st' = (P ++ "/python") :: sys_path st
     /\ environ st' "PYTHONPATH" = Some (P ++ ":" ++ old)
     /\ environ st' "TVM_LIBRARY_PATH" = environ st "TVM_LIBRARY_PATH")
  /\ (environ st "TVM_IMPORT_PYTHON_PATH" = None ->
      path_exists install_tvm = true ->
      path_exists develop_tvm = true ->
      in_path install_tvm (sys_path st) = false ->
      in_path develop_tvm (sys_path st) = false ->
      sys_path st'
      = (develop_tvm ++ "/python") :: (install_tvm ++ "/python")
          :: sys_path st
      /\ environ st' "PYTHONPATH"
         = Some (develop_tvm ++ "/python:" ++ install_tvm ++ "/python:"
                   ++ old)
      /\ in_path install_tvm (sys_path st') = false
      /\ in_path develop_tvm (sys_path st') = false
      /\ exists v, environ st' "TVM_LIBRARY_PATH" = Some v).
Proof.
  unfold module_body. cbv zeta. simpl fst.
  destruct (cutlass_spec (tvm st)) as (S2 & F2 & _ & _).
  rewrite S2, !F2 by discriminate.
  split.
  - intros P HP. unfold setup_tvm. rewrite HP. simpl.
    split; [reflexivity|]. split; [reflexivity|].
    apply set_other. discriminate.
  - intros HP Ei Ed Ni Nd.
    destruct inserted_not_guarded as (Q1 & Q2 & Q3 & Q4).
    unfold setup_tvm. rewrite HP. cbv zeta.
    assert (E1 : add_tree install_tvm st
                 = mkState (set (environ st) "PYTHONPATH"
                                (install_tvm ++ "/python:"
                                   ++ get (environ st) "PYTHONPATH" ""))
                           ((install_tvm ++ "/python") :: sys_path st)
                           (warnings st)).
    { unfold add_tvm_tree. now rewrite Ei, Ni. }
    rewrite E1.
    assert (E2 : add_tree develop_tvm
                   (mkState (set (environ st) "PYTHONPATH"
                                 (install_tvm ++ "/python:"
                                    ++ get (environ st) "PYTHONPATH" ""))
                            ((install_tvm ++ "/python") :: sys_path st)
                            (warnings st))
                 = mkState (set (set (environ st) "PYTHONPATH"
                                     (install_tvm ++ "/python:"
                                        ++ get (environ st) "PYTHONPATH" ""))
                                "PYTHONPATH"
                                (develop_tvm ++ "/python:"
                                   ++ install_tvm ++ "/python:"
                                   ++ get (environ st) "PYTHONPATH" ""))
                           ((develop_tvm ++ "/python")
                              :: (install_tvm ++ "/python") :: sys_path st)
                           (warnings st)).
    { unfold add_tvm_tree. simpl sys_path. simpl in_path.
      rewrite Ed, Q2, Nd. reflexivity. }
    rewrite E2. simpl environ.
    assert (Hguards :
              in_path install_tvm
                      ((develop_tvm ++ "/python")
                         :: (install_tvm ++ "/python") :: sys_path st)
              = false
              /\ in_path develop_tvm
                         ((develop_tvm ++ "/python")
                            :: (install_tvm ++ "/python") :: sys_path st)
                 = false).
    { simpl in_path. now rewrite Q1, Q2, Q3, Q4, Ni, Nd. }
    destruct Hguards as [G1 G2].
    match goal with
    | |- context [match ?x with Some _ => _ | None => _ end] =>
        destruct x as [v|] eqn:EL
    end; simpl;
      (split; [reflexivity|]); (split; [reflexivity|]);
      (split; [exact G1|]); (split; [exact G2|]).
    + exists v. exact EL.
    + now eexists.
Qed.

End BootstrapFacts.

(** Witness for X16: a user who has set [TVM_LIBRARY_PATH] keeps it. *)
Lemma bootstrap_preserves_settings_witness :
  let env := Bootstrap.set (fun _ => None) "TVM_LIBRARY_PATH"%string
                           "/opt/tvm"%string in
  let st := Bootstrap.mkState env ["/usr/lib/python3"%string] [] in
  Bootstrap.environ
    (fst (Bootstrap.module_body (fun _ => true) "/opt/tilelang"%string st))
    "TVM_LIBRARY_PATH"%string
  = Some "/opt/tvm"%string.
Proof.
  intros env st.
  destruct (@bootstrap_preserves_settings (fun _ => true)
              "/opt/tilelang"%string st) as (_ & H & _).
  apply H. reflexivity.
Defined.

(** Witness for X17: only the develop tree of CUTLASS exists. *)
Lemma cutlass_path_or_warning_witness :
  let dev := Bootstrap.develop_cutlass_path "/opt/tilelang"%string in
  let st := Bootstrap.mkState (fun _ => None) ["/usr/lib/python3"%string]
                              [] in
  Bootstrap.environ
    (fst (Bootstrap.module_body (String.eqb dev) "/opt/tilelang"%string st))
    "TL_CUTLASS_PATH"%string
  = Some (dev ++ "/include")%string.
Proof.
  intros dev st.
  destruct (@cutlass_path_or_warning (String.eqb dev)
              "/opt/tilelang"%string st) as (_ & H).
  destruct (H eq_refl) as (_ & Hd & _).
  apply Hd; reflexivity.
Defined.

(** Witness for X18: both bundled TVM trees exist. *)
Lemma tvm_import_precedence_witness :
  let st := Bootstrap.mkState (fun _ => None) ["/usr/lib/python3"%string]
                              [] in
  Bootstrap.sys_path
    (fst (Bootstrap.module_body (fun _ => true) "/opt/tilelang"%string st))
  = ["/opt/tilelang/../../3rdparty/tvm/python"%string;
     "/opt/tilelang/3rdparty/tvm/python"%string;
     "/usr/lib/python3"%string].
Proof.
  intros st.
  destruct (@tvm_import_precedence (fun _ => true)
              "/opt/tilelang"%string st) as (_ & H).
  destruct (H eq_refl eq_refl eq_refl eq_refl eq_refl) as (Hs & _).
  exact Hs.
Defined.

(* --------------------------------------------------------------------- *)
(** ** The profiler: consistency of repeated runs *)
(* --------------------------------------------------------------------- *)

Section AssertConsistent.
Import Py Profiler ProfilerClass.
Local Open Scope prof_scope.

Variable params : list TensorType.
Variable result_idx : list Z.
Variable dev : nat.
Variable consistent : Returned -> Returned -> bool.

Abbreviation valid := (valid_result_idx params result_idx).
Abbreviation every := (seq 0 (length params)).
Abbreviation allocs := (allocs_of params result_idx dev every).
Abbreviation positions := (supplied_positions params result_idx).
Abbreviation supplied :=
  (map (fun i => Supply (param params i)) (positions false)).
Abbreviation m := (length result_idx).
Abbreviation out := (fun c => returned_at params result_idx dev (c * m)).

(** One call of the wrapper, the [c]-th since the log was empty of
    allocations. *)
Lemma call_counted (ins : list Tensor) (log : list Event) (c : nat) :
  valid ->
  length ins + length result_idx = length params ->
  allocated log = c * m ->
  exists d,
    __call__ params result_idx dev ins log = (log ++ d, inr (out c))
    /\ allocated (log ++ d) = S c * m
    /\ kernel_runs d = 1
    /\ supplies d = [].
Proof.
  intros Hv Hlen Ha.
  rewrite (@call_ok params result_idx dev ins log Hv Hlen), Ha.
  eexists. split; [reflexivity|]. split; [|split].
  - unfold allocated in *. rewrite calls_of_app, calls_of_torch.
    rewrite filter_app, length_app, Ha. simpl.
    rewrite filter_app, allocs_are_allocs, length_app. simpl.
    unfold allocs_of. rewrite length_map, (outputs_count Hv). lia.
  - unfold kernel_runs. rewrite calls_of_torch.
    change (CurrentDevice :: allocs ++ ?x)
      with ([CurrentDevice] ++ allocs ++ x).
    now rewrite !kernel_calls_app, allocs_no_kernel.
  - unfold supplies. now rewrite (flat_map_map_nil _ Torch) by reflexivity.
Qed.

Lemma kernel_runs_app (l1 l2 : list Event) :
  kernel_runs (l1 ++ l2) = kernel_runs l1 + kernel_runs l2.
Proof.
  unfold kernel_runs. now rewrite calls_of_app, kernel_calls_app.
Qed.

Lemma supplies_app (l1 l2 : list Event) :
  supplies (l1 ++ l2) = supplies l1 ++ supplies l2.
Proof. apply flat_map_app. Qed.

(** The loop from its [c]-th call on, failing first at iteration [k], or
    not at all when [k] is the number of iterations. *)
Lemma consistent_loop_run (ins : list Tensor) (ref_outs : Returned) :
  valid ->
  length ins + length result_idx = length params ->
  forall n k c log,
    allocated log = c * m ->
    k <= n ->
    (forall i, i < k -> consistent (out (c + i)) ref_outs = true) ->
    (k < n -> consistent (out (c + k)) ref_outs = false) ->
    exists d,
      consistent_loop params result_idx dev consistent ins ref_outs n log
      = (log ++ d, if k <? n then inl AssertionError else inr tt)
      /\ kernel_runs d = (if k <? n then S k else n)
      /\ supplies d = [].
Proof.
  intros Hv Hlen.
  induction n as [|n IH]; intros k c log Ha Hk Hok Hbad.
  - exists []. replace k with 0 by lia. simpl. unfold pret.
    now rewrite app_nil_r.
  - simpl consistent_loop.
    destruct (@call_counted ins log c Hv Hlen Ha) as (d1 & E1 & A1 & K1 & S1).
    rewrite (pbind_ok _ _ _ E1).
    destruct k as [|k].
    + rewrite Nat.add_0_r in Hbad. rewrite (Hbad ltac:(lia)).
      exists d1. change (0 <? S n) with true. cbv iota.
      split; [reflexivity|]. split; [exact K1|exact S1].
    + pose proof (Hok 0 ltac:(lia)) as H0. rewrite Nat.add_0_r in H0.
      rewrite H0.
      destruct (IH k (S c) (log ++ d1) A1 ltac:(lia)) as (d2 & E2 & K2 & S2).
      * intros i Hi. replace (S c + i) with (c + S i) by lia.
        apply Hok. lia.
      * intros Hlt. replace (S c + k) with (c + S k) by lia.
        apply Hbad. lia.
      * exists (d1 ++ d2). rewrite E2, app_assoc.
        change (S k <? S n) with (k <? n).
        split; [reflexivity|]. split.
        -- rewrite kernel_runs_app, K1, K2. destruct (k <? n); lia.
        -- now rewrite supplies_app, S1, S2.
Qed.

(** X19. [assert_consistent] supplies the inputs once, calls the kernel
    once for the reference outputs and then once per iteration on the same
    inputs, comparing the fresh outputs of every run with those of the
    first. It stops with [AssertionError] at the first iteration whose
    outputs differ, after [2 + k] kernel runs, and otherwise returns after
    [1 + repeat] runs; a non-positive [repeat] compares nothing. On an
    invalid [result_idx] the first call raises [ValueError]. *)
Theorem assert_consistent_outcome (repeat : Z) :
  let n := Z.to_nat repeat in
  (valid ->
   forall k,
     k <= n ->
     (forall i, i < k -> consistent (out (S i)) (out 0) = true) ->
     (k < n -> consistent (out (S k)) (out 0) = false) ->
     exists log,
       prun (assert_consistent params result_idx dev consistent repeat)
       = (log, if k <? n then inl AssertionError else inr tt)
       /\ kernel_runs log = (if k <? n then 2 + k else 1 + n)
       /\ supplies log = map (param params) (positions false))
  /\ (~ valid ->
      exists log msg,
        prun (assert_consistent params result_idx dev consistent repeat)
        = (log, inl (Raised (ValueError msg)))
        /\ calls_of log = []).
Proof.
  intros n.
  set (ins := map Given (seq 0 (length (positions false)))).
  assert (E : prun (assert_consistent params result_idx dev consistent
                                      repeat)
              = (ref_outs <- __call__ params result_idx dev ins ;;
                 consistent_loop params result_idx dev consistent ins
                                 ref_outs n) supplied).
  { unfold prun, assert_consistent.
    now rewrite (pbind_ok _ _ _ (get_inputs_run params result_idx false [])). }
  assert (Hs0 : supplies supplied = map (param params) (positions false)).
  { unfold supplies.
    now rewrite (flat_map_map_single _ _ (param params)) by reflexivity. }
  assert (Hk0 : calls_of supplied = []).
  { unfold calls_of. now rewrite flat_map_map_nil by reflexivity. }
  split.
  - intros Hv k Hk Hok Hbad.
    assert (Hlen : length ins + length result_idx = length params).
    { unfold ins. rewrite length_map, length_seq.
      now apply positions_inputs. }
    assert (Ha : allocated supplied = 0 * m)
      by (unfold allocated; now rewrite Hk0).
    destruct (@call_counted ins supplied 0 Hv Hlen Ha)
      as (d1 & E1 & A1 & K1 & S1).
    destruct (@consistent_loop_run ins (out 0) Hv Hlen n k 1 (supplied ++ d1)
                A1 Hk) as (d2 & E2 & K2 & S2).
    + intros i Hi. now apply Hok.
    + intros Hlt. now apply Hbad.
    + exists ((supplied ++ d1) ++ d2).
      rewrite E, (pbind_ok _ _ _ E1), E2.
      split; [reflexivity|]. split.
      * rewrite !kernel_runs_app, K1, K2. unfold kernel_runs.
        rewrite Hk0. simpl. destruct (k <? n); lia.
      * now rewrite !supplies_app, Hs0, S1, S2, !app_nil_r.
  - intros Hnv.
    assert (Hlen : length ins + length result_idx <> length params).
    { unfold ins. rewrite length_map, length_seq. intros H. apply Hnv.
      now apply positions_inputs. }
    destruct (@call_mismatch params result_idx dev ins supplied Hlen)
      as (msg & Em).
    exists supplied, msg. split; [|exact Hk0].
    rewrite E. now apply pbind_fail.
Qed.

End AssertConsistent.

(** Witness for X19: the example's wrapper, checked three times with
    outputs that always agree. *)
Lemma assert_consistent_outcome_witness :
  exists log,
    ProfilerClass.prun
      (ProfilerClass.assert_consistent Flashattn.mha_params [3%Z] 0
         (fun _ _ => true) 3)
    = (log, inr tt)
    /\ ProfilerClass.kernel_runs log = 4.
Proof.
  destruct (@assert_consistent_outcome Flashattn.mha_params [3%Z] 0
              (fun _ _ => true) 3) as [H _].
  destruct (H ltac:(split;
                    [constructor; [intros []|constructor]
                    |repeat constructor; simpl; lia])
              3 ltac:(simpl; lia) ltac:(reflexivity)
              ltac:(simpl; lia)) as (log & E & Hk & _).
  exists log. split; [exact E|exact Hk].
Defined.

(* --------------------------------------------------------------------- *)
(** ** The attention loop in 32-bit arithmetic *)
(* --------------------------------------------------------------------- *)

Section AttentionLoopInt32.
Import Int32 FlashattnKernel.
Local Open Scope Z_scope.

Lemma wrap_fits (x : Z) : fits x -> wrap x = x.
Proof.
  unfold fits, min_int, max_int, wrap. intros H.
  rewrite Z.mod_small by lia. lia.
Qed.

Lemma floordiv_range (x b : Z) : 0 < b -> fits x -> fits (x / b).
Proof.
  unfold fits, min_int, max_int. intros Hb Hx.
  pose proof (Z.div_mod x b ltac:(lia)) as Hdm.
  pose proof (Z.mod_pos_bound x b Hb) as Hm. nia.
Qed.

(** Within the range of [int32] the folded [T.ceildiv] is the exact
    one. *)
Lemma ceildiv_exact (a b : Z) :
  0 < b -> min_int <= a -> a + b <= max_int ->
  FlashattnInt32.ceildiv a b = inr (Flashattn.ceildiv a b).
Proof.
  intros Hb Ha Hab. unfold FlashattnInt32.ceildiv, add, sub, floordiv.
  assert (Hmin : min_int = - 2 ^ 31) by reflexivity.
  assert (Hmax : max_int = 2 ^ 31 - 1) by reflexivity.
  rewrite (wrap_fits (x := a + b)) by (unfold fits; lia).
  rewrite (wrap_fits (x := a + b - 1)) by (unfold fits; lia).
  destruct (Z.eqb_spec b 0) as [E|_]; [lia|].
  rewrite wrap_fits; [reflexivity|].
  apply floordiv_range; [exact Hb|unfold fits; lia].
Qed.

Lemma block_end_exact (bx block_M : Z) :
  0 < block_M -> 0 <= bx -> (bx + 1) * block_M <= max_int ->
  mul (add bx 1) block_M = (bx + 1) * block_M
  /\ mul bx block_M = bx * block_M.
Proof.
  intros HM Hbx Hmax. unfold mul, add.
  assert (Hmin : min_int = - 2 ^ 31) by reflexivity.
  assert (Hmx : max_int = 2 ^ 31 - 1) by reflexivity.
  rewrite (wrap_fits (x := bx + 1)) by (unfold fits; nia).
  rewrite (wrap_fits (x := (bx + 1) * block_M)) by (unfold fits; nia).
  rewrite (wrap_fits (x := bx * block_M)) by (unfold fits; nia).
  split; reflexivity.
Qed.

Lemma loop_range_exact (seq_len block_M block_N : Z) (is_casual : bool)
      (bx : Z) :
  0 < block_M -> 0 < block_N -> 0 <= bx ->
  min_int <= seq_len -> seq_len + block_N <= max_int ->
  (bx + 1) * block_M + block_N <= max_int ->
  FlashattnInt32.loop_range seq_len block_M block_N is_casual bx
  = inr (Flashattn.loop_range seq_len block_M block_N is_casual bx).
Proof.
  intros HM HN Hbx Hs Hsn Hb.
  assert (Hmin : min_int = - 2 ^ 31) by reflexivity.
  unfold FlashattnInt32.loop_range, Flashattn.loop_range.
  rewrite (ceildiv_exact HN Hs Hsn).
  destruct is_casual; [|reflexivity].
  destruct (block_end_exact HM Hbx ltac:(lia)) as [-> _].
  rewrite ceildiv_exact; [reflexivity|exact HN|nia|exact Hb].
Qed.

Lemma MMA0_init_exact (block_M block_N : Z) (is_casual : bool)
      (bx k i j : Z) :
  0 < block_M -> 0 < block_N -> 0 <= bx -> 0 <= k ->
  0 <= i < block_M -> 0 <= j < block_N ->
  (bx + 1) * block_M <= max_int -> (k + 1) * block_N <= max_int ->
  FlashattnInt32.MMA0_init block_M block_N is_casual bx k i j
  = MMA0_init block_M block_N is_casual bx k i j.
Proof.
  intros HM HN Hbx Hk Hi Hj HbM HkN.
  assert (Hmin : min_int = - 2 ^ 31) by reflexivity.
  assert (Hmx : max_int = 2 ^ 31 - 1) by reflexivity.
  unfold FlashattnInt32.MMA0_init, MMA0_init, add, mul.
  rewrite (wrap_fits (x := bx * block_M)) by (unfold fits; nia).
  rewrite (wrap_fits (x := bx * block_M + i)) by (unfold fits; nia).
  rewrite (wrap_fits (x := k * block_N)) by (unfold fits; nia).
  rewrite (wrap_fits (x := k * block_N + j)) by (unfold fits; nia).
  reflexivity.
Qed.

(** X1. As long as the index arithmetic stays within [int32], the trip
    count never exceeds the number of K tiles, [ceildiv(seq_len,
    block_N)]; it does not decrease with the block coordinate and is at
    least 1 for a non-empty sequence. *)
Theorem loop_range_bounds (seq_len block_M block_N : Z) (is_casual : bool)
        (bx bx' : Z) :
  0 < block_M -> 0 < block_N -> 0 <= bx <= bx' ->
  min_int <= seq_len -> seq_len + block_N <= max_int ->
  (bx' + 1) * block_M + block_N <= max_int ->
  exists tiles t t',
    FlashattnInt32.ceildiv seq_len block_N = inr tiles
    /\ FlashattnInt32.loop_range seq_len block_M block_N is_casual bx
       = inr t
    /\ FlashattnInt32.loop_range seq_len block_M block_N is_casual bx'
       = inr t'
    /\ t <= tiles /\ t <= t' /\ (0 < seq_len -> 1 <= t).
Proof.
  intros HM HN Hbx Hs Hsn Hb.
  destruct (@loop_range_bounds_Z seq_len block_M block_N is_casual bx bx'
              HM HN Hbx) as (H1 & H2 & H3).
  eexists _, _, _.
  split; [apply (ceildiv_exact HN Hs Hsn)|].
  split; [apply loop_range_exact; try assumption; try lia; nia|].
  split; [apply loop_range_exact; try assumption; lia|].
  split; [exact H1|]. split; [exact H2|exact H3].
Qed.

Lemma loop_range_bounds_witness :
  exists tiles t t',
    FlashattnInt32.ceildiv 4096 176 = inr tiles
    /\ FlashattnInt32.loop_range 4096 128 176 true 3 = inr t
    /\ FlashattnInt32.loop_range 4096 128 176 true 20 = inr t'
    /\ t <= tiles /\ t <= t'.
Proof.
  destruct (@loop_range_bounds 4096 128 176 true 3 20
              ltac:(lia) ltac:(lia) ltac:(lia)
              ltac:(vm_compute; discriminate) ltac:(vm_compute; discriminate)
              ltac:(vm_compute; discriminate))
    as (tiles & t & t' & E1 & E2 & E3 & H1 & H2 & _).
  exists tiles, t, t'. repeat split; assumption.
Defined.

(** Outside that range the bounds fail: a sequence of [2^31 - 1] rows
    has a negative trip count and a negative grid extent. *)
Example loop_range_wraps :
  FlashattnInt32.loop_range 2147483647 128 176 false 0 = inr (-12201611)
  /\ FlashattnInt32.grid_x 2147483647 128 = inr (-16777216).
Proof. split; reflexivity. Qed.

(** A block size of zero is refused. *)
Example loop_range_zero_block :
  FlashattnInt32.loop_range 4096 128 0 false 0 = inl DivideByZero.
Proof. reflexivity. Qed.

(** X2. Within [int32], the last block of the launch grid runs over all K
    tiles even with causal masking. *)
Theorem last_block_runs_all_tiles (seq_len block_M block_N : Z) :
  0 < block_M -> 0 < block_N -> 0 < seq_len ->
  seq_len + block_M + block_N <= max_int ->
  exists grid tiles,
    FlashattnInt32.grid_x seq_len block_M = inr grid
    /\ FlashattnInt32.ceildiv seq_len block_N = inr tiles
    /\ FlashattnInt32.loop_range seq_len block_M block_N true (grid - 1)
       = inr tiles.
Proof.
  intros HM HN Hs Hmax.
  assert (Hmin : min_int = - 2 ^ 31) by reflexivity.
  pose proof (ceildiv_spec seq_len HM) as Hc.
  pose proof (ceildiv_pos HM Hs) as Hg.
  exists (Flashattn.ceildiv seq_len block_M),
         (Flashattn.ceildiv seq_len block_N).
  split; [apply ceildiv_exact; lia|].
  split; [apply ceildiv_exact; lia|].
  rewrite loop_range_exact by (try assumption; try lia; nia).
  f_equal. apply (last_block_runs_all_tiles_Z HM HN Hs).
Qed.

Lemma last_block_runs_all_tiles_witness :
  exists grid tiles,
    FlashattnInt32.grid_x 4096 128 = inr grid
    /\ FlashattnInt32.loop_range 4096 128 176 true (grid - 1) = inr tiles.
Proof.
  destruct (@last_block_runs_all_tiles 4096 128 176
              ltac:(lia) ltac:(lia) ltac:(lia)
              ltac:(vm_compute; discriminate))
    as (grid & tiles & E1 & _ & E2).
  exists grid, tiles. split; assumption.
Defined.

(** X3. Within [int32], the causal loop bound skips only tiles that the
    mask would blank completely: from tile [ceildiv((bx+1) * block_M,
    block_N)] on, every entry of [acc_s] would be initialised to
    [-inf]. *)
Theorem skipped_tiles_fully_masked (block_M block_N bx k i j : Z) :
  0 < block_M -> 0 < block_N -> 0 <= bx ->
  0 <= i < block_M -> 0 <= j < block_N ->
  (bx + 1) * block_M + block_N <= max_int ->
  (k + 1) * block_N <= max_int ->
  exists reach,
    FlashattnInt32.ceildiv (mul (add bx 1) block_M) block_N = inr reach
    /\ (reach <= k ->
        FlashattnInt32.MMA0_init block_M block_N true bx k i j
        = neg_infinity).
Proof.
  intros HM HN Hbx Hi Hj Hb Hk.
  assert (Hmin : min_int = - 2 ^ 31) by reflexivity.
  destruct (block_end_exact HM Hbx ltac:(lia)) as [-> _].
  exists (Flashattn.ceildiv ((bx + 1) * block_M) block_N).
  split; [apply ceildiv_exact; [exact HN|nia|exact Hb]|].
  intros Hr.
  assert (H0 : 0 <= k).
  { pose proof (@ceildiv_pos ((bx + 1) * block_M) block_N HN ltac:(nia)).
    lia. }
  rewrite MMA0_init_exact; try assumption; try lia.
  apply skipped_tiles_fully_masked_Z; try assumption; lia.
Qed.

Lemma skipped_tiles_fully_masked_witness :
  exists reach,
    FlashattnInt32.ceildiv (mul (add 0 1) 128) 176 = inr reach
    /\ FlashattnInt32.MMA0_init 128 176 true 0 1 127 0 = neg_infinity.
Proof.
  destruct (@skipped_tiles_fully_masked 128 176 0 1 127 0
              ltac:(lia) ltac:(lia) ltac:(lia) ltac:(lia) ltac:(lia)
              ltac:(vm_compute; discriminate)
              ltac:(vm_compute; discriminate)) as (reach & E & H).
  exists reach. split; [exact E|]. apply H.
  vm_compute in E. injection E as <-. lia.
Defined.

(** X4. Within [int32], the loop visits every key a query of the block
    may attend to: a key position [kv < seq_len] with [kv <= bx * block_M
    + i] lies in a tile below the trip count, and is left unmasked there.
    Without causal masking every key position below [seq_len] lies in a
    visited tile. *)
Theorem visited_tiles_cover_keys (seq_len block_M block_N bx i kv : Z) :
  0 < block_M -> 0 < block_N -> 0 <= bx -> 0 <= i < block_M ->
  0 <= kv < seq_len ->
  seq_len + block_N <= max_int ->
  (bx + 1) * block_M + block_N <= max_int ->
  exists causal full,
    FlashattnInt32.loop_range seq_len block_M block_N true bx = inr causal
    /\ FlashattnInt32.loop_range seq_len block_M block_N false bx
       = inr full
    /\ (kv <= bx * block_M + i ->
        0 <= kv / block_N < causal
        /\ FlashattnInt32.MMA0_init block_M block_N true bx
             (kv / block_N) i (kv mod block_N) = zero)
    /\ 0 <= kv / block_N < full.
Proof.
  intros HM HN Hbx Hi Hkv Hsn Hb.
  assert (Hmin : min_int = - 2 ^ 31) by reflexivity.
  destruct (@visited_tiles_cover_keys_Z seq_len block_M block_N bx i kv
              HM HN Hi Hkv) as [Hc Hf].
  pose proof (Z.div_mod kv block_N ltac:(lia)) as Hdm.
  pose proof (Z.mod_pos_bound kv block_N HN) as Hmod.
  assert (Hq : 0 <= kv / block_N) by (apply Z.div_pos; lia).
  eexists _, _.
  split; [apply loop_range_exact; try assumption; lia|].
  split; [apply loop_range_exact; try assumption; lia|].
  split; [|exact Hf].
  intros Hvis. destruct (Hc Hvis) as [H1 H2]. split; [exact H1|].
  rewrite MMA0_init_exact; try assumption; try lia; nia.
Qed.

Lemma visited_tiles_cover_keys_witness :
  exists causal,
    FlashattnInt32.loop_range 4096 128 176 true 2 = inr causal
    /\ 0 <= 300 / 176 < causal
    /\ FlashattnInt32.MMA0_init 128 176 true 2 (300 / 176) 50 (300 mod 176)
       = zero.
Proof.
  destruct (@visited_tiles_cover_keys 4096 128 176 2 50 300
              ltac:(lia) ltac:(lia) ltac:(lia) ltac:(lia) ltac:(lia)
              ltac:(vm_compute; discriminate)
              ltac:(vm_compute; discriminate))
    as (causal & full & E & _ & H & _).
  exists causal. split; [exact E|]. apply H. lia.
Defined.

(** X6. Within [int32], every K/V tile the loop copies starts inside the
    sequence, but the last one ends exactly at [seq_len] only when
    [block_N] divides [seq_len]; otherwise its slice runs past the end of
    [K] and [V]. *)
Theorem last_tile_overrun (seq_len block_M block_N bx k : Z)
        (is_casual : bool) :
  0 < block_M -> 0 < block_N -> 0 < seq_len -> 0 <= bx ->
  seq_len + block_N <= max_int ->
  (bx + 1) * block_M + block_N <= max_int ->
  exists trips tiles,
    FlashattnInt32.loop_range seq_len block_M block_N is_casual bx
    = inr trips
    /\ FlashattnInt32.ceildiv seq_len block_N = inr tiles
    /\ (0 <= k < trips ->
        0 <= fst (FlashattnInt32.kv_slice block_N k) < seq_len)
    /\ seq_len <= snd (FlashattnInt32.kv_slice block_N (tiles - 1))
    /\ (snd (FlashattnInt32.kv_slice block_N (tiles - 1)) = seq_len
        <-> seq_len mod block_N = 0).
Proof.
  intros HM HN Hs Hbx Hsn Hb.
  assert (Hmin : min_int = - 2 ^ 31) by reflexivity.
  assert (Hmx : max_int = 2 ^ 31 - 1) by reflexivity.
  destruct (@last_tile_overrun_Z seq_len block_M block_N bx k is_casual
              HM HN Hs) as [Hfirst Hlast].
  cbv zeta in Hlast. destruct Hlast as [Hle Hiff].
  pose proof (ceildiv_spec seq_len HN) as Hc.
  pose proof (ceildiv_pos HN Hs) as Hpos.
  destruct (@loop_range_bounds_Z seq_len block_M block_N is_casual bx bx
              HM HN ltac:(lia)) as (Hub & _ & _).
  eexists _, _.
  split; [apply loop_range_exact; try assumption; lia|].
  split; [apply ceildiv_exact; lia|].
  assert (Hslice : forall q, 0 <= q < Flashattn.ceildiv seq_len block_N ->
            FlashattnInt32.kv_slice block_N q = kv_slice block_N q).
  { intros q Hq. unfold FlashattnInt32.kv_slice, kv_slice, mul, add.
    rewrite (wrap_fits (x := q * block_N)) by (unfold fits; nia).
    rewrite (wrap_fits (x := q + 1)) by (unfold fits; nia).
    rewrite (wrap_fits (x := (q + 1) * block_N)) by (unfold fits; nia).
    reflexivity. }
  split; [|split].
  - intros Hk. rewrite Hslice by lia. now apply Hfirst.
  - rewrite Hslice by lia. exact Hle.
  - rewrite Hslice by lia. exact Hiff.
Qed.

Lemma last_tile_overrun_witness :
  exists trips tiles,
    FlashattnInt32.loop_range 4096 128 176 false 0 = inr trips
    /\ FlashattnInt32.ceildiv 4096 176 = inr tiles
    /\ 4096 <= snd (FlashattnInt32.kv_slice 176 (tiles - 1)).
Proof.
  destruct (@last_tile_overrun 4096 128 176 0 23 false
              ltac:(lia) ltac:(lia) ltac:(lia) ltac:(lia)
              ltac:(vm_compute; discriminate)
              ltac:(vm_compute; discriminate))
    as (trips & tiles & E1 & E2 & _ & H & _).
  exists trips, tiles. repeat split; assumption.
Defined.

(** X15. Within [int32], every query row below [seq_len] lies in the
    slice [bx * block_M : (bx + 1) * block_M] of exactly one block of the
    launch grid, [bx = q / block_M]: each row of [Q] is loaded, and each
    row of [Output] written, by one block only. The slice of the last
    block ends at or beyond [seq_len]. *)
Theorem query_rows_partition (seq_len block_M q : Z) :
  0 < block_M -> 0 <= q < seq_len -> seq_len + block_M <= max_int ->
  exists grid,
    FlashattnInt32.grid_x seq_len block_M = inr grid
    /\ 0 <= q / block_M < grid
    /\ fst (FlashattnInt32.q_slice block_M (q / block_M)) <= q
       < snd (FlashattnInt32.q_slice block_M (q / block_M))
    /\ (forall bx,
           0 <= bx < grid ->
           fst (FlashattnInt32.q_slice block_M bx) <= q
           < snd (FlashattnInt32.q_slice block_M bx) ->
           bx = q / block_M)
    /\ seq_len <= snd (FlashattnInt32.q_slice block_M (grid - 1)).
Proof.
  intros HM Hq Hmax.
  assert (Hmin : min_int = - 2 ^ 31) by reflexivity.
  assert (Hmx : max_int = 2 ^ 31 - 1) by reflexivity.
  destruct (@query_rows_partition_Z seq_len block_M q HM Hq)
    as (Hbx & Hin & Huniq & Hlast).
  pose proof (ceildiv_spec seq_len HM) as Hc.
  unfold Flashattn.grid_x in *.
  exists (Flashattn.ceildiv seq_len block_M).
  split; [apply ceildiv_exact; lia|].
  assert (Hslice : forall bx, 0 <= bx < Flashattn.ceildiv seq_len block_M ->
            FlashattnInt32.q_slice block_M bx = q_slice block_M bx).
  { intros bx Hb. unfold FlashattnInt32.q_slice, q_slice, mul, add.
    rewrite (wrap_fits (x := bx * block_M)) by (unfold fits; nia).
    rewrite (wrap_fits (x := bx + 1)) by (unfold fits; nia).
    rewrite (wrap_fits (x := (bx + 1) * block_M)) by (unfold fits; nia).
    reflexivity. }
  split; [exact Hbx|]. split; [|split].
  - rewrite Hslice by exact Hbx. exact Hin.
  - intros bx Hb Hs. rewrite Hslice in Hs by exact Hb. now apply Huniq.
  - rewrite Hslice by lia. exact Hlast.
Qed.

Lemma query_rows_partition_witness :
  exists grid,
    FlashattnInt32.grid_x 4096 128 = inr grid
    /\ 0 <= 4095 / 128 < grid.
Proof.
  destruct (@query_rows_partition 4096 128 4095 ltac:(lia) ltac:(lia)
              ltac:(vm_compute; discriminate)) as (grid & E & H & _).
  exists grid. split; assumption.
Defined.

End AttentionLoopInt32.
